(** * Retail copilot: the hybrid query orchestration engine

    A shallow embedding of
    - [agent/rag/retrieval.py]   (the document ranker),
    - [agent/dspy_signatures.py] (the completion ports and their clean-up),
    - [agent/tools/sqlite_tool.py] (the relational adapter),
    - [agent/graph_hybrid.py]    (the workflow graph and the post-processor),
    and the properties of the orchestration stated about them.

    Conventions.
    - Python [str] is [string].  White space, digits and case mapping are
      those of the ASCII characters, on which Python and this file agree;
      a property whose conclusion depends on them is stated for the texts
      that [Text.ascii_text] admits, the other properties for every text.
    - Python [float] is the rational value of a binary64 number; every
      arithmetic operation rounds its exact result to the nearest binary64
      (ties to even), as IEEE 754 does.  Infinities appear only where the
      code can produce one (parsing a number out of the answer text).
    - Python [dict] is a [gmap]; a missing key raises [KeyError].
    - The language model, sqlite3 and the json module are outside the
      repository: they are the fields of [Ports].  scikit-learn's
      similarities are a field of [Retriever].  numpy's [argsort] does not
      fix the order of equal values: [Retrieval.search_by] takes the index
      sort as an argument, and [Retrieval.search] is the search with the
      stable one. *)

From Stdlib Require Import ZArith QArith Qround Qabs Lia Lqa.
From Stdlib Require Import Ascii String.
From stdpp Require Import gmap strings list sorting.

Open Scope Z_scope.

(** ** Binary64 arithmetic *)

Module PyFloat.

(** Round to the nearest integer, ties to the even one. *)
Definition rne (q : Q) : Z :=
  let f := Qfloor q in
  match (q - inject_Z f ?= 1 # 2)%Q with
  | Lt => f
  | Gt => f + 1
  | Eq => if Z.even f then f else f + 1
  end.

Definition pow2 (e : Z) : Q :=
  if 0 <=? e then inject_Z (2 ^ e) else 1 # Z.to_pos (2 ^ (- e)).

(** [ilog2 q] is the integer [c] with [2^c <= |q| < 2^(c+1)], for [q]
    other than zero. *)
Definition ilog2 (q : Q) : Z :=
  let c := Z.log2 (Z.abs (Qnum q)) - Z.log2 (Zpos (Qden q)) in
  if Qle_bool (pow2 c) (Qabs q) then c else c - 1.

(** The binary64 number nearest to [q]: 53 significant bits, down to the
    subnormal spacing [2^-1074].  The exponent is not bounded above: the
    one place where the code can overflow tests [overflows] first. *)
Definition b64 (q : Q) : Q :=
  if Qeq_bool q 0 then 0%Q
  else
    let e := Z.max (ilog2 q - 52) (-1074) in
    Qred (inject_Z (rne (q / pow2 e)) * pow2 e).

Definition overflows (q : Q) : bool :=
  Qle_bool (pow2 1024) (Qabs (b64 q)).

(** A decimal literal of the source, such as [0.1]. *)
Definition lit (q : Q) : Q := b64 q.

Definition fadd (x y : Q) : Q := b64 (x + y).
Definition fsub (x y : Q) : Q := b64 (x - y).
Definition fmul (x y : Q) : Q := b64 (x * y).
Definition fdiv (x y : Q) : Q := b64 (x / y).

(** [float(n)] for an [int] of moderate size. *)
Definition of_int (n : Z) : Q := b64 (inject_Z n).

(** [x > y], [min] and [max] on floats are exact.  Python's [min(a, b)]
    returns [b] only when [b < a], and [max(a, b)] returns [b] only when
    [b > a]. *)
Definition gt (x y : Q) : bool := negb (Qle_bool x y).
Definition fmin (a b : Q) : Q := if gt a b then b else a.
Definition fmax (a b : Q) : Q := if gt b a then b else a.

(** [round(x, 2)]: the exact value of [x] is rounded to two decimals,
    ties to even, and the decimal is read back as a binary64. *)
Definition hundredths (x : Q) : Z := rne (x * 100).
Definition cents (n : Z) : Q := b64 (inject_Z n / 100).
Definition round2 (x : Q) : Q := cents (hundredths x).

Definition cents_in_range (n : Z) : bool :=
  Qle_bool 0 (cents n) && Qle_bool (cents n) 1.

(** "Clamp to [0, 1]", as the specification words it. *)
Definition clamp01 (x : Q) : Q :=
  if gt 0 x then 0%Q else if gt x 1 then 1%Q else x.

End PyFloat.

(** ** Python string operations *)

Module Text.

Definition code (c : ascii) : N := N_of_ascii c.

Definition between (lo hi : N) (c : ascii) : bool :=
  ((lo <=? code c) && (code c <=? hi))%N.

(** [str.isspace] on the ASCII range: TAB..CR, FS..US and the space. *)
Definition is_space (c : ascii) : bool :=
  between 9 13 c || between 28 32 c.

(** [\d] on the ASCII range. *)
Definition is_digit (c : ascii) : bool := between 48 57 c.

Definition lower_char (c : ascii) : ascii :=
  if between 65 90 c then ascii_of_N (code c + 32) else c.

Definition upper_char (c : ascii) : ascii :=
  if between 97 122 c then ascii_of_N (code c - 32) else c.

Fixpoint map_chars (f : ascii -> ascii) (s : string) : string :=
  match s with
  | EmptyString => EmptyString
  | String c s' => String (f c) (map_chars f s')
  end.

(** [s.lower()] and [s.upper()]. *)
Definition lower : string -> string := map_chars lower_char.
Definition upper : string -> string := map_chars upper_char.

(** [s.startswith(p)]. *)
Fixpoint startswith (p s : string) : bool :=
  match p, s with
  | EmptyString, _ => true
  | String a p', String b s' => if Ascii.eqb a b then startswith p' s' else false
  | String _ _, EmptyString => false
  end.

(** [needle in s]. *)
Fixpoint contains (needle s : string) : bool :=
  startswith needle s ||
  match s with
  | EmptyString => false
  | String _ s' => contains needle s'
  end.

Fixpoint lstrip (s : string) : string :=
  match s with
  | EmptyString => EmptyString
  | String c s' => if is_space c then lstrip s' else s
  end.

Fixpoint rstrip (s : string) : string :=
  match s with
  | EmptyString => EmptyString
  | String c s' =>
      match rstrip s' with
      | EmptyString => if is_space c then EmptyString else String c EmptyString
      | r => String c r
      end
  end.

(** [s.strip()]. *)
Definition strip (s : string) : string := lstrip (rstrip s).

(** [s[n:]] for [n >= 0]. *)
Fixpoint drop_chars (n : nat) (s : string) : string :=
  match n, s with
  | O, _ => s
  | S n', String _ s' => drop_chars n' s'
  | S _, EmptyString => EmptyString
  end.

(** [s[:n]] for [n >= 0]. *)
Fixpoint take_chars (n : nat) (s : string) : string :=
  match n, s with
  | O, _ => EmptyString
  | S n', String c s' => String c (take_chars n' s')
  | S _, EmptyString => EmptyString
  end.

Fixpoint rev_onto (acc s : string) : string :=
  match s with
  | EmptyString => acc
  | String c s' => rev_onto (String c acc) s'
  end.

(** [s.split(sep)] for a separator that is not empty: the pieces between
    the occurrences of [sep], found from the left without overlap.
    [skip] counts the characters of a separator that is being stepped
    over, [acc] is the current piece, reversed. *)
Fixpoint split_go (sep s : string) (skip : nat) (acc : string) : list string :=
  match s with
  | EmptyString => [rev_onto EmptyString acc]
  | String c s' =>
      match skip with
      | S k => split_go sep s' k acc
      | O =>
          if startswith sep s
          then rev_onto EmptyString acc :: split_go sep s' (String.length sep - 1) EmptyString
          else split_go sep s' O (String c acc)
      end
  end.

Definition split (sep s : string) : list string :=
  split_go sep s O EmptyString.

(** The longest prefix of [s] made of characters satisfying [p]. *)
Fixpoint span_chars (p : ascii -> bool) (s : string) : string :=
  match s with
  | EmptyString => EmptyString
  | String c s' => if p c then String c (span_chars p s') else EmptyString
  end.

(** [re.search(cls+, s)] for a character class [cls]: the first maximal
    run of characters of the class, [None] when there is none. *)
Fixpoint search_run (p : ascii -> bool) (s : string) : option string :=
  match s with
  | EmptyString => None
  | String c s' => if p c then Some (span_chars p s) else search_run p s'
  end.

Definition digit_value (c : ascii) : Z := Z.of_N (code c) - 48.

(** The number written by a run of decimal digits, read after [acc]. *)
Fixpoint digits_value (acc : Z) (s : string) : Z :=
  match s with
  | EmptyString => acc
  | String c s' => digits_value (10 * acc + digit_value c) s'
  end.

Fixpoint all_chars (p : ascii -> bool) (s : string) : bool :=
  match s with
  | EmptyString => true
  | String c s' => p c && all_chars p s'
  end.

(** "[needle] occurs in [label] whatever the case of the letters": some
    stretch of [label] is [needle] once lower-cased. *)
Definition ci_occurs (needle label : string) : Prop :=
  exists pre mid post, label = pre +:+ mid +:+ post /\ lower mid = needle.

(** A text of ASCII characters. *)
Definition is_ascii (c : ascii) : bool := (code c <? 128)%N.

Definition ascii_text (s : string) : Prop := all_chars is_ascii s = true.

(** A word: not empty, and without white space. *)
Definition solid (needle : string) : Prop :=
  needle <> EmptyString /\ all_chars (fun c => negb (is_space c)) needle = true.

Fixpoint join (sep : string) (l : list string) : string :=
  match l with
  | [] => EmptyString
  | [x] => x
  | x :: l' => x +:+ sep +:+ join sep l'
  end.

End Text.

(** ** Exceptions and results *)

Inductive exn : Type :=
  | KeyError (key : string)
  | IndexError
  | TypeError
  | GraphRecursionError
  | ValueError
  | MarkupError.

Inductive Result (A : Type) : Type :=
  | Ok (a : A)
  | Raise (e : exn).
Arguments Ok {A} a.
Arguments Raise {A} e.

Definition rbind {A B} (r : Result A) (k : A -> Result B) : Result B :=
  match r with
  | Ok a => k a
  | Raise e => Raise e
  end.

(** [l[i]] on a Python list. *)
Definition list_get {A} (l : list A) (i : nat) : Result A :=
  match l !! i with
  | Some a => Ok a
  | None => Raise IndexError
  end.

(** A list comprehension or [for] loop whose body may raise. *)
Fixpoint rmap {A B} (f : A -> Result B) (l : list A) : Result (list B) :=
  match l with
  | [] => Ok []
  | a :: l' => rbind (f a) (fun b => rbind (rmap f l') (fun bs => Ok (b :: bs)))
  end.

(** ** agent/rag/retrieval.py *)

Module Retrieval.

Record Chunk := { chunk_id : string; chunk_content : string; chunk_source : string }.

(** A search result: the dict with keys [id], [content], [source] and
    [score] that [search] builds. *)
Record Doc := { id : string; content : string; source : string; score : Q }.

(** The ranker after [_load_documents].  [similarities query] stands for
    [cosine_similarity(self.vectorizer.transform([query]), self.vectors)[0]]:
    scikit-learn computes one similarity per row of [self.vectors]. *)
Record Retriever := {
  chunks : list Chunk;
  similarities : string -> list Q
}.

(** [self.vectors] has one row per chunk ([fit_transform] over the chunk
    contents). *)
Definition loaded (r : Retriever) : Prop :=
  forall query, length (similarities r query) = length (chunks r).

Definition key (sims : list Q) (i : nat) : Q := default 0%Q (sims !! i).

(** [np.argsort(similarities)]: the indices in ascending order of
    similarity.  With its default kind numpy does not fix where it puts
    equal similarities, so that the sort itself is left open:
    [index_sort sort] says what numpy promises of it. *)
Definition index_sort (sort : list Q -> list nat) : Prop :=
  forall sims,
    sort sims ≡ₚ seq 0 (length sims)
    /\ StronglySorted (fun i j => (key sims i <= key sims j)%Q) (sort sims).

(** The stable index sort ([kind='stable']), which the specification
    names: it leaves equal similarities in index order. *)
Fixpoint insert_by (sims : list Q) (i : nat) (l : list nat) : list nat :=
  match l with
  | [] => [i]
  | j :: l' =>
      if Qle_bool (key sims i) (key sims j) then i :: l
      else j :: insert_by sims i l'
  end.

Definition argsort (sims : list Q) : list nat :=
  foldr (insert_by sims) [] (seq 0 (length sims)).

(** [a[start:]], with Python's treatment of a negative start. *)
Definition slice_from {A} (start : Z) (a : list A) : list A :=
  let n := Z.of_nat (length a) in
  drop (Z.to_nat (if start <? 0 then Z.max 0 (n + start) else start)) a.

(** [np.argsort(similarities)[-top_k:][::-1]] *)
Definition top_indices_by (sort : list Q -> list nat) (sims : list Q) (top_k : Z)
    : list nat :=
  reverse (slice_from (- top_k) (sort sims)).

Definition top_indices (sims : list Q) (top_k : Z) : list nat :=
  top_indices_by argsort sims top_k.

Definition result_at (r : Retriever) (sims : list Q) (idx : nat) : Result Doc :=
  rbind (list_get (chunks r) idx) (fun chunk =>
  rbind (list_get sims idx) (fun s =>
  Ok {| id := chunk_id chunk; content := chunk_content chunk;
        source := chunk_source chunk; score := s |})).

(** [search], with the index sort that numpy runs. *)
Definition search_by (sort : list Q -> list nat) (r : Retriever) (query : string)
    (top_k : Z) : Result (list Doc) :=
  match chunks r with
  | [] => Ok []
  | _ :: _ =>
      let sims := similarities r query in
      rmap (result_at r sims) (top_indices_by sort sims top_k)
  end.

(** [search] when the index sort is the stable one. *)
Definition search (r : Retriever) (query : string) (top_k : Z) : Result (list Doc) :=
  search_by argsort r query top_k.

(** [get_chunk_by_id] *)
Fixpoint get_chunk_by_id_in (cs : list Chunk) (cid : string) : string :=
  match cs with
  | [] => EmptyString
  | c :: cs' => if String.eqb (chunk_id c) cid then chunk_content c
                else get_chunk_by_id_in cs' cid
  end.

Definition get_chunk_by_id (r : Retriever) (cid : string) : string :=
  get_chunk_by_id_in (chunks r) cid.

(** How many elements the slice [[-top_k:]] drops from the front of an
    array of [n]. *)
Definition skipped (n : nat) (top_k : Z) : nat :=
  Z.to_nat (if - top_k <? 0 then Z.max 0 (Z.of_nat n - top_k) else - top_k).

(** How many results the slice [[-top_k:]] leaves out of [n]. *)
Definition top_count (n : nat) (top_k : Z) : nat :=
  if top_k =? 0 then n
  else if 0 <? top_k then Nat.min (Z.to_nat top_k) n
  else (n - Z.to_nat (- top_k))%nat.

(** "[i] ranks before [j]": a smaller similarity, or the same similarity
    and loaded earlier. *)
Definition ranks_before (sims : list Q) (i j : nat) : Prop :=
  (key sims i < key sims j)%Q \/ ((key sims i == key sims j)%Q /\ (i < j)%nat).

(** The ranking as the specification words it: a higher similarity first,
    and among equal similarities the chunk loaded earlier first. *)
Definition ranked_in_load_order (sims : list Q) (idxs : list nat) : Prop :=
  StronglySorted
    (fun i j => (key sims j < key sims i)%Q
                \/ ((key sims i == key sims j)%Q /\ (i < j)%nat))
    idxs.

End Retrieval.

(** ** Python values that cross the workflow *)

(** A value read from a sqlite3 row. *)
Inductive SqlValue : Type :=
  | SqlNull
  | SqlInt (z : Z)
  | SqlReal (q : Q)
  | SqlText (s : string)
  | SqlBlob (s : string).

(** The values stored in the [sql_results] dict. *)
Inductive PyVal : Type :=
  | PyNone
  | PyBool (b : bool)
  | PyStr (s : string)
  | PyStrs (l : list string)
  | PyRows (l : list (gmap string SqlValue)).

(** What [json.loads] can return. *)
#[local] Unset Elimination Schemes.
Inductive Json : Type :=
  | JNull
  | JBool (b : bool)
  | JInt (z : Z)
  | JFloat (q : Q)
  | JStr (s : string)
  | JArr (l : list Json)
  | JObj (l : list (string * Json)).
#[local] Set Elimination Schemes.

(** A float that may be the positive infinity. *)
Inductive FloatVal : Type :=
  | Finite (q : Q)
  | Infinity.

(** The [final_answer] field, of type [Any]. *)
Inductive Answer : Type :=
  | AnsNone
  | AnsInt (z : Z)
  | AnsFloat (x : FloatVal)
  | AnsJson (j : Json)
  | AnsStr (s : string).

(** Truth value of an object in a condition. *)
Definition truthy (v : PyVal) : bool :=
  match v with
  | PyNone => false
  | PyBool b => b
  | PyStr s => negb (String.eqb s EmptyString)
  | PyStrs l => match l with [] => false | _ => true end
  | PyRows l => match l with [] => false | _ => true end
  end.

(** [d[k]] on a dict. *)
Definition getitem (d : gmap string PyVal) (k : string) : Result PyVal :=
  match d !! k with
  | Some v => Ok v
  | None => Raise (KeyError k)
  end.

(** [dict(pairs)]: a later pair overrides an earlier one with the same key. *)
Definition py_dict {V} (pairs : list (string * V)) : gmap string V :=
  foldl (fun m p => <[p.1 := p.2]> m) ∅ pairs.

Definition nl : string := String (ascii_of_N 10) EmptyString.
Definition dquote : string := String (ascii_of_N 34) EmptyString.
Definition fence : string := "```".

(** ** agent/tools/sqlite_tool.py *)

Module SqliteTool.

(** What [cursor.execute(sql)], [fetchall()] and [cursor.description]
    give: the column names (when there is a description) and the rows, or
    the text of the exception. *)
Inductive Outcome : Type :=
  | Fetched (description : option (list string)) (rows : list (list SqlValue))
  | Failed (message : string).

Definition execute_query_result (o : Outcome) : gmap string PyVal :=
  match o with
  | Fetched description rows =>
      let columns := match description with
                     | Some names => names
                     | None => []
                     end in
      let result_rows := map (fun row => py_dict (zip columns row)) rows in
      py_dict [("success", PyBool true); ("columns", PyStrs columns);
               ("rows", PyRows result_rows); ("error", PyNone)]
  | Failed message =>
      py_dict [("success", PyBool false); ("columns", PyStrs []);
               ("rows", PyRows []); ("error", PyStr message)]
  end.

End SqliteTool.

(** ** The world outside the repository *)

(** A call that leaves the process: to the language model or to sqlite3. *)
Inductive Call : Type :=
  | CallRoute (question : string)
  | CallGenerateSQL (question schema context : string)
  | CallRepairSQL (original_sql : string) (error : PyVal) (schema : string)
  | CallSynthesize (question format_hint doc_context sql_results : string)
  | CallExecute (sql : string).

(** The completion ports, the relational engine and the json module.  [W]
    is whatever state they keep between two calls, so that two calls with
    the same arguments need not answer alike.  [json_dumps v] is the text
    that [json.dumps(v)] returns when it returns; [json_loads s] is [None]
    when [json.loads(s)] raises. *)
Record Ports (W : Type) := {
  lm_route : string -> W -> string * W;
  lm_generate : string -> string -> string -> W -> string * W;
  lm_repair : string -> PyVal -> string -> W -> string * W;
  lm_synth : string -> string -> string -> string -> W -> (string * string) * W;
  sqlite : string -> W -> SqliteTool.Outcome * W;
  json_dumps : PyVal -> string;
  json_loads : string -> option Json
}.
Arguments lm_route {W}.
Arguments lm_generate {W}.
Arguments lm_repair {W}.
Arguments lm_synth {W}.
Arguments sqlite {W}.
Arguments json_dumps {W}.
Arguments json_loads {W}.

(** The state of the world: the state of the ports, and the calls made so
    far, latest last. *)
Record World (W : Type) := { outside : W; calls : list Call }.
Arguments outside {W}.
Arguments calls {W}.

(** Computations that call out and may raise. *)
Definition M (W A : Type) : Type := World W -> Result A * World W.

Definition ret {W A} (a : A) : M W A := fun w => (Ok a, w).
Definition raise {W A} (e : exn) : M W A := fun w => (Raise e, w).
Definition bind {W A B} (m : M W A) (k : A -> M W B) : M W B :=
  fun w => match m w with
           | (Ok a, w') => k a w'
           | (Raise e, w') => (Raise e, w')
           end.
Definition lift {W A} (r : Result A) : M W A := fun w => (r, w).

(** One call to the outside: it is recorded, and the ports move on. *)
Definition call {W A} (c : Call) (f : W -> A * W) : M W A :=
  fun w => let (a, o) := f (outside w) in
           (Ok a, {| outside := o; calls := calls w ++ [c] |}).

Declare Scope M_scope.
Delimit Scope M_scope with M.
Notation "x <- m ;; k" := (bind m (fun x => k))
  (at level 100, m at next level, right associativity) : M_scope.

(** ** agent/dspy_signatures.py *)

Module Signatures.

Import Text.

(** The normalisation of [Router.forward], applied to [result.route]. *)
Definition normalize_route (label : string) : string :=
  let route := strip (lower label) in
  if contains "hybrid" route then "hybrid"
  else if contains "sql" route then "sql"
  else if contains "rag" route then "rag"
  else "hybrid".

(** [text.split('```')[1]], then the language tag [tag] and its newline are
    dropped when the piece starts with them, then [strip]. *)
Definition unfence (tag : string) (text : string) : Result string :=
  rbind (list_get (split fence text) 1) (fun inner =>
  let inner := if startswith (tag +:+ nl) inner
               then drop_chars (String.length (tag +:+ nl)) inner
               else inner in
  Ok (strip inner)).

(** The clean-up shared by [NLToSQL.forward] and [SQLRepair.forward]. *)
Definition clean_sql (raw : string) : Result string :=
  let sql := strip raw in
  if contains fence sql then unfence "sql" sql else Ok sql.

Section Modules.

Context {W : Type} (P : Ports W).

Definition Router_forward (question : string) : M W string :=
  (label <- call (CallRoute question) (lm_route P question) ;;
   ret (normalize_route label))%M.

Definition NLToSQL_forward (question schema context : string) : M W string :=
  (raw <- call (CallGenerateSQL question schema context)
               (lm_generate P question schema context) ;;
   lift (clean_sql raw))%M.

Definition SQLRepair_forward (original_sql : string) (error : PyVal)
    (schema : string) : M W string :=
  (raw <- call (CallRepairSQL original_sql error schema)
               (lm_repair P original_sql error schema) ;;
   lift (clean_sql raw))%M.

Definition Synthesizer_forward (question format_hint doc_context sql_results : string)
    : M W (string * string) :=
  (result <- call (CallSynthesize question format_hint doc_context sql_results)
                  (lm_synth P question format_hint doc_context sql_results) ;;
   ret (strip (fst result), strip (snd result)))%M.

End Modules.

End Signatures.

(** ** agent/graph_hybrid.py: the state and the post-processor *)

Module Graph.

Import Text PyFloat Signatures.
Export Retrieval.

(** A line of the trace, with the values its f-string interpolates. *)
Inductive TraceEntry : Type :=
  | TrRouted (route : string)
  | TrRetrieved (count : nat)
  | TrPlanner (dates : nat) (route : string)
  | TrGenerated (sql_head : string)
  | TrSqlSuccess (rows : nat)
  | TrSqlError (error : PyVal)
  | TrRepair (attempt : Z) (sql_head : string)
  | TrSynthesized (answer : Answer).

Record AgentState := {
  question : string;
  format_hint : string;
  route : string;
  retrieved_docs : list Doc;
  sql : string;
  sql_results : gmap string PyVal;
  final_answer : Answer;
  explanation : string;
  citations : list string;
  confidence : Q;
  repair_count : Z;
  trace : list TraceEntry
}.

(** [self.retriever] and [self.schema]; [self.db_tool] and the four dspy
    modules are reached through the ports. *)
Record HybridAgent := {
  agent_retriever : Retriever;
  agent_schema : string
}.

Definition set_route (v : string) (st : AgentState) : AgentState :=
  {| question := question st; format_hint := format_hint st; route := v;
     retrieved_docs := retrieved_docs st; sql := sql st;
     sql_results := sql_results st; final_answer := final_answer st;
     explanation := explanation st; citations := citations st;
     confidence := confidence st; repair_count := repair_count st;
     trace := trace st |}.

Definition set_retrieved_docs (v : list Doc) (st : AgentState) : AgentState :=
  {| question := question st; format_hint := format_hint st; route := route st;
     retrieved_docs := v; sql := sql st;
     sql_results := sql_results st; final_answer := final_answer st;
     explanation := explanation st; citations := citations st;
     confidence := confidence st; repair_count := repair_count st;
     trace := trace st |}.

Definition set_sql (v : string) (st : AgentState) : AgentState :=
  {| question := question st; format_hint := format_hint st; route := route st;
     retrieved_docs := retrieved_docs st; sql := v;
     sql_results := sql_results st; final_answer := final_answer st;
     explanation := explanation st; citations := citations st;
     confidence := confidence st; repair_count := repair_count st;
     trace := trace st |}.

Definition set_sql_results (v : gmap string PyVal) (st : AgentState) : AgentState :=
  {| question := question st; format_hint := format_hint st; route := route st;
     retrieved_docs := retrieved_docs st; sql := sql st;
     sql_results := v; final_answer := final_answer st;
     explanation := explanation st; citations := citations st;
     confidence := confidence st; repair_count := repair_count st;
     trace := trace st |}.

Definition set_repair_count (v : Z) (st : AgentState) : AgentState :=
  {| question := question st; format_hint := format_hint st; route := route st;
     retrieved_docs := retrieved_docs st; sql := sql st;
     sql_results := sql_results st; final_answer := final_answer st;
     explanation := explanation st; citations := citations st;
     confidence := confidence st; repair_count := v;
     trace := trace st |}.

Definition set_outcome (a : Answer) (e : string) (c : list string) (conf : Q)
    (st : AgentState) : AgentState :=
  {| question := question st; format_hint := format_hint st; route := route st;
     retrieved_docs := retrieved_docs st; sql := sql st;
     sql_results := sql_results st; final_answer := a;
     explanation := e; citations := c;
     confidence := conf; repair_count := repair_count st;
     trace := trace st |}.

(** [state["trace"].append(entry)] *)
Definition append_trace (entry : TraceEntry) (st : AgentState) : AgentState :=
  {| question := question st; format_hint := format_hint st; route := route st;
     retrieved_docs := retrieved_docs st; sql := sql st;
     sql_results := sql_results st; final_answer := final_answer st;
     explanation := explanation st; citations := citations st;
     confidence := confidence st; repair_count := repair_count st;
     trace := trace st ++ [entry] |}.

(** [len(v)] *)
Definition py_len (v : PyVal) : Result nat :=
  match v with
  | PyStr s => Ok (String.length s)
  | PyStrs l => Ok (length l)
  | PyRows l => Ok (length l)
  | PyNone | PyBool _ => Raise TypeError
  end.

(** *** The planner's date pattern *)

Definition is_dash (c : ascii) : bool := Ascii.eqb c "-".

(** [\d{4}-\d{2}-\d{2}] *)
Definition date_pattern : list (ascii -> bool) :=
  [is_digit; is_digit; is_digit; is_digit; is_dash;
   is_digit; is_digit; is_dash; is_digit; is_digit].

Fixpoint matches_at (pat : list (ascii -> bool)) (s : string) : bool :=
  match pat, s with
  | [], _ => true
  | p :: pat', String c s' => p c && matches_at pat' s'
  | _ :: _, EmptyString => false
  end.

(** [len(re.findall(pattern, s))]: matches from the left, without overlap. *)
Fixpoint count_matches (pat : list (ascii -> bool)) (s : string) (skip : nat) : nat :=
  match s with
  | EmptyString => O
  | String _ s' =>
      match skip with
      | S k => count_matches pat s' k
      | O => if matches_at pat s
             then S (count_matches pat s' (length pat - 1))
             else count_matches pat s' O
      end
  end.

(** *** _parse_answer *)

Definition is_digit_or_dot (c : ascii) : bool := is_digit c || Ascii.eqb c ".".

(** [int(digits)] on a run of digits; CPython refuses more than 4300 of
    them with a [ValueError] ([None]). *)
Definition py_int (digits : string) : option Z :=
  if (4300 <? String.length digits)%nat then None
  else Some (digits_value 0 digits).

(** [float(m)] on a run of digits and dots: a [ValueError] ([None]) unless
    the run has at most one dot and at least one digit. *)
Definition py_float (m : string) : option FloatVal :=
  let int_part := span_chars is_digit m in
  let value (frac : string) :=
    let q := (inject_Z (digits_value 0 (int_part +:+ frac))
              / inject_Z (10 ^ Z.of_nat (String.length frac)))%Q in
    if overflows q then Infinity else Finite (b64 q) in
  match drop_chars (String.length int_part) m with
  | EmptyString =>
      match int_part with
      | EmptyString => None
      | _ => Some (value EmptyString)
      end
  | String _ frac =>
      if all_chars is_digit frac
         && negb (String.eqb (int_part +:+ frac) EmptyString)
      then Some (value frac) else None
  end.

(** [round(x, 2)]; the infinity rounds to itself. *)
Definition py_round2 (x : FloatVal) : FloatVal :=
  match x with
  | Finite q => Finite (round2 q)
  | Infinity => Infinity
  end.

(** The text the parser works on: trimmed, and taken out of its code fence
    when it has one. *)
Definition clean_answer (answer : string) : Result string :=
  let answer := strip answer in
  if contains fence answer then unfence "json" answer else Ok answer.

Section PostProcessor.

Context {W : Type} (P : Ports W).

(** The body of the [try]; [None] when it raises. *)
Definition parse_by_hint (answer format_hint : string) : option Answer :=
  if String.eqb format_hint "int" then
    match search_run is_digit answer with
    | Some digits => AnsInt <$> py_int digits
    | None => None
    end
  else if String.eqb format_hint "float" then
    match search_run is_digit_or_dot answer with
    | Some m => (fun x => AnsFloat (py_round2 x)) <$> py_float m
    | None => Some (AnsFloat (Finite 0))
    end
  else if contains "list[" format_hint then AnsJson <$> json_loads P answer
  else if contains "{" format_hint then AnsJson <$> json_loads P answer
  else Some (AnsStr answer).

Definition _parse_answer (answer format_hint : string) : Result Answer :=
  rbind (clean_answer answer) (fun answer =>
  match parse_by_hint answer format_hint with
  | Some v => Ok v
  | None =>
      match json_loads P answer with
      | Some j => Ok (AnsJson j)
      | None => Ok (AnsStr answer)
      end
  end).

End PostProcessor.

(** *** The shape of [sql_results] *)

(** The result of [_executor_node] on an empty query. *)
Definition noop_result : gmap string PyVal :=
  py_dict [("success", PyBool true); ("rows", PyRows []); ("columns", PyStrs [])].

(** [sql_results] as [_executor_node] leaves it. *)
Definition executed (d : gmap string PyVal) : Prop :=
  d = noop_result \/ exists o, d = SqliteTool.execute_query_result o.

(** "SQL execution succeeded and returned at least one row." *)
Definition succeeded_with_rows (d : gmap string PyVal) : bool :=
  match d !! "success", d !! "rows" with
  | Some ok, Some rows => truthy ok && truthy rows
  | _, _ => false
  end.

(** "SQL execution succeeded." *)
Definition succeeded (d : gmap string PyVal) : bool :=
  match d !! "success" with
  | Some ok => truthy ok
  | None => false
  end.

(** What the parser returns once the [try] has raised. *)
Definition fallback {W} (P : Ports W) (text : string) : Answer :=
  match json_loads P text with
  | Some j => AnsJson j
  | None => AnsStr text
  end.

(** *** json.dumps *)

Definition is_blob (v : SqlValue) : bool :=
  match v with SqlBlob _ => true | _ => false end.

(** Does [json.dumps(v)] return?  It raises [TypeError] on a [bytes]
    value, which is what sqlite3 gives for the value of a BLOB; the other
    values of a row and the names of its columns are serializable. *)
Definition json_serializable (v : PyVal) : bool :=
  match v with
  | PyRows l =>
      forallb (fun row => forallb (fun kv => negb (is_blob kv.2)) (map_to_list row)) l
  | _ => true
  end.

(** [sql_results] holds rows that [json.dumps] accepts. *)
Definition dumpable (d : gmap string PyVal) : bool :=
  match d !! "rows" with
  | Some rows => json_serializable rows
  | None => true
  end.

(** *** _extract_citations *)

Definition tables : list string :=
  ["Orders"; "Order Details"; "Products"; "Customers"; "Categories"; "Suppliers"].

Definition cited_docs (docs : list Doc) : list string :=
  map id (filter (fun doc => gt (score doc) (lit (1 # 10)) = true) docs).

Definition mentions (sql_upper table : string) : bool :=
  contains (upper table) sql_upper
  || contains (dquote +:+ upper table +:+ dquote) sql_upper.

Definition cited_tables (sql_text : string) : list string :=
  filter (fun table => mentions (upper sql_text) table = true) tables.

(** [list(set(citations))] removes the duplicates; Python does not fix the
    order of the result, [elements] stands for it. *)
Definition _extract_citations (st : AgentState) : Result (list string) :=
  let citations := cited_docs (retrieved_docs st) in
  rbind (getitem (sql_results st) "success") (fun ok =>
  let citations :=
    if truthy ok && negb (String.eqb (sql st) EmptyString)
    then citations ++ cited_tables (sql st)
    else citations in
  Ok (elements (list_to_set citations : gset string))).

(** The citations before [list(set(...))]. *)
Definition raw_citations (st : AgentState) : list string :=
  cited_docs (retrieved_docs st)
  ++ (if succeeded (sql_results st) && negb (String.eqb (sql st) EmptyString)
      then cited_tables (sql st) else []).

(** The citation list as the specification words it: no duplicates; the
    chunk identifiers are exactly those of the retrieved chunks whose
    similarity exceeds 0.1; anything else is one of the known table names,
    present exactly when the SQL is not empty, its execution succeeded and
    the name occurs in the upper-cased SQL; so without a successful
    execution only chunk identifiers are cited. *)
Definition cites_chunk (st : AgentState) (c : string) : Prop :=
  exists doc, doc ∈ retrieved_docs st /\ id doc = c /\ (lit (1 # 10) < score doc)%Q.

Definition cites_table (st : AgentState) (c : string) : Prop :=
  c ∈ tables /\ exists pre post, upper (sql st) = pre +:+ upper c +:+ post.

(** What the specification asks of a citation list: no duplicates; every
    retrieved chunk whose similarity exceeds 0.1 is cited; whatever else is
    cited is one of the known table names, and only when the SQL is not
    empty and its execution succeeded, so that without a successful
    execution exactly the chunks are cited.  Which tables are cited is
    fixed for an SQL text of ASCII characters: those whose name occurs in
    the upper-cased text. *)
Definition well_cited (st : AgentState) (cites : list string) : Prop :=
  NoDup cites
  /\ (forall c, cites_chunk st c -> c ∈ cites)
  /\ (forall c, c ∈ cites ->
        cites_chunk st c
        \/ (c ∈ tables /\ succeeded (sql_results st) = true
            /\ sql st <> EmptyString))
  /\ (succeeded (sql_results st) = false ->
      forall c, c ∈ cites <-> cites_chunk st c)
  /\ (ascii_text (sql st) ->
      forall c, c ∈ cites <->
        cites_chunk st c
        \/ (succeeded (sql_results st) = true /\ sql st <> EmptyString
            /\ cites_table st c)).

(** *** _calculate_confidence *)

(** [sum(scores)], from the left, starting at [0]: the plain sum of
    CPython up to 3.11 (later versions compensate the rounding errors of
    the partial sums). *)
Definition fsum (scores : list Q) : Q := foldl fadd 0%Q scores.

Definition _calculate_confidence (st : AgentState) : Result Q :=
  let confidence := lit (1 # 2) in
  rbind (getitem (sql_results st) "success") (fun ok =>
  rbind (if truthy ok then getitem (sql_results st) "rows" else Ok ok) (fun rows =>
  let confidence := if truthy rows then fadd confidence (lit (3 # 10))
                    else confidence in
  let confidence :=
    match retrieved_docs st with
    | [] => confidence
    | _ :: _ =>
        let avg_score := fdiv (fsum (map score (retrieved_docs st)))
                              (of_int (Z.of_nat (length (retrieved_docs st)))) in
        fadd confidence (fmul avg_score (lit (2 # 10)))
    end in
  let confidence := fsub confidence (fmul (of_int (repair_count st)) (lit (1 # 10))) in
  Ok (round2 (fmax 0 (fmin 1 confidence))))).

(** The score as the specification words it: start at 0.5; add 0.3 if SQL
    execution succeeded with at least one row (else 0); add the average of
    the retrieved scores times 0.2 when any chunk was retrieved (else 0);
    subtract 0.1 times the repair attempts; clamp to [0, 1]; round to two
    decimals. *)
Definition average (scores : list Q) : Q :=
  fdiv (fsum scores) (of_int (Z.of_nat (length scores))).

Definition confidence_formula (sql_with_rows : bool) (scores : list Q)
    (repairs : Z) : Q :=
  let sql_boost := if sql_with_rows then lit (3 # 10) else 0%Q in
  let retrieval_boost :=
    match scores with
    | [] => 0%Q
    | _ :: _ => fmul (average scores) (lit (2 # 10))
    end in
  let penalty := fmul (lit (1 # 10)) (of_int repairs) in
  round2 (clamp01 (fsub (fadd (fadd (lit (1 # 2)) sql_boost) retrieval_boost) penalty)).

(** *** The nodes *)

Inductive Node : Type :=
  | router | retriever | planner | nl_to_sql | executor | synthesizer | repair
  | END.

Section Workflow.

Context {W : Type} (P : Ports W) (self : HybridAgent).

Definition doc_context_of (docs : list Doc) : string :=
  join nl (map content docs).

(** Node 1 *)
Definition _route_node (st : AgentState) : M W AgentState :=
  (r <- Router_forward P (question st) ;;
   ret (append_trace (TrRouted r) (set_route r st)))%M.

(** Node 2 *)
Definition _retriever_node (st : AgentState) : M W AgentState :=
  (results <- lift (search (agent_retriever self) (question st) 3) ;;
   ret (append_trace (TrRetrieved (length results))
          (set_retrieved_docs results st)))%M.

(** Node 3 *)
Definition _planner_node (st : AgentState) : M W AgentState :=
  let doc_context := doc_context_of (retrieved_docs st) in
  let dates := count_matches date_pattern doc_context O in
  ret (append_trace (TrPlanner dates (route st)) st).

Definition _should_query_sql (st : AgentState) : string :=
  if bool_decide (route st ∈ ["sql"; "hybrid"]) then "sql" else "rag_only".

(** Node 4 *)
Definition _nl_to_sql_node (st : AgentState) : M W AgentState :=
  let doc_context := doc_context_of (retrieved_docs st) in
  (s <- NLToSQL_forward P (question st) (agent_schema self) doc_context ;;
   ret (append_trace (TrGenerated (take_chars 100 s)) (set_sql s st)))%M.

(** [self.db_tool.execute_query(sql)] *)
Definition execute_query (sql_text : string) : M W (gmap string PyVal) :=
  (o <- call (CallExecute sql_text) (sqlite P sql_text) ;;
   ret (SqliteTool.execute_query_result o))%M.

(** Node 5 *)
Definition _executor_node (st : AgentState) : M W AgentState :=
  if String.eqb (sql st) EmptyString then
    ret (set_sql_results
           (py_dict [("success", PyBool true); ("rows", PyRows []);
                     ("columns", PyStrs [])]) st)
  else
    (result <- execute_query (sql st) ;;
     let st := set_sql_results result st in
     ok <- lift (getitem result "success") ;;
     if truthy ok then
       rows <- lift (getitem result "rows") ;;
       n <- lift (py_len rows) ;;
       ret (append_trace (TrSqlSuccess n) st)
     else
       e <- lift (getitem result "error") ;;
       ret (append_trace (TrSqlError e) st))%M.

Definition _should_repair (st : AgentState) : Result string :=
  if 2 <=? repair_count st then Ok "synthesize"
  else
    rbind (getitem (sql_results st) "success") (fun ok =>
    if negb (truthy ok) then Ok "repair" else Ok "synthesize").

(** Node 7 *)
Definition _repair_node (st : AgentState) : M W AgentState :=
  let st := set_repair_count (repair_count st + 1) st in
  (e <- lift (getitem (sql_results st) "error") ;;
   fixed_sql <- SQLRepair_forward P (sql st) e (agent_schema self) ;;
   ret (append_trace (TrRepair (repair_count st) (take_chars 100 fixed_sql))
          (set_sql fixed_sql st)))%M.

(** Node 6 *)
Definition _synthesizer_node (st : AgentState) : M W AgentState :=
  let doc_context :=
    join nl (map (fun doc => id doc +:+ ": " +:+ content doc) (retrieved_docs st)) in
  (ok <- lift (getitem (sql_results st) "success") ;;
   sql_results_str <-
     (if truthy ok
      then rows <- lift (getitem (sql_results st) "rows") ;;
           if json_serializable rows then ret (json_dumps P rows)
           else raise TypeError
      else ret EmptyString) ;;
   result <- Synthesizer_forward P (question st) (format_hint st)
               doc_context sql_results_str ;;
   answer <- lift (_parse_answer P (fst result) (format_hint st)) ;;
   cites <- lift (_extract_citations st) ;;
   conf <- lift (_calculate_confidence st) ;;
   ret (append_trace (TrSynthesized answer)
          (set_outcome answer (snd result) cites conf st)))%M.

(** *** The graph of [_build_graph] *)

Definition run_node (n : Node) (st : AgentState) : M W AgentState :=
  match n with
  | router => _route_node st
  | retriever => _retriever_node st
  | planner => _planner_node st
  | nl_to_sql => _nl_to_sql_node st
  | executor => _executor_node st
  | synthesizer => _synthesizer_node st
  | repair => _repair_node st
  | END => ret st
  end.

(** The target of a conditional edge: the mapping at the returned label. *)
Fixpoint branch (label : string) (mapping : list (string * Node)) : Result Node :=
  match mapping with
  | [] => Raise (KeyError label)
  | (l, n) :: mapping' => if String.eqb l label then Ok n else branch label mapping'
  end.

Definition next_node (n : Node) (st : AgentState) : Result Node :=
  match n with
  | router => Ok retriever
  | retriever => Ok planner
  | planner =>
      branch (_should_query_sql st) [("sql", nl_to_sql); ("rag_only", synthesizer)]
  | nl_to_sql => Ok executor
  | executor =>
      rbind (_should_repair st) (fun label =>
      branch label [("repair", repair); ("synthesize", synthesizer)])
  | repair => Ok executor
  | synthesizer => Ok END
  | END => Ok END
  end.

(** One step of the compiled graph: run the node, then follow its edge. *)
Definition step (n : Node) (st : AgentState) : M W (Node * AgentState) :=
  (st' <- run_node n st ;;
   n' <- lift (next_node n st') ;;
   ret (n', st'))%M.

(** [self.graph.invoke]: steps until [END]; langgraph gives up with a
    [GraphRecursionError] after [limit] steps. *)
Fixpoint invoke (limit : nat) (n : Node) (st : AgentState) : M W AgentState :=
  match n with
  | END => ret st
  | _ =>
      match limit with
      | O => raise GraphRecursionError
      | S limit' =>
          (c <- step n st ;; invoke limit' (fst c) (snd c))%M
      end
  end.

Definition recursion_limit : nat := 25.

Definition initial_state (q hint : string) : AgentState :=
  {| question := q; format_hint := hint; route := EmptyString;
     retrieved_docs := []; sql := EmptyString; sql_results := ∅;
     final_answer := AnsNone; explanation := EmptyString; citations := [];
     confidence := 0%Q; repair_count := 0; trace := [] |}.

(** The dict that [run] returns. *)
Record RunResult := {
  res_final_answer : Answer;
  res_sql : string;
  res_confidence : Q;
  res_explanation : string;
  res_citations : list string;
  res_trace : list TraceEntry
}.

Definition run (q hint : string) : M W RunResult :=
  (final_state <- invoke recursion_limit router (initial_state q hint) ;;
   ret {| res_final_answer := final_answer final_state;
          res_sql := sql final_state;
          res_confidence := confidence final_state;
          res_explanation := explanation final_state;
          res_citations := citations final_state;
          res_trace := trace final_state |})%M.

(** *** Reachable configurations *)

(** A configuration: the node about to run, the state it will receive and
    the world. *)
Definition Config : Type := Node * AgentState * World W.

Inductive reachable (q hint : string) (w0 : World W) : Config -> Prop :=
  | reach_start : reachable q hint w0 (router, initial_state q hint, w0)
  | reach_step n st w n' st' w' :
      reachable q hint w0 (n, st, w) ->
      n <> END ->
      step n st w = (Ok (n', st'), w') ->
      reachable q hint w0 (n', st', w').

End Workflow.

(** *** The invariant of the graph *)

(** What holds of the state a node is about to receive. *)
Definition Inv (n : Node) (st : AgentState) : Prop :=
  0 <= repair_count st <= 2 /\
  match n with
  | router | retriever | planner => repair_count st = 0 /\ sql_results st = ∅
  | nl_to_sql => repair_count st = 0
  | executor => True
  | repair =>
      repair_count st < 2
      /\ exists msg, sql_results st
                     = SqliteTool.execute_query_result (SqliteTool.Failed msg)
  | synthesizer => executed (sql_results st) \/ sql_results st = ∅
  | END =>
      executed (sql_results st)
      /\ _calculate_confidence st = Ok (confidence st)
      /\ _extract_citations st = Ok (citations st)
  end.

End Graph.

(** * The rest of the code *)

From Stdlib Require Import DecimalString DecimalNat.

(** ** agent/rag/retrieval.py: loading the corpus *)

Module Loader.

Import Text Retrieval.

(** [s.endswith(suffix)] *)
Fixpoint endswith (suffix s : string) : bool :=
  String.eqb suffix s ||
  match s with
  | EmptyString => false
  | String _ s' => endswith suffix s'
  end.

(** How many characters of [s] satisfy [p]. *)
Fixpoint count_chars (p : ascii -> bool) (s : string) : nat :=
  match s with
  | EmptyString => O
  | String c s' => ((if p c then 1 else 0) + count_chars p s')%nat
  end.

(** Is [filename] one of the files that are loaded? *)
Definition is_markdown (filename : string) : Prop := endswith ".md" filename = true.

(** [s.replace(old, new)] for an [old] that is not empty: every occurrence
    of [old], found from the left without overlap, becomes [new]. *)
Definition replace (old new s : string) : string := join new (split old s).

(** [str(i)] for an index. *)
Definition str_of_nat (i : nat) : string := NilEmpty.string_of_uint (Nat.to_uint i).

Definition blank_line : string := nl +:+ nl.

(** [[p.strip() for p in content.split('\n\n') if p.strip()]] *)
Definition paragraphs (content : string) : list string :=
  filter (fun p => p <> EmptyString) (map strip (split blank_line content)).

Definition source_name_of (filename : string) : string :=
  replace ".md" EmptyString filename.

Definition chunk_id_of (source_name : string) (i : nat) : string :=
  source_name +:+ "::chunk" +:+ str_of_nat i.

(** [Chunk(chunk_id, para, source_name)] for the paragraph of index [i]. *)
Definition make_chunk (source_name : string) (i : nat) (para : string) : Chunk :=
  {| chunk_id := chunk_id_of source_name i;
     chunk_content := para;
     chunk_source := source_name |}.

(** The chunks of one markdown file. *)
Definition chunks_of_file (filename content : string) : list Chunk :=
  imap (make_chunk (source_name_of filename)) (paragraphs content).

(** The loop of [_load_documents] over the directory: [files] lists the
    names that [os.listdir] gives, in its order, each with the text read
    from the file. *)
Definition load_documents (files : list (string * string)) : list Chunk :=
  concat (map (fun f => if endswith ".md" (fst f)
                        then chunks_of_file (fst f) (snd f) else [])
              files).


(** The retriever that [Retriever.__init__] builds, when it returns.
    [tfidf corpus query] stands for
    [cosine_similarity(vectorizer.transform([query]),
    vectorizer.fit_transform(corpus))[0]], which scikit-learn computes;
    the vectors are built only when there is a chunk.  On a corpus in
    which it finds no word to index, [fit_transform] raises [ValueError]
    and there is no retriever: [Retriever_new] below has this case. *)
Definition Retriever_init (tfidf : list string -> string -> list Q)
    (files : list (string * string)) : Retriever :=
  let cs := load_documents files in
  {| chunks := cs;
     similarities := match cs with
                     | [] => fun _ => []
                     | _ :: _ => tfidf (map chunk_content cs)
                     end |}.

(** [Retriever.__init__] with its exception.  [vocabulary corpus] tells
    whether scikit-learn finds a word to index in the corpus, one of two
    characters or more that is not an English stop word; when it finds
    none, [fit_transform] raises [ValueError].  Nothing is fitted on a
    directory from which nothing is loaded. *)
Definition Retriever_new (vocabulary : list string -> bool)
    (tfidf : list string -> string -> list Q) (files : list (string * string))
    : Result Retriever :=
  match load_documents files with
  | [] => Ok (Retriever_init tfidf files)
  | c :: cs =>
      if vocabulary (map chunk_content (c :: cs)) then Ok (Retriever_init tfidf files)
      else Raise ValueError
  end.


End Loader.

(** ** agent/dspy_signatures.py: texts around a code fence *)

Module Fences.

Import Text.



End Fences.

(** ** Counting the calls of a run *)

Module Calls.

Definition is_route (c : Call) : bool :=
  match c with CallRoute _ => true | _ => false end.
Definition is_generate (c : Call) : bool :=
  match c with CallGenerateSQL _ _ _ => true | _ => false end.
Definition is_repair (c : Call) : bool :=
  match c with CallRepairSQL _ _ _ => true | _ => false end.
Definition is_synthesize (c : Call) : bool :=
  match c with CallSynthesize _ _ _ _ => true | _ => false end.
Definition is_execute (c : Call) : bool :=
  match c with CallExecute _ => true | _ => false end.

Definition count (p : Call -> bool) (l : list Call) : nat :=
  length (List.filter p l).

End Calls.

(** ** run_agent_hybrid.py: the batch loop *)

Module Batch.

Import Graph.

(** A record of the batch file that has an id and a question text; the
    format hint may be missing. *)
Record Question := {
  q_id : Json;
  q_question : string;
  q_format_hint : option string
}.

(** A line of the output file, before [json.dumps]. *)
Record Output := {
  out_id : Json;
  out_final_answer : Answer;
  out_sql : string;
  out_confidence : Q;
  out_explanation : string;
  out_citations : list string
}.

Section Loop.

Context {W : Type} (P : Ports W) (agent : HybridAgent).

(** [str(e)], which Python and langgraph define. *)
Variable str_exn : exn -> string.

(** The [try] around [agent.run] and the [except Exception] that saves
    the error case, the console apart: what the body of the loop does
    when the console prints every message ([body] below has the
    console). *)
Definition process (q : Question) (w : World W) : Output * World W :=
  match run P agent (q_question q) (default "str" (q_format_hint q)) w with
  | (Ok result, w') =>
      ({| out_id := q_id q;
          out_final_answer := res_final_answer result;
          out_sql := res_sql result;
          out_confidence := res_confidence result;
          out_explanation := res_explanation result;
          out_citations := res_citations result |}, w')
  | (Raise e, w') =>
      ({| out_id := q_id q;
          out_final_answer := AnsNone;
          out_sql := EmptyString;
          out_confidence := 0%Q;
          out_explanation := "Error: " +:+ str_exn e;
          out_citations := [] |}, w')
  end.

(** The loop over the questions; [written] is the output file so far, a
    line being appended after each question. *)
Fixpoint process_all (questions : list Question) (written : list Output)
    (w : World W) : list Output * World W :=
  match questions with
  | [] => (written, w)
  | q :: questions' =>
      let (line, w') := process q w in
      process_all questions' (written ++ [line]) w'
  end.

(** [main] from the point where the questions are loaded: the output
    file is emptied, then filled. *)
Definition process_batch (questions : list Question) (w : World W)
    : list Output * World W :=
  process_all questions [] w.

(** *** The console

    [console.print] reads its argument as Rich markup and raises
    [MarkupError] on a closing tag that matches no open tag, such as
    [[/INST]].  These are the messages of the loop, with the values that
    stand in them: the header (the number of the question and the number
    of questions), the question (its first 100 characters), the final
    answer, the time, the confidence, the first three citations, the path
    of the output file (the same in every message) and the text of an
    exception.  [console m] is the exception that [console.print] raises
    on the message, [None] when the message is printed. *)
Inductive Message : Type :=
  | MsgHeader (i n : nat)
  | MsgQuestion (head : string)
  | MsgAnswer (final_answer : Answer)
  | MsgTime
  | MsgConfidence (confidence : Q)
  | MsgCitations (first : list string)
  | MsgSaved
  | MsgError (e : exn).

Variable console : Message -> option exn.

(** Messages printed one after the other: the first exception ends them. *)
Fixpoint print_all (messages : list Message) : option exn :=
  match messages with
  | [] => None
  | m :: messages' =>
      match console m with
      | Some e => Some e
      | None => print_all messages'
      end
  end.

Definition result_line (q : Question) (result : RunResult) : Output :=
  {| out_id := q_id q;
     out_final_answer := res_final_answer result;
     out_sql := res_sql result;
     out_confidence := res_confidence result;
     out_explanation := res_explanation result;
     out_citations := res_citations result |}.

Definition error_line (q : Question) (e : exn) : Output :=
  {| out_id := q_id q;
     out_final_answer := AnsNone;
     out_sql := EmptyString;
     out_confidence := 0%Q;
     out_explanation := "Error: " +:+ str_exn e;
     out_citations := [] |}.

(** A line that answers question [q] within the ranges of the output
    contract. *)
Definition line_of (q : Question) (out : Output) : Prop :=
  out_id out = q_id q
  /\ (0 <= out_confidence out <= 1)%Q
  /\ NoDup (out_citations out).

(** The messages of the [try] that follow the write. *)
Definition report (result : RunResult) : option exn :=
  print_all [MsgAnswer (res_final_answer result);
             MsgTime;
             MsgConfidence (res_confidence result);
             MsgCitations (take 3 (res_citations result));
             MsgSaved].

(** [except Exception as e]: the message, then the error line.  An
    exception of the message leaves [main]. *)
Definition on_exception (q : Question) (e : exn) (written : list Output)
    : list Output * option exn :=
  match console (MsgError e) with
  | None => (written ++ [error_line q e], None)
  | Some e' => (written, Some e')
  end.

(** The body of the loop for question number [i] of [n], on the output
    file so far: the file and the world after it, and the exception that
    leaves [main], if any.  The header and the question are printed before
    the [try]; the line of the result is written before the answer is
    printed. *)
Definition body (i n : nat) (q : Question) (written : list Output) (w : World W)
    : (list Output * World W) * option exn :=
  match print_all [MsgHeader i n; MsgQuestion (Text.take_chars 100 (q_question q))] with
  | Some e => ((written, w), Some e)
  | None =>
      match run P agent (q_question q) (default "str" (q_format_hint q)) w with
      | (Ok result, w') =>
          let written' := written ++ [result_line q result] in
          match report result with
          | None => ((written', w'), None)
          | Some e =>
              let (lines, raised) := on_exception q e written' in
              ((lines, w'), raised)
          end
      | (Raise e, w') =>
          let (lines, raised) := on_exception q e written in
          ((lines, w'), raised)
      end
  end.

(** The loop of [main] from question number [i], until an exception
    leaves it.  The output file can be written, and the loop is not
    interrupted from the keyboard. *)
Fixpoint main_loop (i n : nat) (questions : list Question) (written : list Output)
    (w : World W) : (list Output * World W) * option exn :=
  match questions with
  | [] => ((written, w), None)
  | q :: questions' =>
      match body i n q written w with
      | (r, Some e) => (r, Some e)
      | ((written', w'), None) => main_loop (S i) n questions' written' w'
      end
  end.

(** [main] from the point where the output file is emptied to the end of
    the loop, the console included: [enumerate(questions, 1)] on the empty
    file.  The message that follows the loop does not change the file. *)
Definition main_batch (questions : list Question) (w : World W)
    : (list Output * World W) * option exn :=
  main_loop 1 (length questions) questions [] w.

End Loop.

End Batch.

(** ** optimize_nl_to_sql.py: the evaluation of the SQL generator *)

Module Optimize.

Import Text PyFloat Signatures Graph.

(** What [evaluate_sql_module] gives: the two rates, or the exception of
    the division. *)
Inductive Evaluation : Type :=
  | Rates (valid_sql_rate exec_success_rate : Q)
  | ZeroDivisionError.

Section Evaluate.

Context {W : Type} (P : Ports W) (schema : string).

(** The body of the loop for one example, on the two counters: any
    exception leaves them as they are at that point. *)
Definition evaluate_one (question : string) (counts : Z * Z) (w : World W)
    : (Z * Z) * World W :=
  let (valid_count, exec_success_count) := counts in
  match NLToSQL_forward P question schema EmptyString w with
  | (Raise _, w1) => ((valid_count, exec_success_count), w1)
  | (Ok sql_text, w1) =>
      if negb (String.eqb sql_text EmptyString) && contains "SELECT" (upper sql_text)
      then
        let valid_count := valid_count + 1 in
        match execute_query P sql_text w1 with
        | (Raise _, w2) => ((valid_count, exec_success_count), w2)
        | (Ok result, w2) =>
            match getitem result "success" with
            | Raise _ => ((valid_count, exec_success_count), w2)
            | Ok ok =>
                if truthy ok
                then ((valid_count, exec_success_count + 1), w2)
                else ((valid_count, exec_success_count), w2)
            end
        end
      else ((valid_count, exec_success_count), w1)
  end.

Fixpoint evaluate_loop (questions : list string) (counts : Z * Z) (w : World W)
    : (Z * Z) * World W :=
  match questions with
  | [] => (counts, w)
  | question :: questions' =>
      let (counts', w') := evaluate_one question counts w in
      evaluate_loop questions' counts' w'
  end.

(** [a / b] on two ints: the quotient, correctly rounded. *)
Definition int_div (a b : Z) : Q := b64 (inject_Z a / inject_Z b).

(** [evaluate_sql_module(module, db_tool, schema, examples)], on the
    questions of the examples. *)
Definition evaluate_sql_module (questions : list string) (w : World W)
    : Evaluation * World W :=
  let (counts, w') := evaluate_loop questions (0, 0) w in
  let total := Z.of_nat (length questions) in
  if total =? 0 then (ZeroDivisionError, w')
  else (Rates (int_div (fst counts) total) (int_div (snd counts) total), w').

End Evaluate.

End Optimize.

(** ** agent/graph_hybrid.py: the length and the calls of a run *)

Module Orchestration.

Import Graph Calls.

(** How many steps the graph of [_build_graph] can still take from a
    node: the straight path to the synthesizer, and two steps for each
    repair that the counter still allows. *)
Definition steps_left (n : Node) (st : AgentState) : nat :=
  let repairs_left := Z.to_nat (2 - repair_count st) in
  match n with
  | router => 10
  | retriever => 9
  | planner => 8
  | nl_to_sql => 7
  | executor => 2 + 2 * repairs_left
  | repair => 1 + 2 * repairs_left
  | synthesizer => 1
  | END => 0
  end.

(** [sql_results] as the executor leaves it with the database of the
    ports. *)
Definition fetched_by {W} (P : Ports W) (d : gmap string PyVal) : Prop :=
  d = noop_result
  \/ exists sql_text o,
       d = SqliteTool.execute_query_result (fst (sqlite P sql_text o)).

(** The database has given no BLOB value. *)
Definition blob_free (o : SqliteTool.Outcome) : bool :=
  match o with
  | SqliteTool.Fetched _ rows => forallb (forallb (fun v => negb (is_blob v))) rows
  | SqliteTool.Failed _ => true
  end.

(** The state a node receives in a run whose route is [sql] or [hybrid]:
    the invariant of the graph, the route while the planner has not
    branched on it, and a result of the executor at the synthesizer. *)
Definition on_sql_path {W} (P : Ports W) (n : Node) (st : AgentState) : Prop :=
  Inv n st /\
  match n with
  | retriever | planner => route st = "sql" \/ route st = "hybrid"
  | synthesizer => fetched_by P (sql_results st)
  | _ => True
  end.



(** The calls that a node makes on a state. *)
Definition node_calls (self : HybridAgent) (n : Node) (st : AgentState)
    (made : list Call) : Prop :=
  match n with
  | router => made = [CallRoute (question st)]
  | nl_to_sql =>
      made = [CallGenerateSQL (question st) (agent_schema self)
                (doc_context_of (retrieved_docs st))]
  | executor =>
      made = if String.eqb (sql st) EmptyString then [] else [CallExecute (sql st)]
  | repair =>
      exists e, getitem (sql_results st) "error" = Ok e
                /\ made = [CallRepairSQL (sql st) e (agent_schema self)]
  | synthesizer =>
      exists doc_context sql_results_str,
        made = [CallSynthesize (question st) (format_hint st)
                  doc_context sql_results_str]
  | retriever | planner | END => made = []
  end.

(** The calls of a run so far, by kind, when a node is about to run. *)
Definition ledger (n : Node) (st : AgentState) (made : list Call) : Prop :=
  count is_route made = (if n is router then 0 else 1)%nat
  /\ count is_synthesize made = (if n is END then 1 else 0)%nat
  /\ Z.of_nat (count is_repair made) = repair_count st
  /\ match n with
     | router | retriever | planner | nl_to_sql =>
         count is_generate made = 0%nat /\ count is_execute made = 0%nat
     | executor =>
         count is_generate made = 1%nat
         /\ (count is_execute made <= count is_repair made)%nat
     | repair | END =>
         count is_generate made = 1%nat
         /\ (count is_execute made <= count is_repair made + 1)%nat
     | synthesizer =>
         (count is_generate made = 1%nat
          /\ (count is_execute made <= count is_repair made + 1)%nat)
         \/ sql_results st = ∅
     end.


End Orchestration.

(** * Concrete scenarios

    The inputs at which the properties below are exercised. *)

Module Scenarios.

Import Retrieval.

Definition chunk0 : Chunk :=
  {| chunk_id := "policy::chunk0"; chunk_content := "Returns within 30 days";
     chunk_source := "policy" |}.

Definition chunk1 : Chunk :=
  {| chunk_id := "policy::chunk1"; chunk_content := "Refunds within 14 days";
     chunk_source := "policy" |}.

(** Two chunks that every query matches equally well. *)
Definition tie_retriever : Retriever :=
  {| chunks := [chunk0; chunk1];
     similarities := fun _ => [1 # 2; 1 # 2]%Q |}.

(** An index sort that is not stable: it leaves equal similarities in
    descending index order. *)
Fixpoint insert_after (sims : list Q) (i : nat) (l : list nat) : list nat :=
  match l with
  | [] => [i]
  | j :: l' =>
      if Qle_bool (key sims j) (key sims i) then j :: insert_after sims i l'
      else i :: l
  end.

Definition argsort_unstable (sims : list Q) : list nat :=
  foldr (insert_after sims) [] (seq 0 (length sims)).

(** Four chunks, the last two of which match the query equally. *)
Definition four_sims : list Q := [619 # 1000; 1; 0; 0]%Q.

Definition doc0 : Doc :=
  {| id := "policy::chunk0"; content := "Returns within 30 days";
     source := "policy"; score := 1 # 2 |}.

Definition doc1 : Doc :=
  {| id := "policy::chunk1"; content := "Refunds within 14 days";
     source := "policy"; score := 1 # 2 |}.

Definition empty_retriever : Retriever :=
  {| chunks := []; similarities := fun _ => [] |}.

(** One chunk, which every query matches with similarity 0.9. *)
Definition one_retriever : Retriever :=
  {| chunks := [chunk0];
     similarities := fun _ => [PyFloat.lit (9 # 10)] |}.

(** Ports that answer every call alike: the route label, the generated and
    the repaired SQL, what sqlite3 does with a query, and the synthesized
    answer.  The json module is left unable to parse anything. *)
Definition scripted (route_label generated repaired : string)
    (db : string -> SqliteTool.Outcome) (answer : string) : Ports unit :=
  {| lm_route := fun _ w => (route_label, w);
     lm_generate := fun _ _ _ w => (generated, w);
     lm_repair := fun _ _ _ w => (repaired, w);
     lm_synth := fun _ _ _ _ w => ((answer, "From the evidence."), w);
     sqlite := fun q w => (db q, w);
     json_dumps := fun _ => "[]";
     json_loads := fun _ => None |}.

Definition no_such_table (_ : string) : SqliteTool.Outcome :=
  SqliteTool.Failed "no such table: Orderz".

Definition one_order (_ : string) : SqliteTool.Outcome :=
  SqliteTool.Fetched (Some ["OrderID"]) [[SqlInt 10248]].

(** The model routes to documents only. *)
Definition rag_ports : Ports unit :=
  scripted "rag" "SELECT 1" "SELECT 1" one_order "14 days".

(** The model writes SQL that never executes. *)
Definition failing_ports : Ports unit :=
  scripted "sql" "SELECT * FROM Orderz" "SELECT * FROM Orderz" no_such_table "unknown".

(** The model writes SQL that executes and returns a row. *)
Definition working_ports : Ports unit :=
  scripted "hybrid" "SELECT * FROM Orders" "SELECT * FROM Orders" one_order
           "The answer is 42 units".

Definition start : World unit := {| outside := tt; calls := [] |}.

Definition tie_agent : Graph.HybridAgent :=
  {| Graph.agent_retriever := tie_retriever; Graph.agent_schema := "Orders(OrderID INTEGER)" |}.

Definition empty_agent : Graph.HybridAgent :=
  {| Graph.agent_retriever := empty_retriever;
     Graph.agent_schema := "Orders(OrderID INTEGER)" |}.

Definition one_agent : Graph.HybridAgent :=
  {| Graph.agent_retriever := one_retriever;
     Graph.agent_schema := "Orders(OrderID INTEGER)" |}.

(** The state and the world at the end of each of the two runs that
    reach the end of the graph. *)
Definition final_of (r : Result Graph.AgentState * World unit) : Graph.AgentState :=
  match r with
  | (Ok st, _) => st
  | (Raise _, _) => Graph.initial_state EmptyString EmptyString
  end.

Definition working_run : Result Graph.AgentState * World unit :=
  Eval vm_compute in
    Graph.invoke working_ports one_agent Graph.recursion_limit Graph.router
      (Graph.initial_state "How many orders?" "int") start.

Definition working_final : Graph.AgentState := Eval vm_compute in final_of working_run.
Definition working_world : World unit := Eval vm_compute in snd working_run.

Definition failing_run : Result Graph.AgentState * World unit :=
  Eval vm_compute in
    Graph.invoke failing_ports empty_agent Graph.recursion_limit Graph.router
      (Graph.initial_state "How many orders?" "int") start.

Definition failing_final : Graph.AgentState := Eval vm_compute in final_of failing_run.
Definition failing_world : World unit := Eval vm_compute in snd failing_run.

End Scenarios.

(** * Concrete scenarios for the rest of the code *)

Module MoreScenarios.

Import Retrieval Loader.

(** A directory with one markdown file of three paragraphs and one file
    that is not markdown. *)
Definition kpi_text : string :=
  "# KPIs" +:+ nl +:+ nl +:+ "  AOV is revenue / orders " +:+ nl +:+ nl
  +:+ nl +:+ nl +:+ "Margin" +:+ nl.

Definition docs_dir : list (string * string) :=
  [("kpi.md", kpi_text); ("readme.txt", "not loaded")].

(** A scorer that finds every document equally similar to every query. *)
Definition flat_tfidf (corpus : list string) (_ : string) : list Q :=
  map (fun _ => (1 # 2)%Q) corpus.

(** What [run] returns in the scenario where the SQL executes. *)
Definition result_of (r : Result Graph.RunResult * World unit) : Graph.RunResult :=
  match r with
  | (Ok res, _) => res
  | (Raise _, _) =>
      {| Graph.res_final_answer := AnsNone; Graph.res_sql := EmptyString;
         Graph.res_confidence := 0%Q; Graph.res_explanation := EmptyString;
         Graph.res_citations := []; Graph.res_trace := [] |}
  end.


Definition failing_result : Graph.RunResult :=
  Eval vm_compute in
    result_of (Graph.run Scenarios.failing_ports Scenarios.empty_agent
                 "How many orders?" "int" Scenarios.start).

(** A batch of two questions, put to the agent whose SQL never executes;
    [str(e)] is not looked at. *)
Definition two_questions : list Batch.Question :=
  [{| Batch.q_id := JStr "q1"; Batch.q_question := "How many orders?";
      Batch.q_format_hint := Some "int" |};
   {| Batch.q_id := JStr "q2"; Batch.q_question := "Which category sells best?";
      Batch.q_format_hint := None |}].

Definition no_text (_ : exn) : string := "error".

Definition two_lines : list Batch.Output :=
  Eval vm_compute in
    fst (Batch.process_batch Scenarios.failing_ports Scenarios.empty_agent no_text
           two_questions Scenarios.start).




(** A console that prints every message. *)
Definition quiet_console (_ : Batch.Message) : option exn := None.

(** A console that finds a closing tag without its opening tag in an
    answer that holds one, and in the text of the exception, which quotes
    the tag. *)
Definition markup_console (m : Batch.Message) : option exn :=
  match m with
  | Batch.MsgAnswer (AnsStr s) =>
      if Text.contains "[/" s then Some MarkupError else None
  | Batch.MsgError MarkupError => Some MarkupError
  | _ => None
  end.

(** The model ends its answer with the tag of its prompt format. *)
Definition tagged_ports : Ports unit :=
  Scenarios.scripted "sql" "SELECT COUNT(*) FROM Orders" "SELECT COUNT(*) FROM Orders"
    Scenarios.one_order "830 orders [/INST]".

Definition text_questions : list Batch.Question :=
  [{| Batch.q_id := JStr "q1"; Batch.q_question := "Which category sells best?";
      Batch.q_format_hint := None |};
   {| Batch.q_id := JStr "q2"; Batch.q_question := "How many orders?";
      Batch.q_format_hint := Some "int" |}].

(** A database that holds a picture. *)
Definition one_picture (_ : string) : SqliteTool.Outcome :=
  SqliteTool.Fetched (Some ["Picture"]) [[SqlBlob "GIF89a"]].

Definition picture_ports : Ports unit :=
  Scenarios.scripted "sql" "SELECT Picture FROM Categories"
    "SELECT Picture FROM Categories" one_picture "a picture".

End MoreScenarios.

(** * Properties *)

(** ** The document ranker *)

Module RetrievalFacts.

Import Retrieval.

Lemma rmap_ok {A B} (f : A -> Result B) (g : A -> B) (l : list A) :
  (forall a, a ∈ l -> f a = Ok (g a)) -> rmap f l = Ok (map g l).
Proof.
  induction l as [|a l IH]; intros Hf; [reflexivity|].
  simpl. rewrite Hf by left. simpl.
  rewrite IH; [reflexivity|]. intros b Hb. apply Hf. by right.
Qed.

Lemma rmap_Forall2 {A B} (f : A -> Result B) (l : list A) (bs : list B) :
  rmap f l = Ok bs -> Forall2 (fun a b => f a = Ok b) l bs.
Proof.
  revert bs. induction l as [|a l IH]; intros bs H; simpl in H.
  - inversion H. constructor.
  - destruct (f a) as [b|e] eqn:Ha; simpl in H; [|discriminate].
    destruct (rmap f l) as [bs'|e] eqn:Hl; simpl in H; [|discriminate].
    inversion H; subst. constructor; auto.
Qed.

(** *** [argsort] sorts, and keeps equal similarities in index order *)

Lemma insert_by_perm sims i l : insert_by sims i l ≡ₚ i :: l.
Proof.
  induction l as [|j l IH]; simpl; [done|].
  destruct (Qle_bool _ _); [done|].
  rewrite IH. apply Permutation_swap.
Qed.

Lemma insert_all_perm sims l : foldr (insert_by sims) [] l ≡ₚ l.
Proof.
  induction l as [|i l IH]; simpl; [done|].
  rewrite insert_by_perm. by rewrite IH.
Qed.

Lemma argsort_perm sims : argsort sims ≡ₚ seq 0 (length sims).
Proof. apply insert_all_perm. Qed.

Lemma argsort_length sims : length (argsort sims) = length sims.
Proof. rewrite argsort_perm. apply length_seq. Qed.

Lemma ranks_before_trans sims i j k :
  ranks_before sims i j -> ranks_before sims j k -> ranks_before sims i k.
Proof.
  unfold ranks_before. intros [H1|[H1 L1]] [H2|[H2 L2]].
  - left. lra.
  - left. lra.
  - left. lra.
  - right. split; [lra | lia].
Qed.

Lemma insert_by_sorted sims i l :
  StronglySorted (ranks_before sims) l ->
  Forall (fun j => (i < j)%nat) l ->
  StronglySorted (ranks_before sims) (insert_by sims i l).
Proof.
  induction l as [|j l IH]; intros Hs Hlt; simpl.
  - repeat constructor.
  - apply StronglySorted_cons in Hs as [Hj Hs].
    apply Forall_cons in Hlt as [Hij Hlt].
    destruct (Qle_bool (key sims i) (key sims j)) eqn:Hle.
    + apply Qle_bool_iff in Hle.
      assert (Hi : ranks_before sims i j).
      { destruct (Qlt_le_dec (key sims i) (key sims j)) as [Hlt'|Hge].
        - by left.
        - right. split; [lra | done]. }
      apply StronglySorted_cons. split.
      * constructor; [done|].
        eapply Forall_impl; [exact Hj|].
        intros k Hk. eapply ranks_before_trans; eauto.
      * apply StronglySorted_cons. done.
    + assert (Hji : ranks_before sims j i).
      { left. apply Qnot_le_lt. intros Hc. apply Qle_bool_iff in Hc. congruence. }
      apply StronglySorted_cons. split.
      * rewrite insert_by_perm. constructor; done.
      * apply IH; done.
Qed.

Lemma insert_all_sorted sims start n :
  StronglySorted (ranks_before sims) (foldr (insert_by sims) [] (seq start n)).
Proof.
  revert start. induction n as [|n IH]; intros start; simpl.
  - constructor.
  - apply insert_by_sorted; [apply IH|].
    rewrite insert_all_perm. apply Forall_forall.
    intros j Hj. apply elem_of_seq in Hj. lia.
Qed.

Lemma argsort_sorted sims : StronglySorted (ranks_before sims) (argsort sims).
Proof. apply insert_all_sorted. Qed.

Lemma argsort_NoDup sims : NoDup (argsort sims).
Proof. rewrite argsort_perm. apply NoDup_seq. Qed.

Lemma argsort_bound sims i : i ∈ argsort sims <-> (i < length sims)%nat.
Proof. rewrite argsort_perm, elem_of_seq. lia. Qed.

(** *** The slice and the reversal *)

Lemma slice_from_drop {A} (a : list A) top_k :
  slice_from (- top_k) a = drop (skipped (length a) top_k) a.
Proof.
  unfold slice_from, skipped.
  replace (Z.of_nat (length a) + - top_k) with (Z.of_nat (length a) - top_k) by lia.
  reflexivity.
Qed.

Lemma skipped_count n top_k : (n - skipped n top_k)%nat = top_count n top_k.
Proof.
  unfold skipped, top_count.
  destruct (Z.ltb_spec (- top_k) 0), (Z.eqb_spec top_k 0), (Z.ltb_spec 0 top_k); lia.
Qed.

Lemma top_indices_length sims top_k :
  length (top_indices sims top_k) = top_count (length sims) top_k.
Proof.
  unfold top_indices, top_indices_by. rewrite length_reverse, slice_from_drop, length_drop.
  rewrite argsort_length. apply skipped_count.
Qed.

Lemma top_indices_split sims top_k :
  argsort sims =
    take (skipped (length sims) top_k) (argsort sims)
    ++ reverse (top_indices sims top_k).
Proof.
  unfold top_indices, top_indices_by. rewrite reverse_involutive, slice_from_drop.
  rewrite argsort_length. symmetry. apply take_drop.
Qed.

Lemma top_indices_bound sims top_k i :
  i ∈ top_indices sims top_k -> (i < length sims)%nat.
Proof.
  intros Hi. apply argsort_bound. rewrite (top_indices_split sims top_k).
  apply elem_of_app. right. by rewrite elem_of_reverse.
Qed.

Lemma top_indices_NoDup sims top_k : NoDup (top_indices sims top_k).
Proof.
  pose proof (argsort_NoDup sims) as H.
  rewrite (top_indices_split sims top_k) in H.
  apply NoDup_app in H as (_ & _ & H).
  eapply NoDup_Permutation_proper; [|exact H]. by rewrite reverse_Permutation.
Qed.

Lemma StronglySorted_reverse {A} (R : relation A) (l : list A) :
  StronglySorted R l -> StronglySorted (flip R) (reverse l).
Proof.
  induction 1 as [|x l Hs IH Hx]; [constructor|].
  rewrite reverse_cons. apply StronglySorted_app. split_and!.
  - intros a b Ha Hb. apply list_elem_of_singleton in Hb as ->.
    rewrite elem_of_reverse in Ha. unfold flip.
    exact (proj1 (Forall_forall _ _) Hx a Ha).
  - done.
  - repeat constructor.
Qed.

Lemma top_indices_sorted sims top_k :
  StronglySorted (flip (ranks_before sims)) (top_indices sims top_k).
Proof.
  pose proof (argsort_sorted sims) as H.
  rewrite (top_indices_split sims top_k) in H.
  apply StronglySorted_app_1_r in H.
  apply StronglySorted_reverse in H. by rewrite reverse_involutive in H.
Qed.


(** *** Whatever order the index sort leaves ties in

    The count, the absence of repetitions, the choice of the highest
    similarities and their non-increasing order need only that the index
    array is a permutation of the indices in ascending order of
    similarity: they do not depend on where equal similarities are put. *)

Section AnyIndexSort.

Variable sims : list Q.
Variable sorted_indices : list nat.
Hypothesis indices_perm : sorted_indices ≡ₚ seq 0 (length sims).
Hypothesis indices_ascending :
  StronglySorted (fun i j => (key sims i <= key sims j)%Q) sorted_indices.

Let top (top_k : Z) : list nat := reverse (slice_from (- top_k) sorted_indices).

Lemma any_sort_indices_length : length sorted_indices = length sims.
Proof. rewrite indices_perm. apply length_seq. Qed.

Lemma any_sort_split top_k :
  sorted_indices
  = take (skipped (length sims) top_k) sorted_indices ++ reverse (top top_k).
Proof.
  unfold top. rewrite reverse_involutive, slice_from_drop.
  rewrite any_sort_indices_length. symmetry. apply take_drop.
Qed.

Lemma any_sort_length top_k :
  length (top top_k) = top_count (length sims) top_k.
Proof.
  unfold top. rewrite length_reverse, slice_from_drop, length_drop.
  rewrite any_sort_indices_length. apply skipped_count.
Qed.

Lemma any_sort_NoDup top_k : NoDup (top top_k).
Proof.
  assert (H : NoDup sorted_indices) by (rewrite indices_perm; apply NoDup_seq).
  rewrite (any_sort_split top_k) in H.
  apply NoDup_app in H as (_ & _ & H).
  eapply NoDup_Permutation_proper; [|exact H]. by rewrite reverse_Permutation.
Qed.

Lemma any_sort_descending top_k :
  StronglySorted (fun i j => (key sims j <= key sims i)%Q) (top top_k).
Proof.
  pose proof indices_ascending as H.
  rewrite (any_sort_split top_k) in H.
  apply StronglySorted_app_1_r in H.
  apply StronglySorted_reverse in H. by rewrite reverse_involutive in H.
Qed.

Lemma any_sort_highest top_k i j :
  i ∈ top top_k -> (j < length sims)%nat -> j ∉ top top_k ->
  (key sims j <= key sims i)%Q.
Proof.
  intros Hi Hj Hnj.
  assert (Hin : j ∈ sorted_indices).
  { rewrite indices_perm, elem_of_seq. lia. }
  pose proof indices_ascending as Hs.
  rewrite (any_sort_split top_k) in Hs, Hin.
  apply elem_of_app in Hin as [Hin|Hin]; [|by rewrite elem_of_reverse in Hin].
  rewrite <- elem_of_reverse in Hi.
  exact (StronglySorted_app_1_elem_of _ _ _ _ _ Hs Hin Hi).
Qed.

End AnyIndexSort.

Lemma result_at_ok r query idx :
  loaded r -> (idx < length (chunks r))%nat ->
  exists chunk s,
    chunks r !! idx = Some chunk /\ similarities r query !! idx = Some s /\
    result_at r (similarities r query) idx =
      Ok {| id := chunk_id chunk; content := chunk_content chunk;
            source := chunk_source chunk; score := s |}.
Proof.
  intros Hl Hidx.
  destruct (lookup_lt_is_Some_2 (chunks r) idx Hidx) as [chunk Hc].
  destruct (lookup_lt_is_Some_2 (similarities r query) idx) as [s Hs].
  { by rewrite Hl. }
  exists chunk, s. split_and!; [done..|].
  unfold result_at, list_get. rewrite Hc, Hs. reflexivity.
Qed.

Lemma search_ok r query top_k :
  loaded r ->
  exists docs,
    search r query top_k = Ok docs /\
    Forall2 (fun idx doc => result_at r (similarities r query) idx = Ok doc)
            (top_indices (similarities r query) top_k) docs.
Proof.
  intros Hl. unfold search, search_by.
  destruct (chunks r) as [|c cs] eqn:Hc.
  - exists []. split; [done|].
    assert (Hnil : top_indices (similarities r query) top_k = []).
    { apply length_zero_iff_nil. rewrite top_indices_length, Hl, Hc.
      unfold top_count. simpl. destruct (top_k =? 0), (0 <? top_k); lia. }
    rewrite Hnil. constructor.
  - set (sims := similarities r query).
    set (dflt := {| id := EmptyString; content := EmptyString;
                    source := EmptyString; score := 0%Q |}).
    set (g := fun idx => match result_at r sims idx with
                         | Ok d => d | Raise _ => dflt end).
    assert (Hg : forall idx, idx ∈ top_indices sims top_k ->
                             result_at r sims idx = Ok (g idx)).
    { intros idx Hidx. apply top_indices_bound in Hidx.
      destruct (result_at_ok r query idx Hl) as (ch & s & _ & _ & Hr).
      - by rewrite <- (Hl query).
      - unfold g. fold sims in Hr. by rewrite Hr. }
    exists (map g (top_indices sims top_k)). split.
    + by apply rmap_ok.
    + apply rmap_Forall2. by apply rmap_ok.
Qed.

Lemma result_at_score r sims idx doc :
  result_at r sims idx = Ok doc -> score doc = key sims idx.
Proof.
  unfold result_at, list_get, key.
  destruct (chunks r !! idx); simpl; [|discriminate].
  destruct (sims !! idx); simpl; [|discriminate].
  intros [= <-]. reflexivity.
Qed.

Lemma results_sorted r sims idxs docs :
  Forall2 (fun idx doc => result_at r sims idx = Ok doc) idxs docs ->
  StronglySorted (flip (ranks_before sims)) idxs ->
  StronglySorted (fun d1 d2 => (score d2 <= score d1)%Q) docs.
Proof.
  induction 1 as [|idx doc idxs docs Hr HF IH]; intros Hs; [constructor|].
  apply StronglySorted_cons in Hs as [Hhd Hs].
  apply StronglySorted_cons. split; [|auto].
  clear IH Hs. induction HF as [|i d il dl Hi HF IH]; [constructor|].
  apply Forall_cons in Hhd as [Hh Hhd].
  constructor; [|auto].
  rewrite (result_at_score _ _ _ _ Hr), (result_at_score _ _ _ _ Hi).
  destruct Hh as [Hh|[Hh _]]; lra.
Qed.

Import Scenarios.

(** *** Whatever index sort numpy runs *)

Lemma StronglySorted_weaken {A} (R R' : relation A) (l : list A) :
  (forall a b, R a b -> R' a b) -> StronglySorted R l -> StronglySorted R' l.
Proof.
  intros HR. induction 1 as [|x l Hs IH Hx]; constructor; [done|].
  eapply Forall_impl; [exact Hx|]. intros b. apply HR.
Qed.

Lemma argsort_index_sort : index_sort argsort.
Proof.
  intros sims. split; [apply argsort_perm|].
  eapply StronglySorted_weaken; [|apply argsort_sorted].
  intros i j [H|[H _]]; lra.
Qed.

Lemma insert_after_perm sims i l : insert_after sims i l ≡ₚ i :: l.
Proof.
  induction l as [|j l IH]; simpl; [done|].
  destruct (Qle_bool _ _); [|done].
  rewrite IH. apply Permutation_swap.
Qed.

Lemma insert_after_sorted sims i l :
  StronglySorted (fun a b => (key sims a <= key sims b)%Q) l ->
  StronglySorted (fun a b => (key sims a <= key sims b)%Q) (insert_after sims i l).
Proof.
  induction l as [|j l IH]; intros Hs; simpl.
  - repeat constructor.
  - apply StronglySorted_cons in Hs as [Hj Hs].
    destruct (Qle_bool (key sims j) (key sims i)) eqn:Hle.
    + apply Qle_bool_iff in Hle. apply StronglySorted_cons. split.
      * rewrite insert_after_perm. constructor; done.
      * by apply IH.
    + assert (Hlt : (key sims i < key sims j)%Q).
      { apply Qnot_le_lt. intros Hc. apply Qle_bool_iff in Hc. congruence. }
      apply StronglySorted_cons. split.
      * constructor; [lra|].
        eapply Forall_impl; [exact Hj|]. intros k Hk. simpl in Hk. lra.
      * by apply StronglySorted_cons.
Qed.

Lemma argsort_unstable_index_sort : index_sort argsort_unstable.
Proof.
  intros sims. unfold argsort_unstable. split.
  - generalize (seq 0 (length sims)). intros l.
    induction l as [|i l IH]; simpl; [done|].
    by rewrite insert_after_perm, IH.
  - generalize (seq 0 (length sims)). intros l.
    induction l as [|i l IH]; simpl; [constructor|].
    by apply insert_after_sorted.
Qed.

Lemma top_indices_by_bound sort sims top_k i :
  index_sort sort -> i ∈ top_indices_by sort sims top_k -> (i < length sims)%nat.
Proof.
  intros Hsort Hi. destruct (Hsort sims) as [Hperm Hasc].
  assert (Hin : i ∈ sort sims).
  { rewrite (any_sort_split sims (sort sims) Hperm top_k).
    apply elem_of_app. right. by rewrite elem_of_reverse. }
  rewrite Hperm, elem_of_seq in Hin. lia.
Qed.

Lemma search_by_ok sort r query top_k :
  index_sort sort -> loaded r ->
  exists docs,
    search_by sort r query top_k = Ok docs /\
    Forall2 (fun idx doc => result_at r (similarities r query) idx = Ok doc)
            (top_indices_by sort (similarities r query) top_k) docs.
Proof.
  intros Hsort Hl. unfold search_by.
  destruct (Hsort (similarities r query)) as [Hperm Hasc].
  destruct (chunks r) as [|c cs] eqn:Hc.
  - exists []. split; [done|].
    assert (Hnil : top_indices_by sort (similarities r query) top_k = []).
    { apply length_zero_iff_nil. unfold top_indices_by.
      rewrite (any_sort_length _ _ Hperm), Hl, Hc.
      unfold top_count. simpl. destruct (top_k =? 0), (0 <? top_k); lia. }
    rewrite Hnil. constructor.
  - set (sims := similarities r query) in *.
    set (dflt := {| id := EmptyString; content := EmptyString;
                    source := EmptyString; score := 0%Q |}).
    set (g := fun idx => match result_at r sims idx with
                         | Ok d => d | Raise _ => dflt end).
    assert (Hg : forall idx, idx ∈ top_indices_by sort sims top_k ->
                             result_at r sims idx = Ok (g idx)).
    { intros idx Hidx. apply (top_indices_by_bound sort) in Hidx; [|done].
      destruct (result_at_ok r query idx Hl) as (ch & s & _ & _ & Hr).
      - by rewrite <- (Hl query).
      - unfold g. fold sims in Hr. by rewrite Hr. }
    exists (map g (top_indices_by sort sims top_k)). split.
    + by apply rmap_ok.
    + apply rmap_Forall2. by apply rmap_ok.
Qed.

Lemma results_descending r sims idxs docs :
  Forall2 (fun idx doc => result_at r sims idx = Ok doc) idxs docs ->
  StronglySorted (fun i j => (key sims j <= key sims i)%Q) idxs ->
  StronglySorted (fun d1 d2 => (score d2 <= score d1)%Q) docs.
Proof.
  induction 1 as [|idx doc idxs docs Hr HF IH]; intros Hs; [constructor|].
  apply StronglySorted_cons in Hs as [Hhd Hs].
  apply StronglySorted_cons. split; [|auto].
  clear IH Hs. induction HF as [|i d il dl Hi HF IH]; [constructor|].
  apply Forall_cons in Hhd as [Hh Hhd].
  constructor; [|auto].
  by rewrite (result_at_score _ _ _ _ Hr), (result_at_score _ _ _ _ Hi).
Qed.

(** numpy's sort of [0.619, 1, 0, 0] may leave the two zeros either way
    round, and [search] returns them accordingly. *)
Example tie_order_depends_on_sort :
  top_indices_by argsort four_sims 4 = [1; 0; 3; 2]%nat
  /\ top_indices_by argsort_unstable four_sims 4 = [1; 0; 2; 3]%nat
  /\ search_by argsort tie_retriever "refunds" 2 = Ok [doc1; doc0]
  /\ search_by argsort_unstable tie_retriever "refunds" 2 = Ok [doc0; doc1].
Proof. split_and!; reflexivity. Qed.

(** C6, as the code has it.  Whatever index sort numpy runs, for every
    query and every [top_k], on a loaded ranker, [search] returns without
    raising; its results are the chunks at [top_indices_by] with their
    similarities, [top_count] of them ([top_k] of them when the corpus has
    that many and [top_k >= 1]); no chunk is returned twice; every chunk
    left out has a similarity no greater than every chunk returned; and
    the results are in order of non-increasing similarity.  The results
    are the end of the sorted index array, reversed: chunks of exactly
    equal similarity come in the reverse of the order in which the sort
    leaves them, which numpy does not fix and which is not the load order
    in general. *)
Theorem search_ranks_by_similarity (sort : list Q -> list nat) r query top_k :
  index_sort sort -> loaded r ->
  let sims := similarities r query in
  let idxs := top_indices_by sort sims top_k in
  exists docs,
    search_by sort r query top_k = Ok docs
    /\ Forall2 (fun idx doc => result_at r sims idx = Ok doc) idxs docs
    /\ length docs = top_count (length (chunks r)) top_k
    /\ (1 <= top_k <= Z.of_nat (length (chunks r)) -> length docs = Z.to_nat top_k)
    /\ NoDup idxs
    /\ (forall i j, i ∈ idxs -> (j < length (chunks r))%nat -> j ∉ idxs ->
                    (key sims j <= key sims i)%Q)
    /\ StronglySorted (fun d1 d2 => (score d2 <= score d1)%Q) docs
    /\ exists left_out, sort sims = left_out ++ reverse idxs.
Proof.
  intros Hsort Hl sims idxs.
  destruct (Hsort sims) as [Hperm Hasc].
  destruct (search_by_ok sort r query top_k Hsort Hl) as (docs & Hs & HF).
  fold sims in HF. fold idxs in HF.
  assert (Hlen : length docs = top_count (length (chunks r)) top_k).
  { rewrite <- (Forall2_length _ _ _ HF). unfold idxs, top_indices_by.
    rewrite (any_sort_length _ _ Hperm). unfold sims. by rewrite Hl. }
  exists docs. split_and!; try done.
  - intros Hk. rewrite Hlen. unfold top_count.
    destruct (Z.eqb_spec top_k 0); [lia|].
    destruct (Z.ltb_spec 0 top_k); lia.
  - apply (any_sort_NoDup _ _ Hperm).
  - intros i j Hi Hj Hnj.
    apply (any_sort_highest sims (sort sims) Hperm Hasc top_k); try done.
    unfold sims. by rewrite Hl.
  - eapply results_descending; [exact HF|].
    apply (any_sort_descending _ _ Hperm Hasc).
  - eexists. apply (any_sort_split _ _ Hperm).
Qed.

Lemma search_ranks_by_similarity_witness :
  exists docs,
    search_by argsort_unstable tie_retriever "refunds" 2 = Ok docs
    /\ Forall2 (fun idx doc =>
                  result_at tie_retriever (similarities tie_retriever "refunds") idx
                  = Ok doc)
               (top_indices_by argsort_unstable
                  (similarities tie_retriever "refunds") 2) docs
    /\ length docs = top_count (length (chunks tie_retriever)) 2
    /\ (1 <= 2 <= Z.of_nat (length (chunks tie_retriever)) ->
        length docs = Z.to_nat 2)
    /\ NoDup (top_indices_by argsort_unstable
                (similarities tie_retriever "refunds") 2)
    /\ (forall i j,
          i ∈ top_indices_by argsort_unstable
                (similarities tie_retriever "refunds") 2 ->
          (j < length (chunks tie_retriever))%nat ->
          j ∉ top_indices_by argsort_unstable
                (similarities tie_retriever "refunds") 2 ->
          (key (similarities tie_retriever "refunds") j
           <= key (similarities tie_retriever "refunds") i)%Q)
    /\ StronglySorted (fun d1 d2 => (score d2 <= score d1)%Q) docs
    /\ exists left_out,
         argsort_unstable (similarities tie_retriever "refunds")
         = left_out
           ++ reverse (top_indices_by argsort_unstable
                         (similarities tie_retriever "refunds") 2).
Proof.
  apply (search_ranks_by_similarity argsort_unstable tie_retriever "refunds" 2).
  - exact argsort_unstable_index_sort.
  - intros query. reflexivity.
Defined.

(** C6, as stated, fails.  With two chunks of equal similarity and
    [top_k = 2] the chunk loaded second is returned first: the results are
    not in load order. *)
Lemma search_ties_not_in_load_order :
  search tie_retriever "refunds" 2 = Ok [doc1; doc0]
  /\ ~ ranked_in_load_order (similarities tie_retriever "refunds")
                            (top_indices (similarities tie_retriever "refunds") 2).
Proof.
  split; [reflexivity|].
  unfold ranked_in_load_order. intros H.
  change (top_indices (similarities tie_retriever "refunds") 2) with [1; 0]%nat in H.
  apply StronglySorted_cons in H as [H _].
  apply Forall_cons in H as [[H|[_ H]] _].
  - vm_compute in H. discriminate.
  - lia.
Qed.

(** C9.  On an empty corpus [search] returns the empty list for every
    query and [top_k]; with [top_k] greater than the corpus size it returns
    without raising, at most (in fact exactly) corpus-size results; and its
    result is a function of the corpus, the vectors, the query and [top_k]
    alone: two rankers with the same chunks and the same similarities for
    the query return the same results with the same scores. *)
Theorem search_empty_large_k_deterministic r query top_k :
  (chunks r = [] -> search r query top_k = Ok [])
  /\ (loaded r -> Z.of_nat (length (chunks r)) < top_k ->
      exists docs, search r query top_k = Ok docs
                   /\ (length docs <= length (chunks r))%nat
                   /\ length docs = length (chunks r))
  /\ (forall r', chunks r' = chunks r ->
                 similarities r' query = similarities r query ->
                 search r' query top_k = search r query top_k).
Proof.
  split_and!.
  - intros Hc. unfold search, search_by. by rewrite Hc.
  - intros Hl Hk.
    destruct (search_ok r query top_k Hl) as (docs & Hs & HF).
    assert (Hlen : length docs = length (chunks r)).
    { rewrite <- (Forall2_length _ _ _ HF), top_indices_length, Hl.
      unfold top_count.
      destruct (Z.eqb_spec top_k 0); [lia|].
      destruct (Z.ltb_spec 0 top_k); lia. }
    exists docs. split_and!; [done|lia|done].
  - intros r' Hc Hs. unfold search, search_by, result_at. by rewrite Hc, Hs.
Qed.

Lemma search_empty_large_k_deterministic_witness :
  search empty_retriever "refunds" 3 = Ok []
  /\ exists docs, search tie_retriever "refunds" 3 = Ok docs
                  /\ (length docs <= length (chunks tie_retriever))%nat
                  /\ length docs = length (chunks tie_retriever).
Proof.
  split.
  - apply (proj1 (search_empty_large_k_deterministic empty_retriever "refunds" 3)).
    reflexivity.
  - apply (proj1 (proj2 (search_empty_large_k_deterministic tie_retriever "refunds" 3))).
    + intros query. reflexivity.
    + simpl. lia.
Defined.



End RetrievalFacts.

(** ** Python string operations *)

Module TextFacts.

Import Text.

Lemma app_nil_l (s : string) : EmptyString +:+ s = s.
Proof. reflexivity. Qed.

Lemma app_cons c (a b : string) : String c a +:+ b = String c (a +:+ b).
Proof. reflexivity. Qed.

Ltac norm := rewrite ?app_cons, ?app_nil_l; simpl.
Ltac norm_in H := rewrite ?app_cons, ?app_nil_l in H; simpl in H.


Lemma app_assoc (a b c : string) : (a +:+ b) +:+ c = a +:+ b +:+ c.
Proof. induction a as [|x a IH]; norm; [done|]. by rewrite IH. Qed.

Lemma map_chars_app f (a b : string) :
  map_chars f (a +:+ b) = map_chars f a +:+ map_chars f b.
Proof. induction a as [|x a IH]; norm; [done|]. by rewrite IH. Qed.

(** A mapped string splits where its image does. *)
Lemma map_chars_app_inv f (s a b : string) :
  map_chars f s = a +:+ b ->
  exists a' b', s = a' +:+ b' /\ map_chars f a' = a /\ map_chars f b' = b.
Proof.
  revert s. induction a as [|x a IH]; intros s H; norm_in H.
  - exists EmptyString, s. done.
  - destruct s as [|c s]; simpl in H; [discriminate|].
    injection H as Hc Hs. destruct (IH s Hs) as (a' & b' & -> & Ha & Hb).
    exists (String c a'), b'. norm. by rewrite Hc, Ha, Hb.
Qed.

Lemma startswith_spec (p s : string) :
  startswith p s = true <-> exists post, s = p +:+ post.
Proof.
  revert s. induction p as [|a p IH]; intros s; simpl.
  - split; [intros _; by exists s | done].
  - destruct s as [|b s].
    + split; [done | intros [post H]; discriminate].
    + destruct (Ascii.eqb_spec a b) as [->|Hne].
      * rewrite IH. split; intros [post H]; exists post.
        -- norm. by rewrite H.
        -- norm_in H. by injection H.
      * split; [done | intros [post H]; norm_in H; by injection H].
Qed.

(** [needle in s] finds exactly the occurrences of [needle]. *)
Lemma contains_spec (needle s : string) :
  contains needle s = true <-> exists pre post, s = pre +:+ needle +:+ post.
Proof.
  induction s as [|c s IH]; simpl.
  - rewrite orb_false_r, startswith_spec. split.
    + intros [post H]. by exists EmptyString, post.
    + intros (pre & post & H). destruct pre; norm_in H.
      * by exists post.
      * discriminate.
  - rewrite orb_true_iff, startswith_spec, IH. split.
    + intros [[post H]|(pre & post & H)].
      * by exists EmptyString, post.
      * exists (String c pre), post. norm. by rewrite H.
    + intros (pre & post & H). destruct pre as [|x pre]; norm_in H.
      * left. by exists post.
      * right. injection H as _ H. by exists pre, post.
Qed.

(** [needle in s.lower()] is the occurrence whatever the case. *)
Lemma contains_lower (needle s : string) :
  contains needle (lower s) = true <-> ci_occurs needle s.
Proof.
  rewrite contains_spec. unfold ci_occurs, lower. split.
  - intros (pre & post & H).
    apply map_chars_app_inv in H as (pre' & rest & -> & Hpre & H).
    apply map_chars_app_inv in H as (mid & post' & -> & Hmid & Hpost).
    by exists pre', mid, post'.
  - intros (pre & mid & post & -> & Hmid).
    exists (map_chars lower_char pre), (map_chars lower_char post).
    by rewrite !map_chars_app, Hmid.
Qed.

(** *** Trimming does not hide a word *)

Lemma contains_lstrip (needle s : string) :
  solid needle -> contains needle (lstrip s) = contains needle s.
Proof.
  intros [Hne Hall]. destruct needle as [|a n]; [done|].
  simpl in Hall. apply andb_true_iff in Hall as [Ha _].
  induction s as [|c s IH]; [done|].
  cbn [lstrip]. destruct (is_space c) eqn:Hc; [|done].
  rewrite IH. cbn [contains startswith].
  destruct (Ascii.eqb_spec a c) as [->|_]; [|done].
  by rewrite Hc in Ha.
Qed.

Lemma startswith_empty (needle : string) :
  needle <> EmptyString -> startswith needle EmptyString = false.
Proof. by destruct needle. Qed.

Lemma rstrip_cons c s :
  rstrip (String c s) =
    match rstrip s with
    | EmptyString => if is_space c then EmptyString else String c EmptyString
    | r => String c r
    end.
Proof. reflexivity. Qed.

Lemma startswith_rstrip (needle s : string) :
  solid needle -> startswith needle (rstrip s) = startswith needle s.
Proof.
  revert needle. induction s as [|c s IH]; intros needle [Hne Hall]; [done|].
  destruct needle as [|a n]; [done|].
  simpl in Hall. apply andb_true_iff in Hall as [Ha Hn].
  assert (Hn' : n = EmptyString \/ solid n).
  { destruct n; [by left|right]. split; done. }
  rewrite rstrip_cons.
  destruct (rstrip s) as [|x r] eqn:Hr.
  - destruct (is_space c) eqn:Hc; cbn [startswith].
    + destruct (Ascii.eqb_spec a c) as [->|_]; [|done].
      by rewrite Hc in Ha.
    + destruct (Ascii.eqb a c); [|done].
      destruct Hn' as [->|Hs]; [by destruct s|].
      rewrite <- (IH n Hs). destruct Hs as [Hs _]. by destruct n.
  - cbn [startswith]. destruct (Ascii.eqb a c); [|done].
    destruct Hn' as [->|Hs]; [by destruct s|].
    by rewrite <- (IH n Hs).
Qed.

Lemma contains_rstrip (needle s : string) :
  solid needle -> contains needle (rstrip s) = contains needle s.
Proof.
  intros Hs. pose proof Hs as [Hne _].
  induction s as [|c s IH]; [done|].
  pose proof (startswith_rstrip needle (String c s) Hs) as Hsw.
  cbn [contains]. rewrite <- Hsw, <- IH.
  rewrite rstrip_cons in *.
  destruct (rstrip s) as [|x r] eqn:Hr.
  - destruct (is_space c); cbn [contains]; by rewrite !startswith_empty.
  - reflexivity.
Qed.

Lemma contains_strip (needle s : string) :
  solid needle -> contains needle (strip s) = contains needle s.
Proof.
  intros Hs. unfold strip. by rewrite contains_lstrip, contains_rstrip.
Qed.

(** *** The operations on examples *)

Example strip_example : strip ("  x y " +:+ nl) = "x y".
Proof. reflexivity. Qed.

Example split_example : split fence "a```b```c" = ["a"; "b"; "c"].
Proof. reflexivity. Qed.

Example split_open_fence : split fence "see ```SELECT 1" = ["see "; "SELECT 1"].
Proof. reflexivity. Qed.

Example search_run_example :
  search_run is_digit "The answer is 42 units" = Some "42".
Proof. reflexivity. Qed.

Example lower_example : lower "Hybrid-RAG 2" = "hybrid-rag 2".
Proof. reflexivity. Qed.

(** *** Splitting *)

Lemma split_go_nonempty (sep s : string) (skip : nat) (acc : string) :
  (1 <= length (split_go sep s skip acc))%nat.
Proof.
  revert skip acc. induction s as [|c s IH]; intros skip acc; simpl; [lia|].
  destruct skip; [|apply IH].
  destruct (startswith sep (String c s)); [simpl; lia | apply IH].
Qed.

(** When the separator occurs, there is a piece after it: [split(sep)[1]]
    does not raise. *)
Lemma split_has_second (sep s : string) :
  sep <> EmptyString -> contains sep s = true ->
  exists piece, split sep s !! 1%nat = Some piece.
Proof.
  intros Hne Hc. apply lookup_lt_is_Some_2. unfold split.
  generalize EmptyString as acc.
  induction s as [|c s IH]; intros acc.
  - simpl in Hc. rewrite orb_false_r in Hc. by destruct sep.
  - cbn [split_go]. cbn [contains] in Hc.
    destruct (startswith sep (String c s)) eqn:Hsw.
    + cbn [length].
      pose proof (split_go_nonempty sep s (String.length sep - 1) EmptyString).
      lia.
    + apply IH. exact Hc.
Qed.

(** *** The first maximal run of a character class *)



End TextFacts.

(** ** The router *)

Module SignaturesFacts.

Import Text TextFacts Signatures.

Lemma solid_hybrid : solid "hybrid".
Proof. split; [discriminate | reflexivity]. Qed.

Lemma solid_sql : solid "sql".
Proof. split; [discriminate | reflexivity]. Qed.

Lemma solid_rag : solid "rag".
Proof. split; [discriminate | reflexivity]. Qed.

(** The test [needle in route] of [Router.forward], for one of its three
    needles, is the occurrence of the needle in the label whatever the case
    of its letters. *)
Lemma route_test (needle label : string) :
  solid needle ->
  contains needle (strip (lower label)) = true <-> ci_occurs needle label.
Proof. intros Hs. by rewrite contains_strip, contains_lower. Qed.

Example normalize_route_sql : normalize_route "  SQL query " = "sql".
Proof. reflexivity. Qed.

Example normalize_route_both : normalize_route "RAG, then Sql: Hybrid" = "hybrid".
Proof. reflexivity. Qed.

Example normalize_route_unclear : normalize_route "I am not sure" = "hybrid".
Proof. reflexivity. Qed.

(** C3.  Whatever label the Route port returns, [Router.forward] returns
    without raising one of [hybrid], [sql] and [rag], decided on the
    lower-cased, stripped label by substring tests that amount to
    occurrence in the label whatever the case: [hybrid] when "hybrid"
    occurs, else [sql] when "sql" occurs, else [rag] when "rag" occurs, and
    [hybrid] when none of the three occurs. *)
Theorem route_is_normalized {W} (P : Ports W) (question : string) (w : World W) :
  let label := fst (lm_route P question (outside w)) in
  let r := normalize_route label in
  fst (Router_forward P question w) = Ok r
  /\ (r = "hybrid" \/ r = "sql" \/ r = "rag")
  /\ r = (if contains "hybrid" (strip (lower label)) then "hybrid"
          else if contains "sql" (strip (lower label)) then "sql"
          else if contains "rag" (strip (lower label)) then "rag"
          else "hybrid")
  /\ (r = "hybrid" <->
        ci_occurs "hybrid" label
        \/ (~ ci_occurs "sql" label /\ ~ ci_occurs "rag" label))
  /\ (r = "sql" <-> ~ ci_occurs "hybrid" label /\ ci_occurs "sql" label)
  /\ (r = "rag" <->
        ~ ci_occurs "hybrid" label /\ ~ ci_occurs "sql" label
        /\ ci_occurs "rag" label).
Proof.
  intros label r. split.
  { unfold Router_forward, bind, call, ret. subst r label.
    destruct (lm_route P question (outside w)). reflexivity. }
  subst r. unfold normalize_route.
  pose proof (route_test "hybrid" label solid_hybrid) as Hh.
  pose proof (route_test "sql" label solid_sql) as Hs.
  pose proof (route_test "rag" label solid_rag) as Hr.
  destruct (contains "hybrid" (strip (lower label)));
    destruct (contains "sql" (strip (lower label)));
    destruct (contains "rag" (strip (lower label)));
    (split; [auto|]); (split; [reflexivity|]);
    split_and!; split; try discriminate; try tauto;
    rewrite <- ?Hh, <- ?Hs, <- ?Hr; intuition discriminate.
Qed.

End SignaturesFacts.

(** ** Binary64 arithmetic *)

Module PyFloatFacts.

Import PyFloat.

Lemma Qplus_0_r_eq (x : Q) : (x + 0)%Q = x.
Proof.
  destruct x as [n d]. unfold Qplus. simpl. f_equal; [lia|].
  apply Pos.mul_1_r.
Qed.

Lemma Qmult_comm_eq (x y : Q) : (x * y)%Q = (y * x)%Q.
Proof.
  destruct x as [n d], y as [m e]. unfold Qmult. simpl. f_equal; [lia|].
  apply Pos.mul_comm.
Qed.

Lemma fmul_comm (x y : Q) : fmul x y = fmul y x.
Proof. unfold fmul. by rewrite Qmult_comm_eq. Qed.

(** A binary64 value is kept in lowest terms. *)
Lemma b64_reduced (q : Q) : Qred (b64 q) = b64 q.
Proof.
  unfold b64. destruct (Qeq_bool q 0); [reflexivity|].
  apply Qred_complete, Qred_correct.
Qed.

Lemma reduced_eq (x y : Q) : Qred x = x -> Qred y = y -> (x == y)%Q -> x = y.
Proof. intros Hx Hy H. rewrite <- Hx, <- Hy. by apply Qred_complete. Qed.

Lemma gt_spec (x y : Q) : gt x y = true <-> (y < x)%Q.
Proof.
  unfold gt. rewrite negb_true_iff. split.
  - intros H. apply Qnot_le_lt. intros Hc. apply Qle_bool_iff in Hc. congruence.
  - intros H. destruct (Qle_bool x y) eqn:E; [|done].
    apply Qle_bool_iff in E. lra.
Qed.

Lemma gt_false (x y : Q) : gt x y = false <-> (x <= y)%Q.
Proof.
  unfold gt. rewrite negb_false_iff. apply Qle_bool_iff.
Qed.

(** [max(0.0, min(1.0, x))] is the clamp. *)
Lemma fmax_fmin_clamp (x : Q) : Qred x = x -> fmax 0 (fmin 1 x) = clamp01 x.
Proof.
  intros Hx. unfold fmax, fmin, clamp01.
  destruct (gt 1 x) eqn:H1.
  - apply gt_spec in H1.
    destruct (gt x 0) eqn:H0.
    + apply gt_spec in H0.
      replace (gt 0 x) with false by (symmetry; apply gt_false; lra).
      replace (gt x 1) with false by (symmetry; apply gt_false; lra).
      reflexivity.
    + apply gt_false in H0.
      destruct (gt 0 x) eqn:H0'; [reflexivity|].
      apply gt_false in H0'.
      replace (gt x 1) with false by (symmetry; apply gt_false; lra).
      symmetry. apply reduced_eq; [done|reflexivity|lra].
  - apply gt_false in H1.
    replace (gt 1 0) with true by reflexivity.
    replace (gt 0 x) with false by (symmetry; apply gt_false; lra).
    destruct (gt x 1) eqn:H1'; [reflexivity|].
    apply gt_false in H1'.
    symmetry. apply reduced_eq; [done|reflexivity|lra].
Qed.

Lemma clamp01_range (x : Q) : (0 <= clamp01 x <= 1)%Q.
Proof.
  unfold clamp01.
  destruct (gt 0 x) eqn:H0; [lra|]. apply gt_false in H0.
  destruct (gt x 1) eqn:H1; [lra|]. apply gt_false in H1. lra.
Qed.

(** Rounding to the nearest integer moves by less than one. *)
Lemma rne_floor (q : Q) : rne q = Qfloor q \/ (rne q = Qfloor q + 1 /\ (1 # 2 <= q - inject_Z (Qfloor q))%Q).
Proof.
  unfold rne.
  destruct (q - inject_Z (Qfloor q) ?= 1 # 2)%Q eqn:E.
  - apply Qeq_alt in E. destruct (Z.even (Qfloor q)); [by left|].
    right. split; [done|lra].
  - by left.
  - apply Qgt_alt in E. right. split; [done|lra].
Qed.

Lemma rne_range (q : Q) (n : Z) :
  (0 <= q <= inject_Z n)%Q -> 0 <= rne q <= n.
Proof.
  intros [H0 Hn].
  assert (0 <= Qfloor q).
  { change 0 with (Qfloor (inject_Z 0)). by apply Qfloor_resp_le. }
  assert (Qfloor q <= n).
  { rewrite <- (Qfloor_Z n). by apply Qfloor_resp_le. }
  destruct (rne_floor q) as [->|[-> Hh]]; [lia|].
  split; [lia|].
  assert (Qfloor q <> n); [|lia].
  intros Heq. rewrite Heq in Hh. lra.
Qed.

Lemma hundredths_range (x : Q) : (0 <= x <= 1)%Q -> 0 <= hundredths x <= 100.
Proof.
  intros H. unfold hundredths. apply rne_range.
  change (inject_Z 100) with 100%Q. lra.
Qed.

Lemma cents_range (n : Z) : 0 <= n <= 100 -> (0 <= cents n <= 1)%Q.
Proof.
  intros Hn.
  assert (H : forallb cents_in_range (map Z.of_nat (seq 0 101)) = true)
    by (vm_compute; reflexivity).
  rewrite forallb_forall in H.
  specialize (H n). unfold cents_in_range in H.
  rewrite andb_true_iff, !Qle_bool_iff in H. apply H.
  apply in_map_iff. exists (Z.to_nat n). split; [lia|].
  apply in_seq. lia.
Qed.

(** Rounding a value of [0, 1] to two decimals stays in [0, 1]. *)
Lemma round2_range (x : Q) : (0 <= x <= 1)%Q -> (0 <= round2 x <= 1)%Q.
Proof. intros H. unfold round2. apply cents_range, hundredths_range, H. Qed.

End PyFloatFacts.

(** ** The answer post-processor *)

Module PostProcessorFacts.

Import Text TextFacts PyFloat PyFloatFacts Signatures Graph Scenarios.

Lemma fence_not_empty : fence <> EmptyString.
Proof. discriminate. Qed.

Lemma unfence_ok (tag text : string) :
  contains fence text = true -> exists s, unfence tag text = Ok s.
Proof.
  intros Hc. unfold unfence, list_get.
  destruct (split_has_second fence text fence_not_empty Hc) as [piece ->].
  simpl. eauto.
Qed.

Lemma clean_sql_ok (raw : string) : exists s, clean_sql raw = Ok s.
Proof.
  unfold clean_sql. destruct (contains fence (strip raw)) eqn:Hc; [|eauto].
  by apply unfence_ok.
Qed.

Example clean_sql_fenced :
  clean_sql ("```sql" +:+ nl +:+ "SELECT 1" +:+ nl +:+ "```") = Ok "SELECT 1".
Proof. reflexivity. Qed.

Example count_dates_example :
  count_matches date_pattern "between 1997-06-01 and 1997-06-30 (1997-6-1)" O = 2%nat.
Proof. reflexivity. Qed.

Lemma clean_answer_ok (answer : string) : exists s, clean_answer answer = Ok s.
Proof.
  unfold clean_answer. destruct (contains fence (strip answer)) eqn:Hc; [|eauto].
  by apply unfence_ok.
Qed.

Lemma parse_answer_cases {W} (P : Ports W) (answer format_hint text : string) :
  clean_answer answer = Ok text ->
  _parse_answer P answer format_hint =
    Ok (match parse_by_hint P text format_hint with
        | Some v => v
        | None => fallback P text
        end).
Proof.
  intros Hc. unfold _parse_answer, fallback. rewrite Hc. simpl.
  destruct (parse_by_hint P text format_hint); [done|].
  by destruct (json_loads P text).
Qed.

Lemma parse_answer_total {W} (P : Ports W) (answer format_hint : string) :
  exists v, _parse_answer P answer format_hint = Ok v.
Proof.
  destruct (clean_answer_ok answer) as [text Hc].
  rewrite (parse_answer_cases P _ _ _ Hc). eauto.
Qed.

(** The hint is compared with the literal ["int"]: the text ["integer"]
    is none of the hints the parser knows and leaves the answer as text. *)
Example parse_answer_other_hint {W} (P : Ports W) :
  _parse_answer P "The answer is 42 units" "integer"
  = Ok (AnsStr "The answer is 42 units").
Proof. reflexivity. Qed.

(** Python rounds the binary64 nearest to 2.675, which lies below it. *)
Example parse_answer_float_below_tie {W} (P : Ports W) :
  _parse_answer P "about 2.675 kg" "float" = Ok (AnsFloat (Finite (lit (267 # 100)))).
Proof. vm_compute. reflexivity. Qed.

Example parse_answer_fenced {W} (P : Ports W) :
  _parse_answer P ("```json" +:+ nl +:+ "17 items" +:+ nl +:+ "```") "int"
  = Ok (AnsInt 17).
Proof. vm_compute. reflexivity. Qed.


(** *** Citations *)

Lemma cited_docs_spec (docs : list Doc) (c : string) :
  c ∈ cited_docs docs <->
  exists doc, doc ∈ docs /\ id doc = c /\ (lit (1 # 10) < score doc)%Q.
Proof.
  unfold cited_docs. rewrite list_elem_of_In, in_map_iff. split.
  - intros (doc & Hid & Hin). apply list_elem_of_In in Hin.
    apply list_elem_of_filter in Hin as [Hgt Hin].
    exists doc. split_and!; [done..|]. by apply gt_spec.
  - intros (doc & Hin & Hid & Hgt). exists doc. split; [done|].
    apply list_elem_of_In, list_elem_of_filter. split; [|done].
    by apply gt_spec.
Qed.

(** The quoted form of a name occurs only where the name occurs. *)
Lemma contains_quoted (name text : string) :
  contains (dquote +:+ name +:+ dquote) text = true -> contains name text = true.
Proof.
  rewrite !contains_spec. intros (pre & post & ->).
  exists (pre +:+ dquote), (dquote +:+ post).
  by rewrite !app_assoc.
Qed.

Lemma mentions_spec (text table : string) :
  mentions (upper text) table = true <->
  exists pre post, upper text = pre +:+ upper table +:+ post.
Proof.
  unfold mentions. rewrite <- contains_spec, orb_true_iff. split.
  - intros [H|H]; [done | by apply contains_quoted].
  - auto.
Qed.

Lemma cited_tables_spec (text c : string) :
  c ∈ cited_tables text <->
  c ∈ tables /\ exists pre post, upper text = pre +:+ upper c +:+ post.
Proof.
  unfold cited_tables. rewrite list_elem_of_filter, mentions_spec. tauto.
Qed.

Lemma extract_citations_eq (st : AgentState) (ok : PyVal) :
  getitem (sql_results st) "success" = Ok ok ->
  _extract_citations st = Ok (elements (list_to_set (raw_citations st) : gset string)).
Proof.
  intros Hok. unfold _extract_citations, raw_citations, succeeded.
  rewrite Hok. unfold getitem in Hok.
  destruct (sql_results st !! "success") as [v|]; [|discriminate].
  injection Hok as ->. simpl.
  destruct (truthy ok && negb (String.eqb (sql st) EmptyString)); [done|].
  by rewrite app_nil_r.
Qed.

(** *** Confidence *)

Lemma half_plus_zero : fadd (lit (1 # 2)) 0 = lit (1 # 2).
Proof. vm_compute. reflexivity. Qed.

Lemma boosted_plus_zero : fadd (fadd (lit (1 # 2)) (lit (3 # 10))) 0
                          = fadd (lit (1 # 2)) (lit (3 # 10)).
Proof. vm_compute. reflexivity. Qed.

Lemma calculate_confidence_eq (st : AgentState) (b : bool)
    (rows : list (gmap string SqlValue)) :
  getitem (sql_results st) "success" = Ok (PyBool b) ->
  getitem (sql_results st) "rows" = Ok (PyRows rows) ->
  _calculate_confidence st =
    Ok (confidence_formula (succeeded_with_rows (sql_results st))
          (map score (retrieved_docs st)) (repair_count st)).
Proof.
  intros Hs Hr. unfold _calculate_confidence, confidence_formula, succeeded_with_rows.
  rewrite Hs. cbn [rbind]. change (truthy (PyBool b)) with b.
  assert (Hrows : (if b then getitem (sql_results st) "rows" else Ok (PyBool b))
                  = Ok (if b then PyRows rows else PyBool false)).
  { rewrite Hr. by destruct b. }
  rewrite Hrows. cbn [rbind].
  unfold getitem in Hs, Hr.
  destruct (sql_results st !! "success") as [v|] eqn:Es; [|discriminate].
  destruct (sql_results st !! "rows") as [v'|] eqn:Er; [|discriminate].
  injection Hs as ->. injection Hr as ->. f_equal.
  rewrite <- fmax_fmin_clamp by apply b64_reduced.
  rewrite (fmul_comm (lit (1 # 10))). unfold average. rewrite length_map.
  change (truthy (PyBool b)) with b.
  destruct b; [destruct rows|];
    destruct (retrieved_docs st) as [|doc docs]; cbn [map truthy andb];
    rewrite ?half_plus_zero, ?boosted_plus_zero; reflexivity.
Qed.

Lemma confidence_formula_range (b : bool) (scores : list Q) (repairs : Z) :
  (0 <= confidence_formula b scores repairs <= 1)%Q.
Proof. unfold confidence_formula. apply round2_range, clamp01_range. Qed.


End PostProcessorFacts.

(** ** The workflow *)

Module WorkflowFacts.

Import Text TextFacts PyFloat PyFloatFacts Signatures Graph Scenarios.
Import RetrievalFacts PostProcessorFacts.

(** *** Running a computation *)

Section Monad.

Context {W : Type}.

Lemma bind_inv {A B} (m : M W A) (k : A -> M W B) w b w2 :
  bind m k w = (Ok b, w2) ->
  exists a w1, m w = (Ok a, w1) /\ k a w1 = (Ok b, w2).
Proof.
  unfold bind. destruct (m w) as [[a|e] w1]; [eauto | discriminate].
Qed.

Lemma bind_ok {A B} (m : M W A) (k : A -> M W B) w a w1 :
  m w = (Ok a, w1) -> bind m k w = k a w1.
Proof. unfold bind. by intros ->. Qed.

Lemma bind_raise {A B} (m : M W A) (k : A -> M W B) w e w1 :
  m w = (Raise e, w1) -> bind m k w = (Raise e, w1).
Proof. unfold bind. by intros ->. Qed.

Lemma ret_inv {A} (a b : A) (w w' : World W) :
  ret a w = (Ok b, w') -> a = b /\ w = w'.
Proof. unfold ret. by intros [= -> ->]. Qed.

Lemma lift_inv {A} (r : Result A) (a : A) (w w' : World W) :
  lift r w = (Ok a, w') -> r = Ok a /\ w = w'.
Proof. unfold lift. by intros [= -> ->]. Qed.

Lemma bind_ret {A B} (a : A) (k : A -> M W B) w : bind (ret a) k w = k a w.
Proof. reflexivity. Qed.

Lemma bind_lift_ok {A B} (a : A) (k : A -> M W B) w :
  bind (lift (Ok a)) k w = k a w.
Proof. reflexivity. Qed.

Lemma bind_assoc {A B C} (m : M W A) (k1 : A -> M W B) (k2 : B -> M W C) w :
  bind (bind m k1) k2 w = bind m (fun a => bind (k1 a) k2) w.
Proof. unfold bind. by destruct (m w) as [[a|e] w1]. Qed.

Lemma call_run {A} (c : Call) (f : W -> A * W) (w : World W) :
  call c f w =
    (Ok (fst (f (outside w))),
     {| outside := snd (f (outside w)); calls := calls w ++ [c] |}).
Proof. unfold call. by destruct (f (outside w)). Qed.

End Monad.

Ltac minv :=
  repeat match goal with
  | H : bind _ _ _ = (Ok _, _) |- _ =>
      apply bind_inv in H as (? & ? & ? & ?)
  | H : ret _ _ = (Ok _, _) |- _ => apply ret_inv in H as [? ?]; subst
  | H : lift _ _ = (Ok _, _) |- _ => apply lift_inv in H as [? ?]; subst
  | H : call _ _ _ = (Ok _, _) |- _ =>
      rewrite call_run in H; injection H as ? ?; subst
  end.

(** *** What [_executor_node] leaves in [sql_results] *)

Lemma executed_success d :
  executed d ->
  exists b rows, getitem d "success" = Ok (PyBool b)
                 /\ getitem d "rows" = Ok (PyRows rows).
Proof.
  intros [->|[[desc rows|msg] ->]]; eexists _, _; split; reflexivity.
Qed.

Lemma executed_error d :
  executed d -> succeeded d = false ->
  exists msg, getitem d "error" = Ok (PyStr msg).
Proof.
  intros [->|[[desc rows|msg] ->]]; [discriminate..|]. intros _. by exists msg.
Qed.

Lemma failed_result o :
  succeeded (SqliteTool.execute_query_result o) = false ->
  exists msg, o = SqliteTool.Failed msg.
Proof. destruct o as [desc rows|msg]; [discriminate | eauto]. Qed.

Section Steps.

Context {W : Type} (P : Ports W) (self : HybridAgent).

Lemma run_router_inv st w st' w' :
  run_node P self router st w = (Ok st', w') ->
  exists r, st' = append_trace (TrRouted r) (set_route r st).
Proof.
  simpl. unfold _route_node, Router_forward. intros H. minv. eauto.
Qed.

Lemma run_retriever_inv st w st' w' :
  run_node P self retriever st w = (Ok st', w') ->
  exists docs, st' = append_trace (TrRetrieved (length docs))
                                  (set_retrieved_docs docs st).
Proof.
  simpl. unfold _retriever_node. intros H. minv. eauto.
Qed.

Lemma run_planner_inv st w st' w' :
  run_node P self planner st w = (Ok st', w') ->
  exists entry, st' = append_trace entry st.
Proof.
  simpl. unfold _planner_node. intros H. minv. eauto.
Qed.

Lemma run_nl_to_sql_inv st w st' w' :
  run_node P self nl_to_sql st w = (Ok st', w') ->
  exists s, st' = append_trace (TrGenerated (take_chars 100 s)) (set_sql s st).
Proof.
  simpl. unfold _nl_to_sql_node. intros H. minv. eauto.
Qed.

Lemma run_executor_inv st w st' w' :
  run_node P self executor st w = (Ok st', w') ->
  (sql st = EmptyString /\ st' = set_sql_results noop_result st /\ w' = w)
  \/ (sql st <> EmptyString /\
      exists entry,
        st' = append_trace entry
                (set_sql_results
                   (SqliteTool.execute_query_result
                      (fst (sqlite P (sql st) (outside w)))) st)).
Proof.
  simpl. unfold _executor_node. intros H.
  destruct (String.eqb_spec (sql st) EmptyString) as [He|Hne].
  - left. minv. done.
  - right. split; [done|]. unfold execute_query in H.
    minv.
    match goal with H : (if truthy ?v then _ else _) _ = _ |- _ =>
      destruct (truthy v) end; minv; eauto.
Qed.

Lemma run_repair_inv st w st' w' :
  run_node P self repair st w = (Ok st', w') ->
  exists s entry e,
    getitem (sql_results st) "error" = Ok e
    /\ st' = append_trace entry (set_sql s (set_repair_count (repair_count st + 1) st)).
Proof.
  simpl. unfold _repair_node. intros H. minv.
  eexists _, _, _. split; [eassumption | reflexivity].
Qed.

Lemma run_synthesizer_inv st w st' w' :
  run_node P self synthesizer st w = (Ok st', w') ->
  exists ok a e c conf,
    getitem (sql_results st) "success" = Ok ok
    /\ _extract_citations st = Ok c
    /\ _calculate_confidence st = Ok conf
    /\ st' = append_trace (TrSynthesized a) (set_outcome a e c conf st).
Proof.
  simpl. unfold _synthesizer_node. intros H. minv.
  eexists _, _, _, _, _. split_and!; [eassumption..|reflexivity].
Qed.

Lemma step_inv n st w n' st' w' :
  step P self n st w = (Ok (n', st'), w') ->
  exists w1, run_node P self n st w = (Ok st', w1)
             /\ next_node n st' = Ok n' /\ w' = w1.
Proof.
  unfold step. intros H. minv. simplify_eq. eauto.
Qed.

End Steps.

(** *** The invariant of the graph holds *)

Section Invariant.

Context {W : Type} (P : Ports W) (self : HybridAgent).

Lemma should_repair_inv st label :
  _should_repair st = Ok label ->
  (label = "synthesize" /\ (2 <= repair_count st \/ succeeded (sql_results st) = true))
  \/ (label = "repair" /\ repair_count st < 2
      /\ succeeded (sql_results st) = false
      /\ exists ok, getitem (sql_results st) "success" = Ok ok).
Proof.
  unfold _should_repair, succeeded, getitem.
  destruct (Z.leb_spec 2 (repair_count st)) as [Hge|Hlt].
  - intros [= <-]. left. auto.
  - destruct (sql_results st !! "success") as [ok|]; simpl; [|discriminate].
    destruct (truthy ok); simpl; intros [= <-].
    + left. auto.
    + right. split_and!; eauto.
Qed.

Lemma next_executor_inv st n' :
  next_node executor st = Ok n' ->
  (n' = synthesizer /\ (2 <= repair_count st \/ succeeded (sql_results st) = true))
  \/ (n' = repair /\ repair_count st < 2 /\ succeeded (sql_results st) = false).
Proof.
  simpl. destruct (_should_repair st) as [label|e] eqn:Hl; simpl; [|discriminate].
  apply should_repair_inv in Hl as [[-> H]|(-> & H1 & H2 & _)]; simpl; intros [= <-].
  - left. auto.
  - right. auto.
Qed.

Lemma next_planner_inv st n' :
  next_node planner st = Ok n' -> n' = nl_to_sql \/ n' = synthesizer.
Proof.
  simpl. unfold _should_query_sql.
  destruct (bool_decide _); simpl; intros [= <-]; auto.
Qed.

Lemma step_preserves n st w n' st' w' :
  Inv n st -> step P self n st w = (Ok (n', st'), w') -> Inv n' st'.
Proof.
  intros [Hrc Hn] Hstep.
  apply step_inv in Hstep as (w1 & Hrun & Hnext & ->).
  destruct n.
  - apply run_router_inv in Hrun as [r ->]. injection Hnext as <-.
    split; [exact Hrc | exact Hn].
  - apply run_retriever_inv in Hrun as [docs ->]. injection Hnext as <-.
    split; [exact Hrc | exact Hn].
  - apply run_planner_inv in Hrun as [entry ->].
    destruct Hn as [H0 Hempty].
    apply next_planner_inv in Hnext as [->| ->]; (split; [exact Hrc|]).
    + exact H0.
    + right. exact Hempty.
  - apply run_nl_to_sql_inv in Hrun as [s ->]. injection Hnext as <-.
    split; [exact Hrc | exact I].
  - assert (Hex : executed (sql_results st') /\ repair_count st' = repair_count st).
    { apply run_executor_inv in Hrun as [(_ & -> & _)|(_ & entry & ->)].
      - split; [by left | reflexivity].
      - split; [right; eauto | reflexivity]. }
    destruct Hex as [Hex Heq].
    apply next_executor_inv in Hnext as [[-> _]|(-> & Hlt & Hfail)].
    + split; [by rewrite Heq | by left].
    + split; [by rewrite Heq|]. split; [exact Hlt|].
      destruct Hex as [Hnoop|[o Ho]].
      * rewrite Hnoop in Hfail. discriminate.
      * rewrite Ho in Hfail. apply failed_result in Hfail as [msg ->]. eauto.
  - apply run_synthesizer_inv in Hrun as (ok & a & e & c & conf & Hok & Hc & Hconf & ->).
    injection Hnext as <-. split; [exact Hrc|]. split_and!.
    + destruct Hn as [Hex|Hempty]; [exact Hex|].
      simpl in Hok. rewrite Hempty in Hok. discriminate.
    + exact Hconf.
    + exact Hc.
  - apply run_repair_inv in Hrun as (s & entry & e & _ & ->). injection Hnext as <-.
    destruct Hn as [Hlt _]. split; [simpl; lia | exact I].
  - simpl in Hrun. apply ret_inv in Hrun as [-> _]. injection Hnext as <-.
    split; [exact Hrc | exact Hn].
Qed.

Lemma reachable_inv q hint w0 n st w :
  reachable P self q hint w0 (n, st, w) -> Inv n st.
Proof.
  intros H. remember (n, st, w) as c eqn:Hc. revert n st w Hc.
  induction H as [|n1 st1 w1 n2 st2 w2 Hreach IH Hne Hstep];
    intros n st w Heq; simplify_eq.
  - split; simpl; [lia | done].
  - eapply step_preserves; [|exact Hstep]. by eapply IH.
Qed.

(** A run that returns has passed through reachable configurations only. *)
Lemma invoke_reachable q hint w0 limit n st w st' w' :
  reachable P self q hint w0 (n, st, w) ->
  invoke P self limit n st w = (Ok st', w') ->
  reachable P self q hint w0 (END, st', w').
Proof.
  revert n st w. induction limit as [|limit IH]; intros n st w Hreach Hinv.
  - destruct n; simpl in Hinv; try discriminate.
    apply ret_inv in Hinv as [-> ->]. exact Hreach.
  - destruct n; simpl in Hinv;
      try (apply bind_inv in Hinv as ([n1 st1] & w1 & Hstep & Hinv);
           apply (IH n1 st1 w1); [|exact Hinv];
           eapply reach_step; [exact Hreach | discriminate | exact Hstep]).
    apply ret_inv in Hinv as [-> ->]. exact Hreach.
Qed.

End Invariant.

(** *** Steps that are sure to succeed *)

Section Forward.

Context {W : Type} (P : Ports W) (self : HybridAgent).

Lemma invoke_step limit n st w :
  n <> END ->
  invoke P self (S limit) n st w
  = bind (step P self n st) (fun c => invoke P self limit (fst c) (snd c)) w.
Proof. by destruct n. Qed.

Lemma step_router_run st w :
  let r := normalize_route (fst (lm_route P (question st) (outside w))) in
  step P self router st w =
    (Ok (retriever, append_trace (TrRouted r) (set_route r st)),
     {| outside := snd (lm_route P (question st) (outside w));
        calls := calls w ++ [CallRoute (question st)] |}).
Proof.
  unfold step, run_node, _route_node, Router_forward, bind.
  by rewrite call_run.
Qed.

Lemma step_retriever_run st w docs :
  search (agent_retriever self) (question st) 3 = Ok docs ->
  step P self retriever st w =
    (Ok (planner, append_trace (TrRetrieved (length docs))
                    (set_retrieved_docs docs st)), w).
Proof.
  intros Hs. unfold step, run_node, _retriever_node, bind, lift. by rewrite Hs.
Qed.

Lemma step_planner_rag st w :
  route st = "rag" ->
  exists entry,
    step P self planner st w = (Ok (synthesizer, append_trace entry st), w).
Proof.
  intros Hr. eexists. unfold step, run_node, _planner_node, bind, ret, lift.
  simpl. unfold _should_query_sql. simpl. rewrite Hr. reflexivity.
Qed.

Lemma step_synthesizer_empty st w :
  sql_results st = ∅ ->
  step P self synthesizer st w = (Raise (KeyError "success"), w).
Proof.
  intros He. unfold step, run_node, _synthesizer_node, bind, lift.
  by rewrite He.
Qed.

Lemma execute_query_run sql_text w :
  execute_query P sql_text w =
    (Ok (SqliteTool.execute_query_result (fst (sqlite P sql_text (outside w)))),
     {| outside := snd (sqlite P sql_text (outside w));
        calls := calls w ++ [CallExecute sql_text] |}).
Proof. unfold execute_query, bind. by rewrite call_run. Qed.

(** [_executor_node] on a query that is not empty. *)
Lemma executor_node_run st w :
  sql st <> EmptyString ->
  exists entry,
    _executor_node P st w =
      (Ok (append_trace entry
             (set_sql_results
                (SqliteTool.execute_query_result
                   (fst (sqlite P (sql st) (outside w)))) st)),
       {| outside := snd (sqlite P (sql st) (outside w));
          calls := calls w ++ [CallExecute (sql st)] |}).
Proof.
  intros Hne. unfold _executor_node.
  destruct (String.eqb_spec (sql st) EmptyString) as [He|_]; [done|].
  rewrite (bind_ok _ _ _ _ _ (execute_query_run _ _)).
  destruct (sqlite P (sql st) (outside w)) as [[desc rows|msg] o];
    eexists; reflexivity.
Qed.

Lemma next_executor_at_cap st :
  2 <= repair_count st -> next_node executor st = Ok synthesizer.
Proof.
  intros Hcap. simpl. unfold _should_repair.
  destruct (Z.leb_spec 2 (repair_count st)); [reflexivity | lia].
Qed.

Lemma step_executor_at_cap st w :
  2 <= repair_count st ->
  exists st1 w1,
    step P self executor st w = (Ok (synthesizer, st1), w1)
    /\ repair_count st1 = repair_count st
    /\ sql st1 = sql st
    /\ executed (sql_results st1)
    /\ (sql st <> EmptyString ->
        sql_results st1 = SqliteTool.execute_query_result
                            (fst (sqlite P (sql st) (outside w)))).
Proof.
  intros Hcap. unfold step, run_node.
  destruct (String.eqb_spec (sql st) EmptyString) as [He|Hne].
  - exists (set_sql_results noop_result st), w. split.
    + unfold _executor_node. rewrite He. simpl String.eqb. cbv iota.
      rewrite bind_ret, next_executor_at_cap by exact Hcap. reflexivity.
    + split_and!; [reflexivity | reflexivity | by left | done].
  - destruct (executor_node_run st w Hne) as [entry Hrun].
    eexists _, _. split.
    + rewrite (bind_ok _ _ _ _ _ Hrun), next_executor_at_cap by exact Hcap.
      reflexivity.
    + split_and!; [reflexivity | reflexivity | right; eauto | reflexivity].
Qed.

Lemma synthesizer_node_ok st w :
  executed (sql_results st) -> dumpable (sql_results st) = true ->
  exists a e c conf w2,
    _synthesizer_node P st w
    = (Ok (append_trace (TrSynthesized a) (set_outcome a e c conf st)), w2).
Proof.
  intros Hex Hdump.
  destruct (executed_success _ Hex) as (b & rows & Hs & Hr).
  pose proof (extract_citations_eq st _ Hs) as Hc.
  pose proof (calculate_confidence_eq st b rows Hs Hr) as Hconf.
  unfold _synthesizer_node, Synthesizer_forward.
  rewrite Hs, bind_lift_ok.
  assert (Hstr : exists str,
            (if truthy (PyBool b)
             then bind (lift (getitem (sql_results st) "rows"))
                       (fun rows => if json_serializable rows
                                    then ret (json_dumps P rows)
                                    else raise TypeError)
             else ret EmptyString) w = (Ok str, w)).
  { assert (Hj : json_serializable (PyRows rows) = true).
    { unfold dumpable in Hdump. unfold getitem in Hr.
      destruct (sql_results st !! "rows") as [v|]; [|discriminate].
      by injection Hr as ->. }
    rewrite Hr. destruct b; [|by eexists].
    exists (json_dumps P (PyRows rows)). cbn [truthy].
    rewrite bind_lift_ok. by rewrite Hj. }
  destruct Hstr as [str Hstr].
  rewrite (bind_ok _ _ _ _ _ Hstr), bind_assoc.
  rewrite (bind_ok _ _ _ _ _ (call_run _ _ _)), bind_ret.
  match goal with |- context [_parse_answer P ?a ?h] =>
    destruct (parse_answer_total P a h) as [v Hv]; rewrite Hv end.
  rewrite bind_lift_ok, Hc, bind_lift_ok, Hconf, bind_lift_ok.
  eexists _, _, _, _, _. reflexivity.
Qed.

(** An execution that failed left no row behind. *)
Lemma failed_dumpable d : executed d -> succeeded d = false -> dumpable d = true.
Proof. intros [->|[[desc rows|msg] ->]]; [discriminate..|]. reflexivity. Qed.

(** Rows with a [bytes] value stop the synthesizer before it calls the
    model. *)
Lemma synthesizer_node_blob st w :
  executed (sql_results st) -> dumpable (sql_results st) = false ->
  _synthesizer_node P st w = (Raise TypeError, w).
Proof.
  intros Hex Hdump.
  assert (Hok : succeeded (sql_results st) = true).
  { destruct (succeeded (sql_results st)) eqn:E; [done|].
    rewrite (failed_dumpable _ Hex E) in Hdump. discriminate. }
  destruct (executed_success _ Hex) as (b & rows & Hs & Hr).
  unfold succeeded, getitem in *.
  destruct (sql_results st !! "success") as [v|] eqn:Es; [|discriminate].
  injection Hs as ->. simpl in Hok. subst b.
  unfold dumpable in Hdump.
  destruct (sql_results st !! "rows") as [v|] eqn:Er; [|discriminate].
  unfold _synthesizer_node, getitem, bind, lift. rewrite Es, Er. simpl.
  by rewrite Hdump.
Qed.

Lemma step_synthesizer_ok st w :
  executed (sql_results st) -> dumpable (sql_results st) = true ->
  exists st2 w2,
    step P self synthesizer st w = (Ok (END, st2), w2)
    /\ repair_count st2 = repair_count st
    /\ sql st2 = sql st
    /\ sql_results st2 = sql_results st.
Proof.
  intros Hex Hdump.
  destruct (synthesizer_node_ok st w Hex Hdump) as (a & e & c & conf & w2 & Hrun).
  eexists _, _. split.
  - unfold step, run_node. rewrite (bind_ok _ _ _ _ _ Hrun). reflexivity.
  - split_and!; reflexivity.
Qed.

Lemma step_synthesizer_blob st w :
  executed (sql_results st) -> dumpable (sql_results st) = false ->
  step P self synthesizer st w = (Raise TypeError, w).
Proof.
  intros Hex Hdump. unfold step, run_node.
  by rewrite (bind_raise _ _ _ _ _ (synthesizer_node_blob st w Hex Hdump)).
Qed.

End Forward.

(** *** The properties of the orchestration *)

Lemma citations_spec (st : AgentState) (c : string) :
  c ∈ elements (list_to_set (raw_citations st) : gset string) <->
  cites_chunk st c
  \/ (succeeded (sql_results st) = true /\ sql st <> EmptyString /\ cites_table st c).
Proof.
  rewrite elem_of_elements, elem_of_list_to_set. unfold raw_citations.
  rewrite elem_of_app, cited_docs_spec. unfold cites_chunk, cites_table.
  destruct (succeeded (sql_results st)); simpl.
  - destruct (String.eqb_spec (sql st) EmptyString) as [He|Hne]; simpl.
    + rewrite elem_of_nil. intuition congruence.
    + rewrite cited_tables_spec. intuition congruence.
  - rewrite elem_of_nil. intuition congruence.
Qed.

Lemma final_state_outcome {W} (P : Ports W) (self : HybridAgent)
    q hint w0 st w :
  reachable P self q hint w0 (END, st, w) ->
  executed (sql_results st)
  /\ _calculate_confidence st = Ok (confidence st)
  /\ _extract_citations st = Ok (citations st).
Proof. intros H. by destruct (reachable_inv P self _ _ _ _ _ _ H) as [_ ?]. Qed.

(** C1 does not hold of the code.  When the route is [rag] the graph goes
    from the planner straight to the synthesizer with [sql_results] still
    the empty dict of the initial state, and the synthesizer's first read,
    [state["sql_results"]["success"]], raises [KeyError]: [run] raises
    after the single call to the Route port, without reaching the
    Synthesize port and without a final result. *)
Theorem rag_route_raises {W} (P : Ports W) (self : HybridAgent)
    (q hint : string) (w : World W) :
  loaded (agent_retriever self) ->
  normalize_route (fst (lm_route P q (outside w))) = "rag" ->
  run P self q hint w =
    (Raise (KeyError "success"),
     {| outside := snd (lm_route P q (outside w));
        calls := calls w ++ [CallRoute q] |}).
Proof.
  intros Hl Hr. unfold run, recursion_limit.
  pose proof (step_router_run P self (initial_state q hint) w) as H1.
  cbn zeta in H1. change (question (initial_state q hint)) with q in H1.
  rewrite Hr in H1.
  set (w1 := {| outside := snd (lm_route P q (outside w));
                calls := calls w ++ [CallRoute q] |}) in *.
  set (st1 := append_trace (TrRouted "rag") (set_route "rag" (initial_state q hint))) in *.
  destruct (search_ok (agent_retriever self) q 3 Hl) as (docs & Hs & _).
  pose proof (step_retriever_run P self st1 w1 docs Hs) as H2.
  set (st2 := append_trace (TrRetrieved (length docs)) (set_retrieved_docs docs st1)) in *.
  destruct (step_planner_rag P self st2 w1 eq_refl) as [entry H3].
  pose proof (step_synthesizer_empty P self (append_trace entry st2) w1 eq_refl) as H4.
  unfold bind at 1.
  rewrite invoke_step, (bind_ok _ _ _ _ _ H1) by discriminate. cbn [fst snd].
  rewrite invoke_step, (bind_ok _ _ _ _ _ H2) by discriminate. cbn [fst snd].
  rewrite invoke_step, (bind_ok _ _ _ _ _ H3) by discriminate. cbn [fst snd].
  rewrite invoke_step, (bind_raise _ _ _ _ _ H4) by discriminate.
  reflexivity.
Qed.

Lemma rag_route_raises_witness :
  run rag_ports tie_agent "How long do refunds take?" "str" start =
    (Raise (KeyError "success"),
     {| outside := tt; calls := [CallRoute "How long do refunds take?"] |}).
Proof.
  apply (rag_route_raises rag_ports tie_agent "How long do refunds take?" "str" start).
  - intros query. reflexivity.
  - reflexivity.
Defined.

(** C8.  On a state whose SQL text is empty [_executor_node] returns
    without calling out (the world, and with it the list of calls, is
    returned as it was received) and without a trace line; it stores the
    result [{success: True, rows: [], columns: []}]; and the graph goes on
    to the synthesizer, not to the repair node. *)
Theorem executor_empty_sql_is_noop {W} (P : Ports W) (st : AgentState) (w : World W) :
  sql st = EmptyString ->
  exists st',
    _executor_node P st w = (Ok st', w)
    /\ st' = set_sql_results noop_result st
    /\ sql_results st' !! "success" = Some (PyBool true)
    /\ sql_results st' !! "rows" = Some (PyRows [])
    /\ sql_results st' !! "columns" = Some (PyStrs [])
    /\ sql_results st' !! "error" = None
    /\ trace st' = trace st
    /\ next_node executor st' = Ok synthesizer.
Proof.
  intros He. exists (set_sql_results noop_result st).
  split_and!; try reflexivity.
  - unfold _executor_node. rewrite He. reflexivity.
  - simpl. unfold _should_repair.
    destruct (2 <=? repair_count (set_sql_results noop_result st)); reflexivity.
Qed.

Lemma executor_empty_sql_is_noop_witness :
  exists st',
    _executor_node rag_ports (initial_state "How long do refunds take?" "str") start
    = (Ok st', start)
    /\ st' = set_sql_results noop_result (initial_state "How long do refunds take?" "str")
    /\ sql_results st' !! "success" = Some (PyBool true)
    /\ sql_results st' !! "rows" = Some (PyRows [])
    /\ sql_results st' !! "columns" = Some (PyStrs [])
    /\ sql_results st' !! "error" = None
    /\ trace st' = trace (initial_state "How long do refunds take?" "str")
    /\ next_node executor st' = Ok synthesizer.
Proof.
  apply (executor_empty_sql_is_noop rag_ports
           (initial_state "How long do refunds take?" "str") start).
  reflexivity.
Defined.

Lemma failing_run_reachable :
  reachable failing_ports empty_agent "How many orders?" "int" start
    (END, failing_final, failing_world).
Proof.
  apply (invoke_reachable failing_ports empty_agent "How many orders?" "int" start
           recursion_limit router (initial_state "How many orders?" "int") start).
  - apply reach_start.
  - vm_compute. reflexivity.
Qed.

Lemma working_run_reachable :
  reachable working_ports one_agent "How many orders?" "int" start
    (END, working_final, working_world).
Proof.
  apply (invoke_reachable working_ports one_agent "How many orders?" "int" start
           recursion_limit router (initial_state "How many orders?" "int") start).
  - apply reach_start.
  - vm_compute. reflexivity.
Qed.

(** A query that never executes: the run ends after two repairs, with the
    counter at 2 and the failure of the third execution in the state. *)
Example failing_run_ends_at_cap :
  repair_count failing_final = 2
  /\ succeeded (sql_results failing_final) = false
  /\ getitem (sql_results failing_final) "error"
     = Ok (PyStr "no such table: Orderz")
  /\ confidence failing_final = lit (3 # 10).
Proof. vm_compute. split_and!; reflexivity. Qed.

(** The repair counter changes in the repair node only. *)
Lemma step_repair_count {W} (P : Ports W) (self : HybridAgent) n st w n' st' w' :
  step P self n st w = (Ok (n', st'), w') ->
  repair_count st' = (if n is repair then repair_count st + 1 else repair_count st).
Proof.
  intros Hstep. apply step_inv in Hstep as (w1 & Hrun & _ & _).
  destruct n.
  - by apply run_router_inv in Hrun as [r ->].
  - by apply run_retriever_inv in Hrun as [docs ->].
  - by apply run_planner_inv in Hrun as [entry ->].
  - by apply run_nl_to_sql_inv in Hrun as [s ->].
  - by apply run_executor_inv in Hrun as [(_ & -> & _)|(_ & entry & ->)].
  - by apply run_synthesizer_inv in Hrun as (ok & a & e & c & conf & _ & _ & _ & ->).
  - by apply run_repair_inv in Hrun as (s & entry & e & _ & ->).
  - simpl in Hrun. by apply ret_inv in Hrun as [-> _].
Qed.

(** C2.  In every reachable configuration the repair counter is between
    0 and 2.  The repair node is reached only with a failed execution in
    the state and a counter below 2; a step changes the counter only by the
    one the repair node adds.  With the counter at 2 the executor's step
    goes to the synthesizer whatever the execution gave, the counter
    staying 2 and the result of that last execution being in the state.
    The synthesizer's step then ends the run, counter and result
    unchanged, whenever [json.dumps] accepts the rows, as it does those of
    an execution that failed, which has none; rows with a [bytes] value
    make it raise [TypeError] instead.  Neither way is there another
    repair. *)
Theorem repair_count_bounded {W} (P : Ports W) (self : HybridAgent)
    (q hint : string) (w0 : World W) (n : Node) (st : AgentState) (w : World W) :
  reachable P self q hint w0 (n, st, w) ->
  0 <= repair_count st <= 2
  /\ (n = repair ->
      repair_count st < 2
      /\ getitem (sql_results st) "success" = Ok (PyBool false)
      /\ succeeded (sql_results st) = false)
  /\ (forall n' st' w',
        step P self n st w = (Ok (n', st'), w') ->
        repair_count st' = (if n is repair then repair_count st + 1
                            else repair_count st))
  /\ (n = executor -> repair_count st = 2 ->
      exists st1 w1,
        step P self executor st w = (Ok (synthesizer, st1), w1)
        /\ repair_count st1 = 2
        /\ (sql st <> EmptyString ->
            sql_results st1 = SqliteTool.execute_query_result
                                (fst (sqlite P (sql st) (outside w))))
        /\ (succeeded (sql_results st1) = false ->
            dumpable (sql_results st1) = true)
        /\ (dumpable (sql_results st1) = true ->
            exists st2 w2,
              step P self synthesizer st1 w1 = (Ok (END, st2), w2)
              /\ repair_count st2 = 2
              /\ sql_results st2 = sql_results st1)
        /\ (dumpable (sql_results st1) = false ->
            step P self synthesizer st1 w1 = (Raise TypeError, w1))).
Proof.
  intros Hreach. pose proof (reachable_inv P self _ _ _ _ _ _ Hreach) as [Hrc Hn].
  split_and!.
  - lia.
  - lia.
  - intros ->. destruct Hn as [Hlt [msg ->]]. split_and!; [exact Hlt|reflexivity..].
  - intros n' st' w'. apply step_repair_count.
  - intros -> Hcap.
    destruct (step_executor_at_cap P self st w) as (st1 & w1 & H1 & Hc1 & _ & Hex & Hres);
      [lia|].
    exists st1, w1. split_and!; try done; try congruence.
    + by apply failed_dumpable.
    + intros Hdump.
      destruct (step_synthesizer_ok P self st1 w1 Hex Hdump)
        as (st2 & w2 & H2 & Hc2 & _ & Hres2).
      exists st2, w2. split_and!; try done; congruence.
    + by apply step_synthesizer_blob.
Qed.

Lemma repair_count_bounded_witness :
  0 <= repair_count failing_final <= 2.
Proof.
  destruct (repair_count_bounded failing_ports empty_agent "How many orders?" "int"
              start END failing_final failing_world failing_run_reachable)
    as (H1 & _).
  exact H1.
Defined.

(** C4.  Whenever [sql_results] is as the executor leaves it,
    [_calculate_confidence] returns the value of the formula: 0.5, plus 0.3
    if the execution succeeded with at least one row, plus the average
    retrieved score times 0.2 if any chunk was retrieved, minus 0.1 times
    the repair attempts, clamped to [0, 1] and rounded to two decimals, in
    binary64 arithmetic; the confidence of every final state of the
    workflow is that value; the value lies in [0, 1]; successful SQL with
    rows, one chunk at 0.9 and no repair give 0.98; two repairs without
    rows or retrieval give 0.3. *)
Theorem confidence_is_formula {W} (P : Ports W) (self : HybridAgent)
    (q hint : string) (w0 : World W) (st : AgentState) (w : World W) :
  let formula :=
    confidence_formula (succeeded_with_rows (sql_results st))
      (map score (retrieved_docs st)) (repair_count st) in
  (executed (sql_results st) -> _calculate_confidence st = Ok formula)
  /\ (reachable P self q hint w0 (END, st, w) -> confidence st = formula)
  /\ (0 <= formula <= 1)%Q
  /\ confidence_formula true [lit (9 # 10)] 0 = lit (98 # 100)
  /\ confidence_formula false [] 2 = lit (3 # 10).
Proof.
  intros formula.
  assert (Hex : executed (sql_results st) -> _calculate_confidence st = Ok formula).
  { intros Hex. destruct (executed_success _ Hex) as (b & rows & Hs & Hr).
    exact (calculate_confidence_eq st b rows Hs Hr). }
  split_and!.
  - exact Hex.
  - intros Hreach.
    destruct (final_state_outcome P self _ _ _ _ _ Hreach) as (Hd & Hconf & _).
    rewrite (Hex Hd) in Hconf. by injection Hconf.
  - apply confidence_formula_range.
  - apply confidence_formula_range.
  - vm_compute. reflexivity.
  - vm_compute. reflexivity.
Qed.

Lemma confidence_is_formula_witness :
  confidence working_final
  = confidence_formula (succeeded_with_rows (sql_results working_final))
      (map score (retrieved_docs working_final)) (repair_count working_final).
Proof.
  apply (proj1 (proj2 (confidence_is_formula working_ports one_agent
                         "How many orders?" "int" start working_final working_world))).
  exact working_run_reachable.
Defined.

(** The hybrid scenario, end to end: SQL that returns a row, one chunk at
    0.9, no repair. *)
Example working_run_confidence :
  confidence working_final = lit (98 # 100)
  /\ citations working_final = ["Orders"; "policy::chunk0"].
Proof. vm_compute. split; reflexivity. Qed.

(** What [_extract_citations] returns on a state that the executor has
    run on. *)
Lemma extract_citations_well_cited (st : AgentState) :
  well_cited st (elements (list_to_set (raw_citations st) : gset string)).
Proof.
  unfold well_cited. split_and!.
  - apply NoDup_elements.
  - intros c Hc. apply citations_spec. by left.
  - intros c [Hc|(Hok & Hsql & Ht & _)]%citations_spec; [by left|].
    right. done.
  - intros Hf c. rewrite citations_spec, Hf. intuition discriminate.
  - intros _ c. apply citations_spec.
Qed.

(** C5.  Whenever [sql_results] is as the executor leaves it,
    [_extract_citations] returns a list without duplicates, in which every
    retrieved chunk with a similarity above 0.1 is cited and in which
    whatever else is cited is a known table name, cited only when the SQL
    is not empty and its execution succeeded; without a successful
    execution it holds exactly the chunk identifiers; and for an SQL text
    of ASCII characters the tables cited are those whose name occurs in
    the upper-cased SQL.  The citations of every final state of the
    workflow are such a list. *)
Theorem citations_deduplicated {W} (P : Ports W) (self : HybridAgent)
    (q hint : string) (w0 : World W) (st : AgentState) (w : World W) :
  (executed (sql_results st) ->
   exists cites, _extract_citations st = Ok cites /\ well_cited st cites)
  /\ (reachable P self q hint w0 (END, st, w) -> well_cited st (citations st)).
Proof.
  assert (Hex : executed (sql_results st) ->
            _extract_citations st
            = Ok (elements (list_to_set (raw_citations st) : gset string))).
  { intros Hex. destruct (executed_success _ Hex) as (b & rows & Hs & _).
    exact (extract_citations_eq st _ Hs). }
  split.
  - intros Hd. eexists. split; [exact (Hex Hd)|].
    apply extract_citations_well_cited.
  - intros Hreach.
    destruct (final_state_outcome P self _ _ _ _ _ Hreach) as (Hd & _ & Hc).
    rewrite (Hex Hd) in Hc. injection Hc as <-.
    apply extract_citations_well_cited.
Qed.

Lemma citations_deduplicated_witness :
  well_cited working_final (citations working_final).
Proof.
  apply (proj2 (citations_deduplicated working_ports one_agent
                  "How many orders?" "int" start working_final working_world)).
  exact working_run_reachable.
Defined.

End WorkflowFacts.

(** * Properties of the rest of the code *)

(** ** More on strings *)

Module MoreTextFacts.

Import Text TextFacts.





Lemma lstrip_head (s : string) c r :
  lstrip s = String c r -> is_space c = false.
Proof.
  induction s as [|x s IH]; [discriminate|]. cbn [lstrip].
  destruct (is_space x) eqn:Hx; [exact IH|]. by intros [= <- _].
Qed.

(** A trimmed text that is not empty starts with a character that is not
    white space. *)
Lemma strip_head (s : string) c r :
  strip s = String c r -> is_space c = false.
Proof. apply lstrip_head. Qed.

Lemma length_app (a b : string) :
  String.length (a +:+ b) = (String.length a + String.length b)%nat.
Proof. induction a as [|x a IH]; norm; [done|]. by rewrite IH. Qed.

Lemma app_inj_l (a b c : string) : a +:+ b = a +:+ c -> b = c.
Proof.
  induction a as [|x a IH]; norm; [done|]. intros [= H]. by apply IH.
Qed.

End MoreTextFacts.

(** ** The document ranker, continued *)

Module MoreRetrievalFacts.

Import Retrieval RetrievalFacts Scenarios.

Lemma get_chunk_by_id_first (pre post : list Chunk) (c : Chunk) :
  (forall c', c' ∈ pre -> chunk_id c' <> chunk_id c) ->
  get_chunk_by_id_in (pre ++ c :: post) (chunk_id c) = chunk_content c.
Proof.
  induction pre as [|x pre IH]; intros Hpre; simpl.
  - by rewrite String.eqb_refl.
  - destruct (String.eqb_spec (chunk_id x) (chunk_id c)) as [He|_].
    + exfalso. apply (Hpre x); [left | done].
    + apply IH. intros c' Hc'. apply Hpre. by right.
Qed.

Lemma get_chunk_by_id_absent (cs : list Chunk) (cid : string) :
  (forall c, c ∈ cs -> chunk_id c <> cid) ->
  get_chunk_by_id_in cs cid = EmptyString.
Proof.
  induction cs as [|x cs IH]; intros Hcs; simpl; [done|].
  destruct (String.eqb_spec (chunk_id x) cid) as [He|_].
  - exfalso. apply (Hcs x); [left | done].
  - apply IH. intros c Hc. apply Hcs. by right.
Qed.

Lemma NoDup_ids_before (pre post : list Chunk) (c : Chunk) :
  NoDup (map chunk_id (pre ++ c :: post)) ->
  forall c', c' ∈ pre -> chunk_id c' <> chunk_id c.
Proof.
  rewrite map_app. intros Hnd c' Hc' Heq.
  apply NoDup_app in Hnd as (_ & Hdis & _).
  apply (Hdis (chunk_id c')).
  - apply list_elem_of_In, in_map, list_elem_of_In, Hc'.
  - rewrite Heq. simpl. left.
Qed.

Lemma get_chunk_by_id_nodup (r : Retriever) (c : Chunk) :
  NoDup (map chunk_id (chunks r)) -> c ∈ chunks r ->
  get_chunk_by_id r (chunk_id c) = chunk_content c.
Proof.
  unfold get_chunk_by_id. intros Hnd Hc.
  apply list_elem_of_split in Hc as (pre & post & Heq).
  rewrite Heq in *. apply get_chunk_by_id_first.
  by apply (NoDup_ids_before pre post).
Qed.

(** [get_chunk_by_id] gives the content of the first chunk that has the
    identifier, and the empty text when no chunk has it; when the
    identifiers of the corpus are pairwise distinct, every chunk is found
    under its own identifier. *)
Theorem get_chunk_by_id_lookup (r : Retriever) :
  (forall cid, (forall c, c ∈ chunks r -> chunk_id c <> cid) ->
               get_chunk_by_id r cid = EmptyString)
  /\ (forall pre c post,
        chunks r = pre ++ c :: post ->
        (forall c', c' ∈ pre -> chunk_id c' <> chunk_id c) ->
        get_chunk_by_id r (chunk_id c) = chunk_content c)
  /\ (NoDup (map chunk_id (chunks r)) ->
      forall c, c ∈ chunks r -> get_chunk_by_id r (chunk_id c) = chunk_content c).
Proof.
  unfold get_chunk_by_id. split_and!.
  - intros cid. apply get_chunk_by_id_absent.
  - intros pre c post ->. apply get_chunk_by_id_first.
  - intros Hnd c Hc. fold (get_chunk_by_id r (chunk_id c)).
    by apply get_chunk_by_id_nodup.
Qed.

Lemma tie_ids_distinct : NoDup (map chunk_id (chunks tie_retriever)).
Proof. apply (bool_decide_unpack _). by vm_compute. Qed.

Lemma get_chunk_by_id_lookup_witness :
  get_chunk_by_id tie_retriever "policy::chunk1" = "Refunds within 14 days"
  /\ get_chunk_by_id tie_retriever "policy::chunk7" = EmptyString.
Proof.
  destruct (get_chunk_by_id_lookup tie_retriever) as (Habs & _ & Hnd).
  split.
  - apply (Hnd tie_ids_distinct chunk1). set_solver.
  - apply Habs. intros c Hc.
    apply list_elem_of_In in Hc. simpl in Hc.
    destruct Hc as [<-|[<-|[]]]; discriminate.
Defined.

Lemma Forall2_elem_r {A B} (R : A -> B -> Prop) (l : list A) (k : list B) (y : B) :
  Forall2 R l k -> y ∈ k -> exists x, x ∈ l /\ R x y.
Proof.
  induction 1 as [|x y' l k Hxy HF IH]; intros Hy.
  - by apply elem_of_nil in Hy.
  - apply elem_of_cons in Hy as [->|Hy].
    + exists x. split; [left | done].
    + destruct (IH Hy) as (x' & Hx' & HR). exists x'. split; [by right | done].
Qed.

Lemma result_at_inv (r : Retriever) (sims : list Q) (idx : nat) (doc : Doc) :
  result_at r sims idx = Ok doc ->
  exists c, chunks r !! idx = Some c /\ sims !! idx = Some (score doc)
            /\ id doc = chunk_id c /\ content doc = chunk_content c
            /\ source doc = chunk_source c.
Proof.
  unfold result_at, list_get.
  destruct (chunks r !! idx) as [c|]; simpl; [|discriminate].
  destruct (sims !! idx) as [s|]; simpl; [|discriminate].
  intros [= <-]. exists c. done.
Qed.

Lemma search_inv (r : Retriever) (query : string) (top_k : Z) (docs : list Doc) :
  search r query top_k = Ok docs ->
  Forall2 (fun idx doc => result_at r (similarities r query) idx = Ok doc)
          (match chunks r with
           | [] => []
           | _ :: _ => top_indices (similarities r query) top_k
           end) docs.
Proof.
  unfold search, search_by. destruct (chunks r) as [|c cs].
  - intros [= <-]. constructor.
  - apply rmap_Forall2.
Qed.


Lemma results_distinct (r : Retriever) (sims : list Q) (idxs : list nat)
    (docs : list Doc) :
  NoDup (map chunk_id (chunks r)) -> NoDup idxs ->
  Forall2 (fun idx doc => result_at r sims idx = Ok doc) idxs docs ->
  NoDup (map id docs).
Proof.
  intros Hids Hnd HF. induction HF as [|i d idxs docs Hr HF IH]; simpl.
  - constructor.
  - apply NoDup_cons in Hnd as [Hi Hnd]. apply NoDup_cons. split; [|auto].
    intros Hin. apply list_elem_of_In, in_map_iff in Hin as (d' & Hid & Hd').
    apply list_elem_of_In in Hd'.
    apply result_at_inv in Hr as (c & Hc & _ & Hdc & _).
    destruct (Forall2_elem_r _ _ _ _ HF Hd') as (i' & Hi' & Hr').
    apply result_at_inv in Hr' as (c' & Hc' & _ & Hdc' & _).
    assert (i = i'); [|by subst].
    eapply NoDup_lookup; [exact Hids|..].
    + by rewrite list_lookup_fmap, Hc.
    + rewrite list_lookup_fmap, Hc'. simpl. congruence.
Qed.

(** Whenever [search] returns, every result is a chunk of the corpus with
    the similarity the query has to it: same identifier, content and
    source.  When the identifiers of the corpus are pairwise distinct, the
    results have pairwise distinct identifiers, and [get_chunk_by_id] on
    the identifier of a result gives the content of that result. *)
Theorem search_results_are_chunks (r : Retriever) (query : string) (top_k : Z)
    (docs : list Doc) :
  search r query top_k = Ok docs ->
  (forall doc, doc ∈ docs ->
     exists idx c,
       chunks r !! idx = Some c
       /\ similarities r query !! idx = Some (score doc)
       /\ id doc = chunk_id c /\ content doc = chunk_content c
       /\ source doc = chunk_source c)
  /\ (NoDup (map chunk_id (chunks r)) ->
      NoDup (map id docs)
      /\ forall doc, doc ∈ docs -> get_chunk_by_id r (id doc) = content doc).
Proof.
  intros Hs. pose proof (search_inv _ _ _ _ Hs) as HF.
  assert (Hall : forall doc, doc ∈ docs ->
            exists idx c,
              chunks r !! idx = Some c
              /\ similarities r query !! idx = Some (score doc)
              /\ id doc = chunk_id c /\ content doc = chunk_content c
              /\ source doc = chunk_source c).
  { intros doc Hd.
    destruct (Forall2_elem_r _ _ _ _ HF Hd) as (idx & _ & Hr).
    apply result_at_inv in Hr as (c & ?). eauto. }
  split; [exact Hall|]. intros Hids. split.
  - eapply results_distinct; [exact Hids| |exact HF].
    destruct (chunks r); [constructor | apply top_indices_NoDup].
  - intros doc Hd. destruct (Hall doc Hd) as (idx & c & Hc & _ & -> & -> & _).
    apply get_chunk_by_id_nodup; [exact Hids|]. by eapply list_elem_of_lookup_2.
Qed.

Lemma search_results_are_chunks_witness :
  NoDup (map id [doc1; doc0])
  /\ forall doc, doc ∈ [doc1; doc0] ->
       get_chunk_by_id tie_retriever (id doc) = content doc.
Proof.
  apply (proj2 (search_results_are_chunks tie_retriever "refunds" 2 [doc1; doc0]
                  eq_refl)).
  exact tie_ids_distinct.
Defined.



End MoreRetrievalFacts.

(** ** Loading the corpus *)

Module LoaderFacts.

Import Text TextFacts MoreTextFacts Retrieval RetrievalFacts Loader.

(** *** Chunk identifiers *)

Lemma str_of_uint_digits (d : Decimal.uint) :
  all_chars is_digit (NilEmpty.string_of_uint d) = true.
Proof. induction d; simpl; [done|..]; exact IHd. Qed.

Lemma str_of_nat_digits (i : nat) : all_chars is_digit (str_of_nat i) = true.
Proof. apply str_of_uint_digits. Qed.

Lemma str_of_nat_inj (i j : nat) : str_of_nat i = str_of_nat j -> i = j.
Proof.
  unfold str_of_nat. intros H. apply Unsigned.to_uint_inj.
  apply (f_equal NilEmpty.uint_of_string) in H.
  rewrite !NilEmpty.usu in H. by injection H.
Qed.

Lemma count_chars_app p (a b : string) :
  count_chars p (a +:+ b) = (count_chars p a + count_chars p b)%nat.
Proof. induction a as [|x a IH]; norm; [done|]. rewrite IH. lia. Qed.

Lemma count_chars_none p (s : string) :
  all_chars p s = true -> count_chars (fun c => negb (p c)) s = O.
Proof.
  induction s as [|c s IH]; simpl; [done|].
  intros [Hc Hs]%andb_true_iff. rewrite Hc. simpl. auto.
Qed.

Lemma count_chars_zero_head p c (s : string) :
  count_chars p (String c s) = O -> p c = false.
Proof. simpl. destruct (p c); [discriminate | done]. Qed.

Lemma chunk_id_split (s1 s2 d1 d2 : string) :
  all_chars is_digit d1 = true -> all_chars is_digit d2 = true ->
  s1 +:+ "::chunk" +:+ d1 = s2 +:+ "::chunk" +:+ d2 -> s1 = s2 /\ d1 = d2.
Proof.
  intros Hd1 Hd2.
  assert (Hcount : forall d, all_chars is_digit d = true ->
            count_chars (fun c => negb (is_digit c)) ("::chunk" +:+ d) = 7%nat).
  { intros d Hd. rewrite count_chars_app, (count_chars_none _ _ Hd). reflexivity. }
  assert (Hno : forall c s da db,
            all_chars is_digit da = true -> all_chars is_digit db = true ->
            "::chunk" +:+ da <> String c s +:+ "::chunk" +:+ db).
  { intros c s da db Hda Hdb Heq.
    pose proof (f_equal (count_chars (fun c => negb (is_digit c))) Heq) as Hc.
    rewrite (Hcount da Hda), count_chars_app, (Hcount db Hdb) in Hc.
    assert (Hz : count_chars (fun c => negb (is_digit c)) (String c s) = O) by lia.
    apply count_chars_zero_head in Hz. apply negb_false_iff in Hz.
    rewrite !app_cons in Heq. injection Heq as <- _. discriminate. }
  revert s2. induction s1 as [|c s1 IH]; intros [|c' s2] Heq.
  - rewrite !app_nil_l in Heq. apply app_inj_l in Heq. auto.
  - exfalso. rewrite app_nil_l in Heq. exact (Hno c' s2 d1 d2 Hd1 Hd2 Heq).
  - exfalso. rewrite app_nil_l in Heq. exact (Hno c s1 d2 d1 Hd2 Hd1 (eq_sym Heq)).
  - rewrite !app_cons in Heq. injection Heq as -> Heq.
    destruct (IH _ Heq) as [-> ->]. done.
Qed.

(** The text before ["::chunk"] and the index after it can be read back
    from an identifier. *)
Lemma chunk_id_of_inj (s1 s2 : string) (i j : nat) :
  chunk_id_of s1 i = chunk_id_of s2 j -> s1 = s2 /\ i = j.
Proof.
  unfold chunk_id_of. intros H.
  apply chunk_id_split in H as [-> H]; try apply str_of_nat_digits.
  split; [done|]. by apply str_of_nat_inj.
Qed.

(** *** The chunks of a file *)


Lemma chunks_of_file_ids (filename content : string) :
  map chunk_id (chunks_of_file filename content)
  = map (chunk_id_of (source_name_of filename)) (seq 0 (length (paragraphs content))).
Proof.
  unfold chunks_of_file.
  change (map chunk_id ?l) with (chunk_id <$> l).
  rewrite fmap_imap.
  exact (imap_seq_0 (paragraphs content) (chunk_id_of (source_name_of filename))).
Qed.

Lemma load_documents_cons (f : string * string) (files : list (string * string)) :
  load_documents (f :: files)
  = (if endswith ".md" (fst f) then chunks_of_file (fst f) (snd f) else [])
    ++ load_documents files.
Proof. reflexivity. Qed.

Lemma load_documents_elem (files : list (string * string)) (c : Chunk) :
  c ∈ load_documents files <->
  exists filename content i para,
    (filename, content) ∈ files /\ is_markdown filename
    /\ paragraphs content !! i = Some para
    /\ c = make_chunk (source_name_of filename) i para.
Proof.
  unfold is_markdown. induction files as [|[fn ct] files IH].
  - split; [by intros ?%elem_of_nil|].
    by intros (? & ? & ? & ? & ?%elem_of_nil & _).
  - rewrite load_documents_cons, elem_of_app, IH. simpl. split.
    + intros [Hc|(fn' & ct' & i & para & Hin & Hrest)].
      * destruct (endswith ".md" fn) eqn:Hmd; [|by apply elem_of_nil in Hc].
        apply elem_of_lookup_imap in Hc as (i & para & -> & Hp).
        exists fn, ct, i, para. split_and!; try done. left.
      * exists fn', ct', i, para. split; [by right | done].
    + intros (fn' & ct' & i & para & Hin & Hmd & Hp & ->).
      apply elem_of_cons in Hin as [[= -> ->]|Hin].
      * left. rewrite Hmd.
        exact (elem_of_lookup_imap_2 (make_chunk (source_name_of fn)) _ para i Hp).
      * right. exists fn', ct', i, para. done.
Qed.

Import MoreScenarios.

(** [Retriever.__init__] returns the retriever of [Retriever_init], or
    raises on chunks in which scikit-learn finds no word. *)
Lemma Retriever_new_cases (vocabulary : list string -> bool)
    (tfidf : list string -> string -> list Q) (files : list (string * string)) :
  (forall r, Retriever_new vocabulary tfidf files = Ok r -> r = Retriever_init tfidf files)
  /\ (forall e, Retriever_new vocabulary tfidf files = Raise e ->
                e = ValueError
                /\ load_documents files <> []
                /\ vocabulary (map chunk_content (load_documents files)) = false)
  /\ (load_documents files = [] ->
      Retriever_new vocabulary tfidf files = Ok (Retriever_init tfidf files)).
Proof.
  unfold Retriever_new. split_and!.
  - intros r. destruct (load_documents files) as [|c cs]; [congruence|].
    destruct (vocabulary _); congruence.
  - intros e. destruct (load_documents files) as [|c cs]; [discriminate|].
    destruct (vocabulary _) eqn:Hv; [discriminate|].
    intros [= <-]. done.
  - by intros ->.
Qed.




Lemma NoDup_chunks_of_file (filename content : string) :
  NoDup (map chunk_id (chunks_of_file filename content)).
Proof.
  rewrite chunks_of_file_ids.
  apply (NoDup_fmap_2_strong _ (seq 0 (length (paragraphs content)))).
  - intros i j _ _ H. by apply chunk_id_of_inj in H as [_ ?].
  - apply NoDup_seq.
Qed.

Lemma NoDup_load_documents (files : list (string * string)) :
  NoDup (map source_name_of (filter is_markdown (map fst files))) ->
  NoDup (map chunk_id (load_documents files)).
Proof.
  induction files as [|[fn ct] files IH]; intros Hnd; [constructor|].
  rewrite load_documents_cons, map_app. cbn [fst snd map] in *.
  rewrite filter_cons in Hnd. unfold is_markdown in Hnd at 1.
  destruct (decide (endswith ".md" fn = true)) as [Hmd|Hmd].
  - cbn [map] in Hnd. apply NoDup_cons in Hnd as [Hfresh Hnd].
    rewrite Hmd. apply NoDup_app. split_and!.
    + apply NoDup_chunks_of_file.
    + intros x Hx Hx'.
      apply list_elem_of_In, in_map_iff in Hx as (c & <- & Hc).
      apply list_elem_of_In, elem_of_lookup_imap in Hc as (i & para & -> & _).
      apply list_elem_of_In, in_map_iff in Hx' as (c' & Heq & Hc').
      apply list_elem_of_In, load_documents_elem in Hc'
        as (fn' & ct' & j & para' & Hin & Hmd' & _ & ->).
      apply chunk_id_of_inj in Heq as [Heq _].
      apply Hfresh. rewrite <- Heq.
      apply list_elem_of_In, in_map, list_elem_of_In, list_elem_of_filter.
      split; [exact Hmd'|].
      apply list_elem_of_In, in_map_iff. exists (fn', ct'). split; [done|].
      by apply list_elem_of_In.
    + by apply IH.
  - destruct (endswith ".md" fn); [done|]. simpl. by apply IH.
Qed.

(** The identifiers of the chunks of one file are pairwise distinct; so
    are those of the whole corpus when no two markdown files have the same
    name once [.md] is removed, and then [get_chunk_by_id] finds every
    chunk of the corpus under its identifier. *)
Theorem loaded_ids_distinct (tfidf : list string -> string -> list Q)
    (files : list (string * string)) :
  (forall filename content, NoDup (map chunk_id (chunks_of_file filename content)))
  /\ (NoDup (map source_name_of (filter is_markdown (map fst files))) ->
      NoDup (map chunk_id (load_documents files))
      /\ forall c, c ∈ load_documents files ->
            get_chunk_by_id (Retriever_init tfidf files) (chunk_id c)
            = chunk_content c).
Proof.
  split; [apply NoDup_chunks_of_file|]. intros Hnd.
  pose proof (NoDup_load_documents files Hnd) as Hids.
  split; [exact Hids|]. intros c Hc.
  by apply MoreRetrievalFacts.get_chunk_by_id_nodup.
Qed.

Lemma loaded_ids_distinct_witness :
  NoDup (map chunk_id (load_documents docs_dir))
  /\ forall c, c ∈ load_documents docs_dir ->
       get_chunk_by_id (Retriever_init flat_tfidf docs_dir) (chunk_id c)
       = chunk_content c.
Proof.
  apply (proj2 (loaded_ids_distinct flat_tfidf docs_dir)).
  apply (bool_decide_unpack _). by vm_compute.
Defined.





End LoaderFacts.

(** ** agent/tools/sqlite_tool.py *)

Module SqliteFacts.

Import SqliteTool Scenarios.

Lemma py_dict_snoc {V} (pairs : list (string * V)) (k : string) (v : V) :
  py_dict (pairs ++ [(k, v)]) = <[k := v]> (py_dict pairs).
Proof. unfold py_dict. by rewrite foldl_snoc. Qed.

(** [dict(pairs)[k]] is the value of the last pair whose key is [k]. *)
Lemma py_dict_lookup {V} (pairs : list (string * V)) (k : string) (v : V) :
  py_dict pairs !! k = Some v <->
  exists i, pairs !! i = Some (k, v)
            /\ forall j p, (i < j)%nat -> pairs !! j = Some p -> p.1 <> k.
Proof.
  induction pairs as [|[k' v'] pairs IH] using rev_ind.
  - unfold py_dict. simpl. rewrite lookup_empty. split; [done|].
    intros (i & Hi & _). by rewrite lookup_nil in Hi.
  - rewrite py_dict_snoc. destruct (decide (k' = k)) as [->|Hne].
    + rewrite lookup_insert_eq. split.
      * intros [= ->]. exists (length pairs). split.
        -- by rewrite list_lookup_middle.
        -- intros j p Hj Hp. apply lookup_lt_Some in Hp.
           rewrite length_app in Hp. simpl in Hp. lia.
      * intros (i & Hi & Hlast).
        destruct (decide (i = length pairs)) as [->|Hi'].
        -- rewrite list_lookup_middle in Hi by done. by injection Hi as ->.
        -- exfalso. apply (Hlast (length pairs) (k, v')).
           ++ apply lookup_lt_Some in Hi. rewrite length_app in Hi. simpl in Hi. lia.
           ++ by rewrite list_lookup_middle.
           ++ done.
    + rewrite lookup_insert_ne by done. rewrite IH. split.
      * intros (i & Hi & Hlast). exists i. split; [by apply lookup_app_l_Some|].
        intros j p Hj Hp. apply lookup_app_Some in Hp as [Hp|[Hlen Hp]];
          [by eapply Hlast|].
        destruct (j - length pairs)%nat; simplify_eq/=. done.
      * intros (i & Hi & Hlast). apply lookup_app_Some in Hi as [Hi|[Hlen Hi]].
        -- exists i. split; [done|]. intros j p Hj Hp.
           apply (Hlast j p Hj). by apply lookup_app_l_Some.
        -- destruct (i - length pairs)%nat; simplify_eq/=.
Qed.

Lemma py_dict_keys {V} (pairs : list (string * V)) (k : string) :
  is_Some (py_dict pairs !! k) <-> k ∈ pairs.*1.
Proof.
  induction pairs as [|[k' v'] pairs IH] using rev_ind.
  - unfold py_dict. simpl. rewrite lookup_empty, elem_of_nil.
    split; [by intros [? ?] | done].
  - rewrite py_dict_snoc, fmap_app, elem_of_app. simpl.
    rewrite list_elem_of_singleton, <- IH.
    destruct (decide (k' = k)) as [->|Hne].
    + rewrite lookup_insert_eq. split; [by right | by eexists].
    + rewrite lookup_insert_ne by done. split; [by left|].
      by intros [?|?].
Qed.

(** Rows without a BLOB value are rows that [json.dumps] accepts. *)
Lemma blob_free_dumpable (o : Outcome) :
  Orchestration.blob_free o = true -> Graph.dumpable (execute_query_result o) = true.
Proof.
  destruct o as [desc rows|msg]; [|reflexivity]. simpl. intros Hfree.
  change (Graph.dumpable _) with
    (forallb (fun row => forallb (fun kv => negb (Graph.is_blob kv.2))
                                 (map_to_list row))
       (map (fun row => py_dict (zip (match desc with
                                      | Some names => names
                                      | None => []
                                      end) row)) rows)).
  apply forallb_forall. intros d Hd. apply in_map_iff in Hd as (row & <- & Hrow).
  apply forallb_forall. intros [k v] Hkv.
  apply list_elem_of_In, elem_of_map_to_list, py_dict_lookup in Hkv
    as (i & Hi & _).
  apply lookup_zip_with_Some in Hi as (k' & v' & [= <- <-] & _ & Hv).
  rewrite forallb_forall in Hfree. specialize (Hfree row Hrow).
  rewrite forallb_forall in Hfree. apply Hfree.
  apply list_elem_of_In. by eapply list_elem_of_lookup_2.
Qed.

(** The rows that [execute_query] returns for a query that has run: one
    dict per fetched row, in the order of the rows.  The keys of a dict
    are the names of the columns that the row has a value for; under the
    name of a column the dict holds the value of the row at the last
    column of that name, so that each column is found under its name when
    the names are pairwise distinct. *)
Theorem fetched_rows_by_column (columns : list string) (rows : list (list SqlValue)) :
  exists dicts,
    execute_query_result (Fetched (Some columns) rows) !! "rows" = Some (PyRows dicts)
    /\ length dicts = length rows
    /\ forall r row d, rows !! r = Some row -> dicts !! r = Some d ->
         (forall k, is_Some (d !! k) <->
                    exists i, (i < length row)%nat /\ columns !! i = Some k)
         /\ (forall i k v,
               columns !! i = Some k -> row !! i = Some v ->
               (forall j, (i < j < length row)%nat -> columns !! j <> Some k) ->
               d !! k = Some v)
         /\ (NoDup columns ->
             forall i k v, columns !! i = Some k -> row !! i = Some v ->
                           d !! k = Some v).
Proof.
  exists (map (fun row => py_dict (zip columns row)) rows).
  split; [reflexivity|]. split; [apply length_map|].
  intros r row d Hrow Hd. rewrite list_lookup_fmap, Hrow in Hd.
  injection Hd as <-.
  assert (Hlast : forall i k v,
            columns !! i = Some k -> row !! i = Some v ->
            (forall j, (i < j < length row)%nat -> columns !! j <> Some k) ->
            py_dict (zip columns row) !! k = Some v).
  { intros i k v Hk Hv Hno. apply py_dict_lookup. exists i. split.
    - apply lookup_zip_with_Some. eauto.
    - intros j [k' v'] Hj Hp. apply lookup_zip_with_Some in Hp
        as (k'' & v'' & [= <- <-] & Hk' & Hv').
      simpl. intros ->. apply (Hno j); [|done].
      apply lookup_lt_Some in Hv'. lia. }
  split_and!.
  - intros k. rewrite py_dict_keys. split.
    + intros Hin. apply list_elem_of_fmap in Hin as ([k' v'] & -> & Hin).
      apply list_elem_of_lookup in Hin as [i Hi].
      apply lookup_zip_with_Some in Hi as (k'' & v'' & [= <- <-] & Hk & Hv).
      exists i. split; [by eapply lookup_lt_Some | done].
    + intros (i & Hi & Hk).
      destruct (lookup_lt_is_Some_2 row i Hi) as [v Hv].
      apply list_elem_of_fmap. exists (k, v). split; [done|].
      apply list_elem_of_lookup. exists i. apply lookup_zip_with_Some. eauto.
  - exact Hlast.
  - intros Hnd i k v Hk Hv. apply (Hlast i k v Hk Hv).
    intros j Hj Hk'. pose proof (NoDup_lookup _ _ _ _ Hnd Hk Hk'). lia.
Qed.

Lemma fetched_rows_by_column_witness :
  exists dicts,
    execute_query_result
      (Fetched (Some ["OrderID"; "Freight"]) [[SqlInt 10248; SqlInt 32]]) !! "rows"
    = Some (PyRows dicts)
    /\ length dicts = 1%nat
    /\ forall d, dicts !! 0%nat = Some d -> d !! "Freight" = Some (SqlInt 32).
Proof.
  destruct (fetched_rows_by_column ["OrderID"; "Freight"] [[SqlInt 10248; SqlInt 32]])
    as (dicts & Hrows & Hlen & Hall).
  exists dicts. split_and!; [exact Hrows | exact Hlen |].
  intros d Hd.
  destruct (Hall 0%nat [SqlInt 10248; SqlInt 32] d eq_refl Hd) as (_ & _ & Hnd).
  refine (Hnd _ 1%nat "Freight" (SqlInt 32) eq_refl eq_refl).
  apply (bool_decide_unpack _). by vm_compute.
Defined.

End SqliteFacts.

(** ** agent/graph_hybrid.py: runs that return *)

Module MoreWorkflowFacts.

Import Text TextFacts PyFloat PyFloatFacts Signatures Graph Scenarios.
Import Calls Orchestration.
Import RetrievalFacts PostProcessorFacts WorkflowFacts SqliteFacts.

Lemma normalize_route_cases (label : string) :
  normalize_route label = "hybrid" \/ normalize_route label = "sql"
  \/ normalize_route label = "rag".
Proof.
  unfold normalize_route.
  destruct (contains "hybrid" _); [auto|].
  destruct (contains "sql" _); [auto|].
  destruct (contains "rag" _); auto.
Qed.

Section Progress.

Context {W : Type} (P : Ports W) (self : HybridAgent).

Lemma step_planner_sql st w :
  route st = "sql" \/ route st = "hybrid" ->
  exists entry,
    step P self planner st w = (Ok (nl_to_sql, append_trace entry st), w).
Proof.
  intros Hr.
  exists (TrPlanner (count_matches date_pattern (doc_context_of (retrieved_docs st)) O)
            (route st)).
  unfold step, run_node, _planner_node, bind, ret, lift.
  simpl. unfold _should_query_sql. simpl.
  destruct Hr as [Hr|Hr]; rewrite Hr; reflexivity.
Qed.

Lemma step_nl_to_sql_ok st w :
  exists st1 w1, step P self nl_to_sql st w = (Ok (executor, st1), w1).
Proof.
  unfold step, run_node, _nl_to_sql_node, NLToSQL_forward.
  rewrite !bind_assoc, (bind_ok _ _ _ _ _ (call_run _ _ _)).
  match goal with |- context [clean_sql ?raw] =>
    destruct (clean_sql_ok raw) as [s Hs]; rewrite Hs end.
  eexists _, _. reflexivity.
Qed.

Lemma next_executor_ok st :
  executed (sql_results st) -> exists n', next_node executor st = Ok n'.
Proof.
  intros Hex. simpl. unfold _should_repair.
  destruct (2 <=? repair_count st); [by eexists|].
  destruct (executed_success _ Hex) as (b & rows & -> & _).
  destruct b; by eexists.
Qed.

Lemma step_executor_ok st w :
  exists n' st1 w1, step P self executor st w = (Ok (n', st1), w1).
Proof.
  unfold step, run_node.
  destruct (String.eqb_spec (sql st) EmptyString) as [He|Hne].
  - destruct (next_executor_ok (set_sql_results noop_result st)) as [n' Hn];
      [by left|].
    exists n', (set_sql_results noop_result st), w.
    unfold _executor_node. rewrite He. simpl String.eqb. cbv iota.
    rewrite bind_ret. fold noop_result. unfold bind, lift. by rewrite Hn.
  - destruct (executor_node_run P st w Hne) as [entry Hrun].
    rewrite (bind_ok _ _ _ _ _ Hrun).
    match goal with |- context [next_node executor ?s] =>
      destruct (next_executor_ok s) as [n' Hn]; [right; simpl; eauto|];
      exists n', s end.
    eexists. unfold bind, lift. by rewrite Hn.
Qed.

Lemma step_repair_ok st w :
  (exists msg, sql_results st
               = SqliteTool.execute_query_result (SqliteTool.Failed msg)) ->
  exists st1 w1, step P self repair st w = (Ok (executor, st1), w1).
Proof.
  intros [msg Hres]. unfold step, run_node, _repair_node, SQLRepair_forward.
  cbn [sql_results set_repair_count]. rewrite Hres.
  change (getitem (SqliteTool.execute_query_result (SqliteTool.Failed msg)) "error")
    with (Ok (PyStr msg)).
  rewrite !bind_assoc, bind_lift_ok, !bind_assoc.
  rewrite (bind_ok _ _ _ _ _ (call_run _ _ _)).
  match goal with |- context [clean_sql ?raw] =>
    destruct (clean_sql_ok raw) as [s Hs]; rewrite Hs end.
  eexists _, _. reflexivity.
Qed.

Lemma step_retriever_ok st w :
  loaded (agent_retriever self) ->
  exists st1, step P self retriever st w = (Ok (planner, st1), w).
Proof.
  intros Hl. destruct (search_ok (agent_retriever self) (question st) 3 Hl)
    as (docs & Hs & _).
  eexists. by apply step_retriever_run.
Qed.

Lemma fetched_by_executed d : fetched_by P d -> executed d.
Proof. intros [->|(sql_text & o & ->)]; [by left | right; eauto]. Qed.

Lemma fetched_by_blob d :
  fetched_by P d -> dumpable d = false ->
  exists sql_text o, blob_free (fst (sqlite P sql_text o)) = false.
Proof.
  intros [->|(sql_text & o & ->)] Hd; [discriminate|].
  exists sql_text, o.
  destruct (blob_free (fst (sqlite P sql_text o))) eqn:E; [|done].
  by rewrite (blob_free_dumpable _ E) in Hd.
Qed.

Lemma progress n st w :
  loaded (agent_retriever self) -> on_sql_path P n st -> n <> END ->
  n <> synthesizer ->
  exists n' st' w', step P self n st w = (Ok (n', st'), w').
Proof.
  intros Hl [[_ Hinv] Hpath] Hne Hns. destruct n; try done.
  - eexists _, _, _. apply step_router_run.
  - destruct (step_retriever_ok st w Hl) as [st1 H]. eauto.
  - destruct (step_planner_sql st w Hpath) as [entry H]. eauto.
  - destruct (step_nl_to_sql_ok st w) as (st1 & w1 & H). eauto.
  - apply step_executor_ok.
  - destruct Hinv as [_ Hmsg].
    destruct (step_repair_ok st w Hmsg) as (st1 & w1 & H). eauto.
Qed.

Lemma on_sql_path_preserved n st w n' st' w' :
  on_sql_path P n st -> n <> router ->
  step P self n st w = (Ok (n', st'), w') -> on_sql_path P n' st'.
Proof.
  intros [Hinv Hpath] Hne Hstep.
  split; [by eapply step_preserves|].
  pose proof (step_preserves P self _ _ _ _ _ _ Hinv Hstep) as [_ Hinv'].
  apply step_inv in Hstep as (w1 & Hrun & Hnext & ->).
  destruct n; try done.
  - apply run_retriever_inv in Hrun as [docs ->]. injection Hnext as <-. exact Hpath.
  - apply run_planner_inv in Hrun as [entry ->].
    simpl in Hnext. unfold _should_query_sql in Hnext. simpl in Hnext.
    destruct Hpath as [Hr|Hr]; rewrite Hr in Hnext; by injection Hnext as <-.
  - by injection Hnext as <-.
  - apply next_executor_inv in Hnext as [[-> _]|(-> & _)]; [|done].
    simpl. apply run_executor_inv in Hrun as [(_ & -> & _)|(_ & entry & ->)].
    + by left.
    + right. simpl. eauto.
  - by injection Hnext as <-.
  - by injection Hnext as <-.
  - by injection Hnext as <-.
Qed.

Lemma steps_left_decreases n st w n' st' w' :
  Inv n st -> n <> END ->
  step P self n st w = (Ok (n', st'), w') ->
  (steps_left n' st' < steps_left n st)%nat.
Proof.
  intros [Hrc Hinv] Hne Hstep.
  pose proof (step_repair_count P self _ _ _ _ _ _ Hstep) as Hcount.
  apply step_inv in Hstep as (w1 & _ & Hnext & _).
  destruct n; try done.
  - injection Hnext as <-. simpl. lia.
  - injection Hnext as <-. simpl. lia.
  - apply next_planner_inv in Hnext as [-> | ->]; simpl; lia.
  - injection Hnext as <-. unfold steps_left. rewrite Hcount, Hinv. simpl. lia.
  - apply next_executor_inv in Hnext as [[-> _]|(-> & Hlt & _)];
      unfold steps_left; rewrite ?Hcount; lia.
  - injection Hnext as <-. simpl. lia.
  - injection Hnext as <-. destruct Hinv as [Hlt _].
    unfold steps_left. rewrite Hcount. lia.
Qed.

(** From a node of the SQL path [graph.invoke] comes to an end within
    the steps that are left: it returns, or [json.dumps] has raised on
    rows that hold a BLOB value. *)
Lemma invoke_outcome limit n st w :
  loaded (agent_retriever self) -> on_sql_path P n st -> n <> router ->
  (steps_left n st <= limit)%nat ->
  exists r w',
    invoke P self limit n st w = (r, w')
    /\ ((exists st', r = Ok st')
        \/ (r = Raise TypeError
            /\ exists sql_text o, blob_free (fst (sqlite P sql_text o)) = false)).
Proof.
  intros Hl. revert n st w.
  induction limit as [|limit IH]; intros n st w Hpath Hnr Hle.
  - destruct n; simpl in Hle; try lia. eexists _, _. split; [reflexivity|].
    left. by eexists.
  - assert (Hend : n = END \/ n <> END) by (destruct n; auto; by right).
    destruct Hend as [->|Hne].
    { eexists _, _. split; [reflexivity|]. left. by eexists. }
    assert (Hsyn : n = synthesizer \/ n <> synthesizer)
      by (destruct n; auto; by right).
    destruct Hsyn as [->|Hns].
    + destruct Hpath as [_ Hfetched]. simpl in Hfetched.
      pose proof (fetched_by_executed _ Hfetched) as Hex.
      destruct (dumpable (sql_results st)) eqn:Hd.
      * destruct (step_synthesizer_ok P self st w Hex Hd) as (st2 & w2 & Hstep & _).
        rewrite invoke_step, (bind_ok _ _ _ _ _ Hstep) by discriminate.
        cbn [fst snd]. eexists _, _. split; [by destruct limit|].
        left. by eexists.
      * rewrite invoke_step by discriminate.
        rewrite (bind_raise _ _ _ _ _ (step_synthesizer_blob P self st w Hex Hd)).
        eexists _, _. split; [reflexivity|]. right. split; [done|].
        by eapply fetched_by_blob.
    + destruct (progress n st w Hl Hpath Hne Hns) as (n' & st' & w' & Hstep).
      rewrite invoke_step, (bind_ok _ _ _ _ _ Hstep) by exact Hne. cbn [fst snd].
      apply IH.
      * by eapply on_sql_path_preserved.
      * intros ->. apply step_inv in Hstep as (_ & _ & Hnext & _).
        destruct n; try done; simpl in Hnext.
        -- by apply next_planner_inv in Hnext as [|].
        -- by apply next_executor_inv in Hnext as [[? _]|[? _]].
      * destruct Hpath as [Hinv _].
        pose proof (steps_left_decreases _ _ _ _ _ _ Hinv Hne Hstep). lia.
Qed.


End Progress.

(** *** The calls of a step *)

Lemma dumps_inv {W A} (b : bool) (a r : A) (e : exn) (w w' : World W) :
  (if b then ret a else raise e) w = (Ok r, w') -> b = true /\ r = a /\ w' = w.
Proof. destruct b; [|discriminate]. by intros [= <- <-]. Qed.

Ltac dumps :=
  repeat match goal with
  | H : (if json_serializable _ then _ else _) _ = (Ok _, _) |- _ =>
      apply dumps_inv in H as (? & ? & ?); subst
  end.

Lemma count_app (p : Call -> bool) (l k : list Call) :
  count p (l ++ k) = (count p l + count p k)%nat.
Proof. unfold count. by rewrite List.filter_app, length_app. Qed.

Lemma count_kinds (l : list Call) :
  length l = (count is_route l + count is_generate l + count is_repair l
              + count is_synthesize l + count is_execute l)%nat.
Proof.
  induction l as [|c l IH]; [done|].
  change (c :: l) with ([c] ++ l). rewrite !count_app, length_app, IH.
  destruct c; simpl; lia.
Qed.

Section Ledger.

Context {W : Type} (P : Ports W) (self : HybridAgent).

Lemma run_node_calls n st w st' w' :
  run_node P self n st w = (Ok st', w') ->
  exists made, calls w' = calls w ++ made /\ node_calls self n st made.
Proof.
  destruct n; simpl.
  - unfold _route_node, Router_forward. intros H. minv. simpl. eauto.
  - unfold _retriever_node. intros H. minv. exists []. by rewrite app_nil_r.
  - unfold _planner_node. intros H. minv. exists []. by rewrite app_nil_r.
  - unfold _nl_to_sql_node, NLToSQL_forward. intros H. minv. simpl. eauto.
  - unfold _executor_node.
    destruct (String.eqb (sql st) EmptyString).
    + intros H. minv. exists []. by rewrite app_nil_r.
    + unfold execute_query. intros H. minv.
      match goal with H : (if truthy ?v then _ else _) _ = _ |- _ =>
        destruct (truthy v) end; minv; simpl; eauto.
  - unfold _synthesizer_node, Synthesizer_forward. intros H. minv.
    match goal with H : (if truthy ?v then _ else _) _ = _ |- _ =>
      destruct (truthy v) end; minv; dumps; minv; simpl; eauto.
  - unfold _repair_node, SQLRepair_forward. intros H. minv. simpl. eauto.
  - intros H. minv. exists []. by rewrite app_nil_r.
Qed.

Lemma ledger_preserved n st w n' st' w' made delta :
  Inv n st -> ledger n st made -> node_calls self n st delta ->
  step P self n st w = (Ok (n', st'), w') ->
  ledger n' st' (made ++ delta).
Proof.
  intros [Hrc Hinv] (Hroute & Hsyn & Hrep & Hrest) Hdelta Hstep.
  pose proof (step_repair_count P self _ _ _ _ _ _ Hstep) as Hcount.
  apply step_inv in Hstep as (w1 & Hrun & Hnext & ->).
  unfold ledger. rewrite !count_app, Hcount. unfold count in *.
  destruct n; simpl in Hdelta.
  - injection Hnext as <-. subst delta. simpl. lia.
  - injection Hnext as <-. subst delta. simpl. lia.
  - subst delta. apply run_planner_inv in Hrun as [entry ->].
    apply next_planner_inv in Hnext as [-> | ->]; simpl; [lia|].
    split_and!; try lia. right. apply Hinv.
  - injection Hnext as <-. subst delta. simpl. lia.
  - apply next_executor_inv in Hnext as [[-> _]|(-> & _)]; subst delta;
      destruct (String.eqb (sql st) EmptyString); simpl; split_and!; try lia;
      left; lia.
  - injection Hnext as <-. destruct Hdelta as (d & r & ->).
    apply run_synthesizer_inv in Hrun as (ok & _ & _ & _ & _ & Hok & _).
    destruct Hrest as [Hrest|Hempty]; [simpl; lia|].
    rewrite Hempty in Hok. discriminate.
  - injection Hnext as <-. destruct Hdelta as (e & _ & ->). simpl. lia.
  - injection Hnext as <-. subst delta. simpl. lia.
Qed.

Lemma reachable_ledger q hint w0 n st w :
  reachable P self q hint w0 (n, st, w) ->
  exists made, calls w = calls w0 ++ made /\ ledger n st made.
Proof.
  intros H. remember (n, st, w) as c eqn:Hc. revert n st w Hc.
  induction H as [|n1 st1 w1 n2 st2 w2 Hreach IH Hne Hstep];
    intros n st w Heq; simplify_eq.
  - exists []. split; [by rewrite app_nil_r|]. by split_and!.
  - destruct (IH _ _ _ eq_refl) as (made & Hcalls & Hled).
    pose proof (reachable_inv P self _ _ _ _ _ _ Hreach) as Hinv.
    pose proof Hstep as Hstep'.
    apply step_inv in Hstep' as (w1' & Hrun & _ & ->).
    apply run_node_calls in Hrun as (delta & Hw & Hdelta).
    exists (made ++ delta). split.
    + by rewrite Hw, Hcalls, <- List.app_assoc.
    + by eapply ledger_preserved.
Qed.

(** *** The fields that are written once *)



Lemma run_inv q hint w res w' :
  run P self q hint w = (Ok res, w') ->
  exists st,
    reachable P self q hint w (END, st, w')
    /\ res = {| res_final_answer := final_answer st; res_sql := sql st;
                res_confidence := confidence st; res_explanation := explanation st;
                res_citations := citations st; res_trace := trace st |}.
Proof.
  unfold run. intros H. minv. eexists. split; [|reflexivity].
  eapply (invoke_reachable P self q hint w recursion_limit router); [|eassumption].
  apply reach_start.
Qed.

Lemma final_state_ranges q hint w0 st w :
  reachable P self q hint w0 (END, st, w) ->
  (0 <= confidence st <= 1)%Q /\ NoDup (citations st).
Proof.
  intros H. destruct (final_state_outcome P self _ _ _ _ _ H) as (Hex & Hconf & Hc).
  destruct (executed_success _ Hex) as (b & rows & Hs & Hr).
  rewrite (calculate_confidence_eq st b rows Hs Hr) in Hconf.
  rewrite (extract_citations_eq st _ Hs) in Hc.
  injection Hconf as <-. injection Hc as <-.
  split; [apply confidence_formula_range | apply NoDup_elements].
Qed.

(** *** The trace *)



(** *** The last step *)






End Ledger.

Import MoreScenarios.

(** When the router answers [sql] or [hybrid] and the retriever holds one
    similarity per chunk, the graph comes to its end within ten steps, so
    that the recursion limit of 25 steps does not stop it, and no node
    raises but the synthesizer on rows that [json.dumps] refuses: [run]
    returns a result, or it raises [TypeError] and the database has given
    a BLOB value.  So [run] returns whenever the database gives no BLOB
    value.  The confidence of a result lies in [0, 1] and its citations
    have no duplicates. *)
Theorem run_returns_on_sql_routes {W} (P : Ports W) (self : HybridAgent)
    (q hint : string) (w : World W) :
  loaded (agent_retriever self) ->
  normalize_route (fst (lm_route P q (outside w))) <> "rag" ->
  (forall limit, (10 <= limit)%nat ->
     exists r w',
       invoke P self limit router (initial_state q hint) w = (r, w')
       /\ ((exists st', r = Ok st')
           \/ (r = Raise TypeError
               /\ exists sql_text o, blob_free (fst (sqlite P sql_text o)) = false)))
  /\ (exists r w',
        run P self q hint w = (r, w')
        /\ ((exists res, r = Ok res
                         /\ (0 <= res_confidence res <= 1)%Q
                         /\ NoDup (res_citations res))
            \/ (r = Raise TypeError
                /\ exists sql_text o, blob_free (fst (sqlite P sql_text o)) = false)))
  /\ ((forall sql_text o, blob_free (fst (sqlite P sql_text o)) = true) ->
      exists res w',
        run P self q hint w = (Ok res, w')
        /\ (0 <= res_confidence res <= 1)%Q
        /\ NoDup (res_citations res)).
Proof.
  intros Hl Hroute.
  assert (Hinv : forall limit, (10 <= limit)%nat ->
            exists r w',
              invoke P self limit router (initial_state q hint) w = (r, w')
              /\ ((exists st', r = Ok st')
                  \/ (r = Raise TypeError
                      /\ exists sql_text o,
                           blob_free (fst (sqlite P sql_text o)) = false))).
  { intros [|limit] Hlimit; [lia|].
    rewrite invoke_step, (bind_ok _ _ _ _ _ (step_router_run P self _ w))
      by discriminate.
    cbn [fst snd]. apply invoke_outcome; [exact Hl| |discriminate|simpl; lia].
    split; [split; simpl; [lia | done]|]. simpl.
    destruct (normalize_route_cases (fst (lm_route P q (outside w))))
      as [Hr|[Hr|Hr]]; [by right | by left | done]. }
  assert (Hrun : exists r w',
            run P self q hint w = (r, w')
            /\ ((exists res, r = Ok res
                             /\ (0 <= res_confidence res <= 1)%Q
                             /\ NoDup (res_citations res))
                \/ (r = Raise TypeError
                    /\ exists sql_text o,
                         blob_free (fst (sqlite P sql_text o)) = false))).
  { destruct (Hinv recursion_limit) as (r & w' & Hrun & [[st' ->]|[-> Hblob]]);
      [unfold recursion_limit; lia| |].
    - assert (Hreach : reachable P self q hint w (END, st', w')).
      { eapply (invoke_reachable P self q hint w recursion_limit router);
          [apply reach_start | exact Hrun]. }
      destruct (final_state_ranges P self _ _ _ _ _ Hreach) as [Hconf Hcites].
      eexists _, w'. split.
      + unfold run. rewrite (bind_ok _ _ _ _ _ Hrun). reflexivity.
      + left. eexists. split; [reflexivity|]. split; [exact Hconf | exact Hcites].
    - exists (Raise TypeError), w'. split; [|by right].
      unfold run. by rewrite (bind_raise _ _ _ _ _ Hrun). }
  split_and!; [exact Hinv | exact Hrun |].
  intros Hfree. destruct Hrun as (r & w' & Hrun & [(res & -> & Hres)|[_ Hblob]]).
  - by exists res, w'.
  - destruct Hblob as (sql_text & o & Hblob). by rewrite Hfree in Hblob.
Qed.

Lemma run_returns_on_sql_routes_witness :
  exists res w',
    run failing_ports empty_agent "How many orders?" "int" start = (Ok res, w')
    /\ (0 <= res_confidence res <= 1)%Q
    /\ NoDup (res_citations res).
Proof.
  refine (proj2 (proj2 (run_returns_on_sql_routes failing_ports empty_agent
                          "How many orders?" "int" start _ _)) _).
  - intros query. reflexivity.
  - discriminate.
  - intros sql_text o. reflexivity.
Defined.

(** A query that returns a picture: the rows hold a [bytes] value, the
    synthesizer raises on them after the router, the generator and the
    database have been called once each, and the model is not asked for
    an answer. *)
Example picture_run_raises :
  exists schema context,
    run picture_ports one_agent "Show the picture of the first category" "str" start
    = (Raise TypeError,
       {| outside := tt;
          calls := [CallRoute "Show the picture of the first category";
                    CallGenerateSQL "Show the picture of the first category"
                      schema context;
                    CallExecute "SELECT Picture FROM Categories"] |}).
Proof. eexists _, _. vm_compute. reflexivity. Qed.

(** A run that returns has made, after the calls that were there before
    it, exactly one call to the router, one to the SQL generator and one
    to the synthesizer, at most two to the SQL repairer, and at most one
    execution more than it made repairs: between three and eight calls
    in all. *)
Theorem run_calls_are_bounded {W} (P : Ports W) (self : HybridAgent)
    (q hint : string) (w : World W) (res : RunResult) (w' : World W) :
  run P self q hint w = (Ok res, w') ->
  exists made,
    calls w' = calls w ++ made
    /\ count is_route made = 1%nat
    /\ count is_generate made = 1%nat
    /\ count is_synthesize made = 1%nat
    /\ (count is_repair made <= 2)%nat
    /\ (count is_execute made <= count is_repair made + 1)%nat
    /\ (3 <= length made <= 8)%nat.
Proof.
  intros Hrun. apply run_inv in Hrun as (st & Hreach & _).
  destruct (reachable_ledger P self _ _ _ _ _ _ Hreach)
    as (made & Hcalls & Hr & Hs & Hrep & Hg & He).
  destruct (reachable_inv P self _ _ _ _ _ _ Hreach) as [Hrc _].
  exists made. rewrite (count_kinds made). split_and!; try done; lia.
Qed.

Lemma run_calls_are_bounded_witness :
  exists made,
    calls failing_world = calls start ++ made
    /\ count is_route made = 1%nat
    /\ count is_generate made = 1%nat
    /\ count is_synthesize made = 1%nat
    /\ (count is_repair made <= 2)%nat
    /\ (count is_execute made <= count is_repair made + 1)%nat
    /\ (3 <= length made <= 8)%nat.
Proof.
  apply (run_calls_are_bounded failing_ports empty_agent "How many orders?" "int"
           start failing_result failing_world).
  vm_compute. reflexivity.
Defined.










End MoreWorkflowFacts.

(** ** Binary64 arithmetic, continued *)

Module MorePyFloatFacts.

Import PyFloat PyFloatFacts.

Lemma pow2_pos (e : Z) : (0 < pow2 e)%Q.
Proof.
  unfold pow2. destruct (Z.leb_spec 0 e) as [He|He]; [|reflexivity].
  pose proof (Z.pow_pos_nonneg 2 e ltac:(lia) He).
  unfold Qlt. simpl. lia.
Qed.

Lemma rne_nonneg (q : Q) : (0 <= q)%Q -> 0 <= rne q.
Proof.
  intros Hq.
  assert (0 <= Qfloor q).
  { change 0 with (Qfloor (inject_Z 0)). by apply Qfloor_resp_le. }
  destruct (rne_floor q) as [->|[-> _]]; lia.
Qed.

Lemma inject_Z_nonneg (z : Z) : 0 <= z -> (0 <= inject_Z z)%Q.
Proof. intros Hz. unfold Qle. simpl. lia. Qed.

(** Rounding to binary64 keeps the sign of a number that is not negative. *)
Lemma b64_nonneg (q : Q) : (0 <= q)%Q -> (0 <= b64 q)%Q.
Proof.
  intros Hq. unfold b64. destruct (Qeq_bool q 0); [lra|].
  cbv zeta. rewrite Qred_correct.
  set (e := Z.max (ilog2 q - 52) (-1074)).
  pose proof (pow2_pos e) as He.
  apply Qmult_le_0_compat; [|lra].
  apply inject_Z_nonneg, rne_nonneg.
  apply Qle_shift_div_l; [exact He | lra].
Qed.

Lemma ilog2_unit (q : Q) : (0 < q <= 1)%Q -> ilog2 q <= 0.
Proof.
  intros [H0 H1]. unfold ilog2.
  assert (Hc : Z.log2 (Z.abs (Qnum q)) - Z.log2 (Z.pos (Qden q)) <= 0).
  { destruct q as [n d]. unfold Qlt, Qle in *. cbn [Qnum Qden] in *.
    assert (Z.log2 (Z.abs n) <= Z.log2 (Z.pos d)); [|lia].
    apply Z.log2_le_mono. lia. }
  destruct (Qle_bool _ _); lia.
Qed.

(** Rounding to binary64 does not leave the unit interval. *)
Lemma b64_unit (q : Q) : (0 <= q <= 1)%Q -> (0 <= b64 q <= 1)%Q.
Proof.
  intros [H0 H1]. split; [by apply b64_nonneg|].
  unfold b64. destruct (Qeq_bool q 0) eqn:Hz; [lra|].
  assert (Hpos : (0 < q)%Q).
  { apply Qeq_bool_neq in Hz. lra. }
  cbv zeta. rewrite Qred_correct.
  pose proof (ilog2_unit q (conj Hpos H1)) as Hlog.
  set (e := Z.max (ilog2 q - 52) (-1074)).
  assert (He : e < 0) by lia.
  set (N := 2 ^ (- e)).
  assert (HN : 0 < N) by (apply Z.pow_pos_nonneg; lia).
  assert (Hp : pow2 e = 1 # Z.to_pos N).
  { unfold pow2. destruct (Z.leb_spec 0 e); [lia | reflexivity]. }
  rewrite Hp.
  assert (Hdiv : (q / (1 # Z.to_pos N) == q * inject_Z N)%Q).
  { unfold Qdiv, Qinv. simpl. by rewrite Z2Pos.id. }
  assert (HNq : (0 < inject_Z N)%Q) by (unfold Qlt; simpl; lia).
  destruct (rne_range (q / (1 # Z.to_pos N)) N) as [Hr0 HrN].
  { rewrite Hdiv. split; nra. }
  unfold Qle, Qmult. simpl. rewrite Pos.mul_1_l, Z2Pos.id by exact HN. lia.
Qed.

End MorePyFloatFacts.

(** ** The post-processor, continued *)

Module MorePostProcessorFacts.

Import Text TextFacts PyFloat PyFloatFacts MorePyFloatFacts Signatures Graph Scenarios.
Import PostProcessorFacts.

Lemma digit_value_range (c : ascii) : is_digit c = true -> 0 <= digit_value c <= 9.
Proof.
  unfold is_digit, between, digit_value.
  rewrite andb_true_iff, !N.leb_le. lia.
Qed.

Lemma digits_value_nonneg (s : string) (acc : Z) :
  all_chars is_digit s = true -> 0 <= acc -> 0 <= digits_value acc s.
Proof.
  revert acc. induction s as [|c s IH]; intros acc Hall Hacc; simpl in *; [done|].
  apply andb_true_iff in Hall as [Hc Hall].
  apply IH; [exact Hall|]. pose proof (digit_value_range c Hc). lia.
Qed.

Lemma span_chars_all p (s : string) : all_chars p (span_chars p s) = true.
Proof.
  induction s as [|c s IH]; simpl; [done|].
  destruct (p c) eqn:Hc; simpl; [|done]. by rewrite Hc, IH.
Qed.

Lemma search_run_all p (s d : string) :
  search_run p s = Some d -> all_chars p d = true.
Proof.
  induction s as [|c s IH]; simpl; [done|].
  destruct (p c) eqn:Hc; [|exact IH].
  intros [= <-]. simpl. by rewrite Hc, span_chars_all.
Qed.

Lemma all_chars_app p (a b : string) :
  all_chars p (a +:+ b) = all_chars p a && all_chars p b.
Proof. induction a as [|c a IH]; norm; [done|]. by rewrite IH, andb_assoc. Qed.

Lemma py_float_nonneg (m : string) (v : Q) :
  py_float m = Some (Finite v) -> (0 <= v)%Q.
Proof.
  unfold py_float.
  pose proof (span_chars_all is_digit m) as Hip.
  revert Hip. generalize (span_chars is_digit m). intros ip Hip.
  assert (Hval : forall frac,
            all_chars is_digit frac = true ->
            (if overflows (inject_Z (digits_value 0 (ip +:+ frac))
                           / inject_Z (10 ^ Z.of_nat (String.length frac)))
             then Infinity
             else Finite (b64 (inject_Z (digits_value 0 (ip +:+ frac))
                               / inject_Z (10 ^ Z.of_nat (String.length frac)))))
            = Finite v ->
            (0 <= v)%Q).
  { intros frac Hfrac. destruct (overflows _); [discriminate|].
    intros [= <-]. apply b64_nonneg.
    assert (Hd : 0 <= digits_value 0 (ip +:+ frac)).
    { apply digits_value_nonneg; [|lia]. by rewrite all_chars_app, Hip, Hfrac. }
    assert (Hp : 0 < 10 ^ Z.of_nat (String.length frac))
      by (apply Z.pow_pos_nonneg; lia).
    apply Qle_shift_div_l; [unfold Qlt; simpl; lia|].
    rewrite Qmult_0_l. by apply inject_Z_nonneg. }
  cbv zeta. destruct (drop_chars _ m) as [|c frac].
  - destruct ip as [|a ip']; [discriminate|].
    intros [= H]. by apply (Hval EmptyString).
  - destruct (all_chars is_digit frac) eqn:Hfrac; simpl; [|discriminate].
    destruct (negb _); [|discriminate].
    intros [= H]. by apply (Hval frac).
Qed.

Lemma fallback_not_number {W} (P : Ports W) (text : string) :
  (forall z, fallback P text <> AnsInt z) /\ (forall x, fallback P text <> AnsFloat x).
Proof. unfold fallback. by destruct (json_loads P text). Qed.

(** The numbers that [_parse_answer] reads are never negative, because
    the patterns [\d+] and [[\d.]+] leave a minus sign out: under the hint
    [int] an integer result is at least 0, and under the hint [float] a
    finite result is a number of hundredths that is at least 0. *)
Theorem parse_answer_drops_the_sign {W} (P : Ports W) (answer : string) :
  (forall z, _parse_answer P answer "int" = Ok (AnsInt z) -> 0 <= z)
  /\ (forall x, _parse_answer P answer "float" = Ok (AnsFloat (Finite x)) ->
        (0 <= x)%Q /\ exists n, 0 <= n /\ x = cents n).
Proof.
  destruct (clean_answer_ok answer) as [text Hc].
  rewrite !(parse_answer_cases P _ _ _ Hc).
  destruct (fallback_not_number P text) as [Hfi Hff].
  split.
  - intros z. unfold parse_by_hint. simpl String.eqb. cbv iota.
    destruct (search_run is_digit text) as [digits|] eqn:Hs;
      [|intros [= H]; by apply Hfi in H].
    unfold py_int. destruct (_ <? _)%nat; simpl;
      [intros [= H]; by apply Hfi in H|].
    intros [= <-]. apply digits_value_nonneg; [|lia]. by eapply search_run_all.
  - intros x. unfold parse_by_hint. simpl String.eqb. cbv iota.
    assert (Hcents : forall n, 0 <= n -> (0 <= cents n)%Q).
    { intros n Hn. apply b64_nonneg.
      apply Qle_shift_div_l; [reflexivity|]. rewrite Qmult_0_l.
      by apply inject_Z_nonneg. }
    destruct (search_run is_digit_or_dot text) as [m|] eqn:Hs.
    + destruct (py_float m) as [[v|]|] eqn:Hf; simpl;
        [| discriminate | intros [= H]; by apply Hff in H].
      intros [= <-]. apply py_float_nonneg in Hf.
      assert (Hn : 0 <= hundredths v).
      { unfold hundredths. apply rne_nonneg. lra. }
      split; [by apply Hcents | by exists (hundredths v)].
    + intros [= <-]. split; [lra|]. by exists 0.
Qed.

Lemma parse_answer_drops_the_sign_witness :
  0 <= 5 /\ ((0 <= lit (25 # 10))%Q /\ exists n, 0 <= n /\ lit (25 # 10) = cents n).
Proof.
  destruct (parse_answer_drops_the_sign rag_ports "The change is -5 units")
    as [Hint _].
  destruct (parse_answer_drops_the_sign rag_ports "a loss of -2.5 percent")
    as [_ Hfloat].
  split.
  - apply Hint. reflexivity.
  - apply Hfloat. vm_compute. reflexivity.
Defined.

End MorePostProcessorFacts.


(** ** agent/dspy_signatures.py, continued *)

Module MoreSignaturesFacts.

Import Text TextFacts MoreTextFacts Signatures Fences Scenarios.
Import PostProcessorFacts WorkflowFacts.



















End MoreSignaturesFacts.

(** ** run_agent_hybrid.py *)

Module BatchFacts.

Import Text PyFloat Signatures Graph Batch Scenarios MoreScenarios.
Import WorkflowFacts MoreWorkflowFacts.

Section Loop.

Context {W : Type} (P : Ports W) (agent : HybridAgent) (str_exn : exn -> string).

Lemma process_ranges (q : Question) (w : World W) :
  (0 <= out_confidence (fst (process P agent str_exn q w)) <= 1)%Q
  /\ NoDup (out_citations (fst (process P agent str_exn q w))).
Proof.
  unfold process.
  destruct (run P agent _ _ w) as [[res|e] w'] eqn:Hrun; simpl.
  - apply run_inv in Hrun as (st & Hreach & ->). simpl.
    by eapply final_state_ranges.
  - split; [lra | constructor].
Qed.

Lemma process_all_written (questions : list Question) (written : list Output)
    (w : World W) :
  process_all P agent str_exn questions written w
  = (written ++ fst (process_all P agent str_exn questions [] w),
     snd (process_all P agent str_exn questions [] w)).
Proof.
  revert written w. induction questions as [|q questions IH]; intros written w.
  - simpl. by rewrite app_nil_r.
  - simpl. destruct (process P agent str_exn q w) as [line w'].
    rewrite (IH (written ++ [line])), (IH [line]). simpl.
    by rewrite <- List.app_assoc.
Qed.

Lemma process_batch_cons (q : Question) (questions : list Question) (w : World W) :
  process_batch P agent str_exn (q :: questions) w
  = (fst (process P agent str_exn q w)
       :: fst (process_batch P agent str_exn questions
                 (snd (process P agent str_exn q w))),
     snd (process_batch P agent str_exn questions
            (snd (process P agent str_exn q w)))).
Proof.
  unfold process_batch. simpl.
  destruct (process P agent str_exn q w) as [line w']. simpl.
  by rewrite process_all_written.
Qed.

End Loop.

(** What the loop writes when the console is left out. *)
Lemma process_batch_lines {W} (P : Ports W) (agent : HybridAgent)
    (str_exn : exn -> string) (questions : list Question) (w : World W) :
  let outputs := fst (process_batch P agent str_exn questions w) in
  map out_id outputs = map q_id questions
  /\ (forall more,
        fst (process_batch P agent str_exn (questions ++ more) w)
        = outputs
          ++ fst (process_batch P agent str_exn more
                    (snd (process_batch P agent str_exn questions w)))).
Proof.
  revert w. induction questions as [|q questions IH]; intros w.
  - split; done.
  - cbn zeta in *. rewrite process_batch_cons. cbn [fst].
    destruct (IH (snd (process P agent str_exn q w))) as (Hids & Happ).
    split.
    + cbn [map]. f_equal; [|exact Hids].
      unfold process. by destruct (run P agent _ _ w) as [[res|e] w'].
    + intros more. rewrite <- List.app_comm_cons, process_batch_cons. cbn [fst snd].
      by rewrite Happ.
Qed.

Section Console.

Context {W : Type} (P : Ports W) (agent : HybridAgent) (str_exn : exn -> string).
Context (console : Message -> option exn).

Lemma error_line_of (q : Question) (e : exn) : line_of q (error_line str_exn q e).
Proof. split_and!; [done | simpl; lra | simpl; lra | constructor]. Qed.

Lemma result_line_of (q : Question) (res : RunResult) (w w' : World W) :
  run P agent (q_question q) (default "str" (q_format_hint q)) w = (Ok res, w') ->
  line_of q (result_line q res).
Proof.
  intros Hrun. split; [done|].
  apply run_inv in Hrun as (st & Hreach & ->). simpl.
  by eapply final_state_ranges.
Qed.

(** A question gets no line when a message before the [try] raises, or
    when [agent.run] raises and the message of the exception raises too; it
    gets two when a message after the write raises and the message of that
    exception is printed: the line of the result, then the line of the
    error. *)
Lemma body_lines (i n : nat) (q : Question) (written : list Output) (w : World W) :
  exists lines w' raised,
    body P agent str_exn console i n q written w = ((written ++ lines, w'), raised)
    /\ (length lines <= 2)%nat
    /\ Forall (line_of q) lines
    /\ (raised = None -> (1 <= length lines)%nat).
Proof.
  unfold body, on_exception. cbn [print_all].
  destruct (console (MsgHeader i n)) as [e0|].
  { exists [], w, (Some e0). rewrite app_nil_r.
    split_and!; [done | simpl; lia | constructor | done]. }
  destruct (console (MsgQuestion _)) as [e0|].
  { exists [], w, (Some e0). rewrite app_nil_r.
    split_and!; [done | simpl; lia | constructor | done]. }
  destruct (run P agent _ _ w) as [[res|e] w'] eqn:Hrun.
  - pose proof (result_line_of _ _ _ _ Hrun) as Hres.
    destruct (report console res) as [e|].
    + destruct (console (MsgError e)) as [e'|].
      * exists [result_line q res], w', (Some e').
        split_and!; [done | simpl; lia | | done].
        constructor; [exact Hres | constructor].
      * exists [result_line q res; error_line str_exn q e], w', None.
        split_and!; [by rewrite <- List.app_assoc | simpl; lia | | simpl; lia].
        constructor; [exact Hres|].
        constructor; [apply error_line_of | constructor].
    + exists [result_line q res], w', None.
      split_and!; [done | simpl; lia | | simpl; lia].
      constructor; [exact Hres | constructor].
  - destruct (console (MsgError e)) as [e'|].
    + exists [], w', (Some e'). rewrite app_nil_r.
      split_and!; [done | simpl; lia | constructor | done].
    + exists [error_line str_exn q e], w', None.
      split_and!; [done | simpl; lia | | simpl; lia].
      constructor; [apply error_line_of | constructor].
Qed.

(** The output file is made of one group of lines for each question that
    the loop came to, in the order of the batch. *)
Lemma main_loop_lines (i n : nat) (questions : list Question) (written : list Output)
    (w : World W) :
  exists groups w' raised,
    main_loop P agent str_exn console i n questions written w
    = ((written ++ concat groups, w'), raised)
    /\ Forall2 (fun q lines => (length lines <= 2)%nat /\ Forall (line_of q) lines)
         (take (length groups) questions) groups
    /\ (length groups <= length questions)%nat
    /\ (raised = None ->
         Forall2 (fun (_ : Question) lines => (1 <= length lines)%nat) questions groups).
Proof.
  revert i written w.
  induction questions as [|q questions IH]; intros i written w.
  - exists [], w, None. simpl. rewrite app_nil_r.
    split_and!; [done | constructor | done | constructor].
  - cbn [main_loop].
    destruct (body_lines i n q written w) as (lines & w' & raised & -> & Hlen & Hall & Hone).
    destruct raised as [e|].
    + exists [lines], w', (Some e). simpl. rewrite app_nil_r.
      split_and!; [done | | lia | done].
      constructor; [by split | constructor].
    + destruct (IH (S i) (written ++ lines) w')
        as (groups & w'' & raised & -> & Hgroups & Hle & Hnone).
      exists (lines :: groups), w'', raised. simpl.
      split_and!; [by rewrite <- List.app_assoc | | lia |].
      { constructor; [by split | exact Hgroups]. }
      intros Hr. constructor; [by apply Hone | by apply Hnone].
Qed.

(** When the console prints every message the body of the loop is
    [process]. *)
Lemma body_quiet (i n : nat) (q : Question) (written : list Output) (w : World W) :
  (forall m, console m = None) ->
  body P agent str_exn console i n q written w
  = ((written ++ [fst (process P agent str_exn q w)],
      snd (process P agent str_exn q w)), None).
Proof.
  intros Hq. unfold body, on_exception, report, process. cbn [print_all].
  rewrite !Hq.
  destruct (run P agent _ _ w) as [[res|e] w']; by rewrite !Hq.
Qed.

Lemma main_loop_quiet (i n : nat) (questions : list Question) (written : list Output)
    (w : World W) :
  (forall m, console m = None) ->
  main_loop P agent str_exn console i n questions written w
  = (process_all P agent str_exn questions written w, None).
Proof.
  intros Hq. revert i written w.
  induction questions as [|q questions IH]; intros i written w; [done|].
  cbn [main_loop process_all]. rewrite body_quiet by done.
  destruct (process P agent str_exn q w) as [line w']. cbn [fst snd].
  apply IH.
Qed.

End Console.

(** [main] writes the output file question by question: the file is
    made of one group of lines for each question that the loop came to,
    in the order of the batch; a group has at most two lines, each with the
    id of its question, a confidence between 0 and 1 and citations without
    duplicates; when no exception leaves [main], every question has its
    group, of one line at least.  When the console prints every message,
    no exception leaves [main], the file is the one of [process_batch],
    with exactly one line for each question, in the order of the batch, and
    the lines of a batch are the first lines of any batch that it begins.
    A console that raises, as Rich does on a closing tag without its
    opening tag, can end [main] before the last question or give a
    question the line of its result and the line of an error. *)
Theorem batch_writes_one_line_per_question {W} (P : Ports W) (agent : HybridAgent)
    (str_exn : exn -> string) (console : Message -> option exn)
    (questions : list Question) (w : World W) :
  let r := main_batch P agent str_exn console questions w in
  let outputs := fst (fst r) in
  (exists groups,
      outputs = concat groups
      /\ (length groups <= length questions)%nat
      /\ Forall2 (fun q lines =>
                    (length lines <= 2)%nat
                    /\ Forall (fun out => out_id out = q_id q
                                          /\ (0 <= out_confidence out <= 1)%Q
                                          /\ NoDup (out_citations out)) lines)
           (take (length groups) questions) groups
      /\ (snd r = None ->
           Forall2 (fun (_ : Question) lines => (1 <= length lines)%nat)
             questions groups))
  /\ ((forall m, console m = None) ->
      snd r = None
      /\ fst r = process_batch P agent str_exn questions w
      /\ map out_id outputs = map q_id questions
      /\ (forall more,
            fst (process_batch P agent str_exn (questions ++ more) w)
            = outputs ++ fst (process_batch P agent str_exn more (snd (fst r))))).
Proof.
  cbv zeta. unfold main_batch. split.
  - destruct (main_loop_lines P agent str_exn console 1 (length questions) questions [] w)
      as (groups & w' & raised & -> & Hgroups & Hle & Hnone).
    exists groups. cbn [fst snd]. by rewrite app_nil_l.
  - intros Hq. rewrite main_loop_quiet by done. cbn [fst snd].
    fold (process_batch P agent str_exn questions w).
    destruct (process_batch_lines P agent str_exn questions w) as (Hids & Happ).
    split_and!; [done | done | exact Hids | exact Happ].
Qed.

Lemma batch_writes_one_line_per_question_witness :
  snd (main_batch failing_ports empty_agent no_text quiet_console two_questions start)
  = None
  /\ map out_id
       (fst (fst (main_batch failing_ports empty_agent no_text quiet_console
                    two_questions start)))
     = map q_id two_questions.
Proof.
  pose proof (proj2 (batch_writes_one_line_per_question failing_ports empty_agent
                       no_text quiet_console two_questions start)
                (fun _ => eq_refl)) as H.
  exact (conj (proj1 H) (proj1 (proj2 (proj2 H)))).
Defined.

(** An answer that ends with the tag of the prompt format: the line of the
    first question is written, the answer is not printed, the message of
    the exception is not printed either, and [main] ends with the
    exception before the second question. *)
Example tagged_answer_ends_main :
  let r := main_batch tagged_ports one_agent no_text markup_console text_questions start in
  snd r = Some MarkupError
  /\ map out_id (fst (fst r)) = [JStr "q1"]
  /\ map out_final_answer (fst (fst r)) = [AnsStr "830 orders [/INST]"].
Proof. vm_compute. done. Qed.



End BatchFacts.

(** ** optimize_nl_to_sql.py *)

Module OptimizeFacts.

Import Text PyFloat PyFloatFacts MorePyFloatFacts Signatures Graph Calls Optimize.
Import Scenarios MoreScenarios PostProcessorFacts WorkflowFacts MoreWorkflowFacts.

Section Evaluate.

Context {W : Type} (P : Ports W) (schema : string).

(** One example: the generator is called once, the query is executed at
    most once, and no exception reaches the [except]. *)
Lemma evaluate_one_counts (question : string) (v e : Z) (w : World W) :
  exists v' e' w' made,
    evaluate_one P schema question (v, e) w = ((v', e'), w')
    /\ calls w' = calls w ++ made
    /\ count is_generate made = 1%nat
    /\ Z.of_nat (count is_execute made) = v' - v
    /\ length made = (1 + count is_execute made)%nat
    /\ 0 <= e' - e <= v' - v /\ v' - v <= 1.
Proof.
  unfold evaluate_one, NLToSQL_forward.
  rewrite (bind_ok _ _ _ _ _ (call_run _ _ _)). unfold lift.
  destruct (clean_sql_ok (fst (lm_generate P question schema EmptyString (outside w))))
    as [s ->].
  destruct (negb (String.eqb s EmptyString) && contains "SELECT" (upper s)).
  - rewrite execute_query_run.
    destruct (sqlite P s _) as [[desc rows|msg] o]; simpl;
      eexists _, _, _, [_; _]; (split; [reflexivity|]);
      (split; [simpl; by rewrite <- List.app_assoc|]); unfold count; simpl; lia.
  - eexists _, _, _, [_]. split; [reflexivity|].
    split; [reflexivity|]. unfold count. simpl. lia.
Qed.

Lemma evaluate_loop_counts (questions : list string) (v e : Z) (w : World W) :
  exists v' e' w' made,
    evaluate_loop P schema questions (v, e) w = ((v', e'), w')
    /\ calls w' = calls w ++ made
    /\ count is_generate made = length questions
    /\ Z.of_nat (count is_execute made) = v' - v
    /\ length made = (length questions + count is_execute made)%nat
    /\ 0 <= e' - e <= v' - v /\ v' - v <= Z.of_nat (length questions).
Proof.
  revert v e w. induction questions as [|question questions IH]; intros v e w.
  - exists v, e, w, []. unfold count. simpl. rewrite app_nil_r.
    split_and!; try done; lia.
  - destruct (evaluate_one_counts question v e w)
      as (v1 & e1 & w1 & made1 & H1 & Hc1 & Hg1 & He1 & Hl1 & Hr1 & Hv1).
    destruct (IH v1 e1 w1)
      as (v2 & e2 & w2 & made2 & H2 & Hc2 & Hg2 & He2 & Hl2 & Hr2 & Hv2).
    exists v2, e2, w2, (made1 ++ made2).
    cbn [evaluate_loop]. rewrite H1, H2.
    rewrite !count_app, List.length_app. cbn [length].
    split_and!; try lia; [done|].
    by rewrite Hc2, Hc1, <- List.app_assoc.
Qed.

End Evaluate.

Lemma int_div_unit (a b : Z) : 0 <= a <= b -> 0 < b -> (0 <= int_div a b <= 1)%Q.
Proof.
  intros Ha Hb. unfold int_div. apply b64_unit.
  assert (Hbq : (0 < inject_Z b)%Q) by (unfold Qlt; simpl; lia).
  split.
  - apply Qle_shift_div_l; [exact Hbq|]. rewrite Qmult_0_l.
    apply inject_Z_nonneg. lia.
  - apply Qle_shift_div_r; [exact Hbq|]. rewrite Qmult_1_l.
    rewrite <- Zle_Qle. lia.
Qed.

(** On an empty list of examples [evaluate_sql_module] calls nothing and
    raises [ZeroDivisionError].  On any other list it does not raise: it
    calls the generator once per example and executes the queries it
    counts as valid, one execution each; the queries that executed are
    among the valid ones, and both rates, the counts divided by the number
    of examples, lie in [0, 1]. *)
Theorem evaluate_sql_module_rates {W} (P : Ports W) (schema : string)
    (questions : list string) (w : World W) :
  let total := Z.of_nat (length questions) in
  (questions = [] -> evaluate_sql_module P schema questions w = (ZeroDivisionError, w))
  /\ (questions <> [] ->
      exists valid_count exec_success_count w' made,
        evaluate_sql_module P schema questions w
        = (Rates (int_div valid_count total) (int_div exec_success_count total), w')
        /\ 0 <= exec_success_count <= valid_count /\ valid_count <= total
        /\ (0 <= int_div valid_count total <= 1)%Q
        /\ (0 <= int_div exec_success_count total <= 1)%Q
        /\ calls w' = calls w ++ made
        /\ count is_generate made = length questions
        /\ Z.of_nat (count is_execute made) = valid_count
        /\ length made = (count is_generate made + count is_execute made)%nat).
Proof.
  intros total. split.
  - intros ->. reflexivity.
  - intros Hne.
    destruct (evaluate_loop_counts P schema questions 0 0 w)
      as (v & e & w' & made & Hloop & Hcalls & Hg & He & Hl & Hr & Hv).
    assert (Htotal : 0 < total) by (destruct questions; [done | subst total; simpl; lia]).
    exists v, e, w', made. unfold evaluate_sql_module. rewrite Hloop.
    fold total. destruct (Z.eqb_spec total 0) as [Hz|_]; [lia|]. cbn [fst snd].
    pose proof (int_div_unit v total ltac:(lia) Htotal) as [? ?].
    pose proof (int_div_unit e total ltac:(lia) Htotal) as [? ?].
    split_and!; try done; lia.
Qed.

Lemma evaluate_sql_module_rates_witness :
  evaluate_sql_module working_ports "Orders(OrderID INTEGER)" [] start
  = (ZeroDivisionError, start)
  /\ exists valid_count exec_success_count w' made,
       evaluate_sql_module failing_ports "Orders(OrderID INTEGER)"
         ["How many orders?"] start
       = (Rates (int_div valid_count 1) (int_div exec_success_count 1), w')
       /\ 0 <= exec_success_count <= valid_count /\ valid_count <= 1
       /\ (0 <= int_div valid_count 1 <= 1)%Q
       /\ (0 <= int_div exec_success_count 1 <= 1)%Q
       /\ calls w' = calls start ++ made
       /\ count is_generate made = 1%nat
       /\ Z.of_nat (count is_execute made) = valid_count
       /\ length made = (count is_generate made + count is_execute made)%nat.
Proof.
  split.
  - apply (evaluate_sql_module_rates working_ports "Orders(OrderID INTEGER)" [] start).
    reflexivity.
  - apply (evaluate_sql_module_rates failing_ports "Orders(OrderID INTEGER)"
             ["How many orders?"] start).
    discriminate.
Defined.

End OptimizeFacts.
